(** * music-gem: step sequencer, voice engine and MIDI emitter

    A shallow embedding of [types.ts], [services/audioEngine.ts]
    (src/unnamed/part_001), [services/midiService.ts], the sequencer and the
    handlers of the panel of [App.tsx], [constants.ts] and the handlers of
    [components/Knob.tsx]; the rendering of the panel is left out.

    Conventions of the embedding.
    - A JavaScript [number] that holds a time, a level or a frequency is a real
      number ([R]): the arithmetic of the source is read with its exact
      mathematical meaning.  The scheduling cursor, whose time is a running
      sum, is modelled a second time on IEEE doubles ([Double]), where each
      addition rounds.
    - A [number] that holds a step index, a MIDI note or a velocity is an
      integer ([Z]); the JavaScript remainder [%] is [Z.rem].
    - The Web Audio objects the engine drives ([AudioParam], [OscillatorNode])
      are records holding the automation events scheduled on them, in call
      order.
    - Browser timers ([setTimeout]) are a list of pending tasks with a due
      time on the wall clock; a transition system fires them. *)

From Stdlib Require Import Reals Lra Lia ZArith List String Bool.
From Stdlib Require Import DecimalString.
From Stdlib Require SpecFloat.
Import ListNotations.
Open Scope R_scope.

(** ** types.ts *)

Record Step := {
  active : bool;
  note : Z;
  octave : Z;
  slide : bool;
  accent : bool
}.

Inductive Waveform := sawtooth | square.

Record SynthParams := {
  cutoff : R;
  resonance : R;
  envMod : R;
  decay : R;
  accentLevel : R;
  tempo : R;
  waveform : Waveform;
  volume : R
}.

Inductive PlayState := STOPPED | PLAYING.

(** [export const STEPS_PER_BAR = 16] of [constants.ts], whose text follows
    the component in src/components/Knob.tsx (line 78). *)
Definition STEPS_PER_BAR : Z := 16%Z.

(** ** Web Audio automation *)

Module WebAudio.

(** The automation methods of an [AudioParam] the engine calls. *)
Inductive ParamCall :=
| setValueAtTime (v t : R)
| linearRampToValueAtTime (v endTime : R)
| exponentialRampToValueAtTime (v endTime : R)
| setTargetAtTime (target startTime timeConstant : R)
| cancelScheduledValues (cancelTime : R).

(** Time of an automation event on the timeline of its parameter. *)
Definition eventTime (c : ParamCall) : R :=
  match c with
  | setValueAtTime _ t => t
  | linearRampToValueAtTime _ t => t
  | exponentialRampToValueAtTime _ t => t
  | setTargetAtTime _ t _ => t
  | cancelScheduledValues t => t
  end.

(** Value an automation event drives its parameter to. *)
Definition eventValue (c : ParamCall) : option R :=
  match c with
  | setValueAtTime v _ => Some v
  | linearRampToValueAtTime v _ => Some v
  | exponentialRampToValueAtTime v _ => Some v
  | setTargetAtTime v _ _ => Some v
  | cancelScheduledValues _ => None
  end.

Record AudioParam := {
  value : R;                     (* the [.value] attribute *)
  events : list ParamCall        (* scheduled automation, in call order *)
}.

Definition newParam (v : R) : AudioParam := {| value := v; events := [] |}.

Definition setValue (v : R) (p : AudioParam) : AudioParam :=
  {| value := v; events := events p |}.

Definition before (t : R) (c : ParamCall) : bool :=
  if Rlt_dec (eventTime c) t then true else false.

(** [cancelScheduledValues t] removes every event whose time is at or after
    [t]; the other methods add one event. *)
Definition call (c : ParamCall) (p : AudioParam) : AudioParam :=
  match c with
  | cancelScheduledValues t =>
      {| value := value p; events := filter (before t) (events p) |}
  | _ => {| value := value p; events := events p ++ [c] |}
  end.

Definition calls (cs : list ParamCall) (p : AudioParam) : AudioParam :=
  fold_left (fun q c => call c q) cs p.

Inductive ContextState := suspended | running.

Record AudioContext := {
  state : ContextState;
  currentTime : R
}.

Record OscillatorNode := {
  type : Waveform;
  frequency : AudioParam;
  startTime : R;
  connected : bool
}.

End WebAudio.

(** ** services/audioEngine.ts *)

Module AudioEngine.
Import WebAudio.

(** The four parameters [scheduleStep] automates. *)
Inductive ParamId := osc_frequency | filter_Q | ampGain_gain | filter_frequency.

Definition ParamId_eqb (a b : ParamId) : bool :=
  match a, b with
  | osc_frequency, osc_frequency
  | filter_Q, filter_Q
  | ampGain_gain, ampGain_gain
  | filter_frequency, filter_frequency => true
  | _, _ => false
  end.

Record t := {
  ctx : AudioContext;
  masterGain : AudioParam;
  osc : option OscillatorNode;
  oscCreated : nat;              (* calls of [ctx.createOscillator] so far *)
  filterFrequency : AudioParam;
  filterQ : AudioParam;
  ampGain : AudioParam;
  isPlaying : bool
}.

(** [constructor]: the context starts suspended at time [now]; filter and
    amplitude nodes are created here, the oscillator is not. *)
Definition constructor (now : R) : t := {|
  ctx := {| state := suspended; currentTime := now |};
  masterGain := newParam (1 / 2);
  osc := None;
  oscCreated := 0;
  filterFrequency := newParam 350;
  filterQ := newParam 1;
  ampGain := newParam 0;
  isPlaying := false
|}.

Definition set_ctx (c : AudioContext) (e : t) : t :=
  {| ctx := c; masterGain := masterGain e; osc := osc e;
     oscCreated := oscCreated e; filterFrequency := filterFrequency e;
     filterQ := filterQ e; ampGain := ampGain e; isPlaying := isPlaying e |}.

Definition set_osc (o : option OscillatorNode) (e : t) : t :=
  {| ctx := ctx e; masterGain := masterGain e; osc := o;
     oscCreated := oscCreated e; filterFrequency := filterFrequency e;
     filterQ := filterQ e; ampGain := ampGain e; isPlaying := isPlaying e |}.

Definition set_ampGain (p : AudioParam) (e : t) : t :=
  {| ctx := ctx e; masterGain := masterGain e; osc := osc e;
     oscCreated := oscCreated e; filterFrequency := filterFrequency e;
     filterQ := filterQ e; ampGain := p; isPlaying := isPlaying e |}.

Definition set_filterQ (p : AudioParam) (e : t) : t :=
  {| ctx := ctx e; masterGain := masterGain e; osc := osc e;
     oscCreated := oscCreated e; filterFrequency := filterFrequency e;
     filterQ := p; ampGain := ampGain e; isPlaying := isPlaying e |}.

Definition set_filterFrequency (p : AudioParam) (e : t) : t :=
  {| ctx := ctx e; masterGain := masterGain e; osc := osc e;
     oscCreated := oscCreated e; filterFrequency := p;
     filterQ := filterQ e; ampGain := ampGain e; isPlaying := isPlaying e |}.

(** [this.osc = this.ctx.createOscillator()] *)
Definition createOscillator (e : t) : t :=
  {| ctx := ctx e; masterGain := masterGain e;
     osc := Some {| type := sawtooth; frequency := newParam 440;
                    startTime := 0; connected := false |};
     oscCreated := S (oscCreated e); filterFrequency := filterFrequency e;
     filterQ := filterQ e; ampGain := ampGain e; isPlaying := isPlaying e |}.

Definition resume (e : t) : t :=
  match state (ctx e) with
  | suspended => set_ctx {| state := running; currentTime := currentTime (ctx e) |} e
  | running => e
  end.

(** One automation call on one of the engine's parameters.  A call on the
    oscillator frequency reaches the current oscillator. *)
Definition paramCall (pc : ParamId * ParamCall) (e : t) : t :=
  match fst pc with
  | osc_frequency =>
      match osc e with
      | Some o =>
          set_osc (Some {| type := type o;
                           frequency := call (snd pc) (frequency o);
                           startTime := startTime o;
                           connected := connected o |}) e
      | None => e
      end
  | filter_Q => set_filterQ (call (snd pc) (filterQ e)) e
  | ampGain_gain => set_ampGain (call (snd pc) (ampGain e)) e
  | filter_frequency => set_filterFrequency (call (snd pc) (filterFrequency e)) e
  end.

Definition paramCalls (l : list (ParamId * ParamCall)) (e : t) : t :=
  fold_left (fun e' pc => paramCall pc e') l e.

(** The parameter behind an identifier; the oscillator frequency exists only
    while an oscillator does. *)
Definition paramOf (p : ParamId) (e : t) : option AudioParam :=
  match p with
  | osc_frequency => option_map frequency (osc e)
  | filter_Q => Some (filterQ e)
  | ampGain_gain => Some (ampGain e)
  | filter_frequency => Some (filterFrequency e)
  end.

(** The automation scheduled on a parameter, in call order. *)
Definition timeline (p : ParamId) (e : t) : list ParamCall :=
  match paramOf p e with
  | Some q => events q
  | None => []
  end.

(** [36 + step.note + (step.octave * 12)] *)
Definition baseMidi (step : Step) : Z := (36 + note step + octave step * 12)%Z.

(** [440 * Math.pow(2, (baseMidi - 69) / 12)] *)
Definition frequencyOf (midi : Z) : R := 440 * Rpower 2 ((IZR midi - 69) / 12).

Definition maxFilterFreq : R := 20000.
Definition baseCutoff (params : SynthParams) : R := cutoff params / 100 * 8000 + 50.
Definition resValue (params : SynthParams) : R := resonance params / 100 * 20.
Definition accentIntensity (params : SynthParams) : R := accentLevel params / 100.

Definition activeVol (step : Step) (params : SynthParams) : R :=
  if accent step
  then Rmin 1 (volume params / 100 + 3 / 10 * accentIntensity params)
  else volume params / 100.

Definition activeEnvMod (step : Step) (params : SynthParams) : R :=
  if accent step
  then Rmin 1 (envMod params / 100 + 1 / 2 * accentIntensity params)
  else envMod params / 100.

Definition activeDecay (step : Step) (params : SynthParams) : R :=
  if accent step
  then Rmax (1 / 10) (decay params / 100 * (1 / 2))
  else decay params / 100.

Definition qValue (step : Step) (params : SynthParams) : R :=
  if accent step
  then resValue params + 10 * accentIntensity params
  else resValue params.

Definition peakFilter (step : Step) (params : SynthParams) : R :=
  Rmin maxFilterFreq (baseCutoff params + activeEnvMod step params * 10000).

Definition decayTime (step : Step) (params : SynthParams) : R :=
  1 / 10 + activeDecay step params * 2.

Definition gateLen (stepDuration : R) : R := stepDuration * (8 / 10).

(** Section 2 of [scheduleStep], after the pitch is set: the glide, only
    under [step.slide && nextStep && nextStep.active]. *)
Definition slideRamp (step : Step) (nextStep : option Step) (time stepDuration : R)
    : list ParamCall :=
  match nextStep with
  | Some n =>
      if slide step && active n
      then [linearRampToValueAtTime (frequencyOf (baseMidi n)) (time + stepDuration)]
      else []
  | None => []
  end.

(** Section 5 of [scheduleStep]: the gate closes only under [!step.slide].
    The two times are sums in exact arithmetic; the doubles of the code can
    differ from them in the last place, so that at [stepDuration = 0.1] the
    end of the ramp may fall just below [time + stepDuration]. *)
Definition gateClose (step : Step) (time : R) (params : SynthParams)
    (stepDuration : R) : list ParamCall :=
  if negb (slide step)
  then [setValueAtTime (activeVol step params) (time + gateLen stepDuration);
        linearRampToValueAtTime 0 (time + gateLen stepDuration + 2 / 100)]
  else [].

(** The automation calls of [scheduleStep] for an active step, in source
    order (sections 2 to 5 of the method). *)
Definition activeStepCalls (step : Step) (nextStep : option Step) (time : R)
    (params : SynthParams) (stepDuration : R) : list (ParamId * ParamCall) :=
  [(osc_frequency, setValueAtTime (frequencyOf (baseMidi step)) time)]
  ++ map (pair osc_frequency) (slideRamp step nextStep time stepDuration)
  ++ [(filter_Q, setValueAtTime (qValue step params) time);
      (ampGain_gain, cancelScheduledValues time);
      (ampGain_gain, setValueAtTime (activeVol step params) time);
      (filter_frequency, cancelScheduledValues time);
      (filter_frequency, setValueAtTime (baseCutoff params) time);
      (filter_frequency,
       linearRampToValueAtTime (peakFilter step params) (time + 1 / 100));
      (filter_frequency,
       exponentialRampToValueAtTime (baseCutoff params)
                                    (time + decayTime step params))]
  ++ map (pair ampGain_gain) (gateClose step time params stepDuration).

(** Section 1 of [scheduleStep]: create, start and connect the oscillator
    when there is none, then set its waveform. *)
Definition setupOscillator (time : R) (params : SynthParams) (e : t) : t :=
  let e1 :=
    match osc e with
    | None =>
        let e' := createOscillator e in
        match osc e' with
        | Some o =>
            set_osc (Some {| type := type o; frequency := frequency o;
                             startTime := time; connected := true |}) e'
        | None => e'
        end
    | Some _ => e
    end in
  match osc e1 with
  | Some o =>
      set_osc (Some {| type := waveform params; frequency := frequency o;
                       startTime := startTime o; connected := connected o |}) e1
  | None => e1
  end.

Definition scheduleStep (step : Step) (nextStep : option Step) (time : R)
    (params : SynthParams) (stepDuration : R) (e : t) : t :=
  if negb (active step)
  then paramCall (ampGain_gain, setTargetAtTime 0 time (1 / 100)) e
  else paramCalls (activeStepCalls step nextStep time params stepDuration)
                  (setupOscillator time params e).

(** The automation calls one [scheduleStep] issues, in order. *)
Definition stepCalls (step : Step) (nextStep : option Step) (time : R)
    (params : SynthParams) (stepDuration : R) : list (ParamId * ParamCall) :=
  if negb (active step)
  then [(ampGain_gain, setTargetAtTime 0 time (1 / 100))]
  else activeStepCalls step nextStep time params stepDuration.

(** The calls issued on one parameter. *)
Definition callsOn (p : ParamId) (l : list (ParamId * ParamCall)) : list ParamCall :=
  map snd (filter (fun pc => ParamId_eqb (fst pc) p) l).

Definition stop (e : t) : t :=
  let e1 := match osc e with Some _ => set_osc None e | None => e end in
  set_ampGain
    (setValue 0 (call (cancelScheduledValues (currentTime (ctx e1))) (ampGain e1)))
    e1.

End AudioEngine.

(** ** services/midiService.ts *)

Module MidiService.

(** [midiAccess] holds the identifiers of the output ports of the granted
    [MIDIAccess], [sent] the byte messages passed to [output.send], oldest
    first, with the port they went to. *)
Record t := {
  midiAccess : option (list string);
  selectedOutputId : option string;
  sent : list (string * list Z)
}.

Definition constructor : t :=
  {| midiAccess := None; selectedOutputId := None; sent := [] |}.

(** [initialize]: [requestMIDIAccess] answers with the output ports, or it
    is missing or fails and [midiAccess] stays [null]. *)
Definition initialize (access : option (list string)) (m : t) : t :=
  match access with
  | Some outputs =>
      {| midiAccess := Some outputs; selectedOutputId := selectedOutputId m;
         sent := sent m |}
  | None => m
  end.

Definition setOutput (id : string) (m : t) : t :=
  {| midiAccess := midiAccess m; selectedOutputId := Some id; sent := sent m |}.

Definition send (port : string) (bytes : list Z) (m : t) : t :=
  {| midiAccess := midiAccess m; selectedOutputId := selectedOutputId m;
     sent := sent m ++ [(port, bytes)] |}.

(** The port the three senders write to: access granted, a non-empty
    identifier selected, and [outputs.get] finds it. *)
Definition output (m : t) : option string :=
  match midiAccess m, selectedOutputId m with
  | Some outputs, Some id =>
      if String.eqb id EmptyString then None
      else if existsb (String.eqb id) outputs then Some id else None
  | _, _ => None
  end.

Definition sendNoteOn (note velocity : Z) (m : t) : t :=
  match output m with
  | Some port =>
      let safeNote := Z.max 0 (Z.min 127 note) in
      let safeVel := Z.max 0 (Z.min 127 velocity) in
      send port [144%Z; safeNote; safeVel] m
  | None => m
  end.

Definition sendNoteOff (note : Z) (m : t) : t :=
  match output m with
  | Some port =>
      let safeNote := Z.max 0 (Z.min 127 note) in
      send port [128%Z; safeNote; 0%Z] m
  | None => m
  end.

(** [for (let i = 0; i < 128; i++) output.send([0x80, i, 0])] *)
Definition allNotesOff (port : string) : list (string * list Z) :=
  map (fun i => (port, [128%Z; Z.of_nat i; 0%Z])) (seq 0 128).

Definition stopAll (m : t) : t :=
  match output m with
  | Some port =>
      {| midiAccess := midiAccess m; selectedOutputId := selectedOutputId m;
         sent := sent m ++ allNotesOff port |}
  | None => m
  end.

End MidiService.

(** ** App.tsx: the sequencer *)

(** Result of running a piece of the application: it returns, it throws (an
    uncaught [TypeError] on [undefined.active]), or the bound on loop
    iterations given to the model is used up. *)
Inductive outcome (A : Type) :=
| Done (a : A)
| Throws
| OutOfFuel.
Arguments Done {A} a.
Arguments Throws {A}.
Arguments OutOfFuel {A}.

Definition bind {A B : Type} (x : outcome A) (f : A -> outcome B) : outcome B :=
  match x with
  | Done a => f a
  | Throws => Throws
  | OutOfFuel => OutOfFuel
  end.

Notation "x <- c1 ;; c2" := (bind c1 (fun x => c2))
  (at level 61, c1 at next level, right associativity).

Module App.

(** The callbacks [scheduleNote] and [scheduler] hand to [setTimeout], with
    the variables each closure has captured. *)
Inductive Task :=
| runScheduler
| uiSetCurrentStep (stepNumber : Z)
| midiNoteOn (baseNote velocity : Z) (step : Step) (duration : R)
| midiNoteOff (baseNote : Z).

Record Timer := {
  id : nat;
  due : R;                       (* wall clock, milliseconds *)
  task : Task
}.

Record t := {
  (* React state *)
  params : SynthParams;
  pattern : list Step;
  playState : PlayState;
  currentStep : Z;
  (* refs of the timing loop *)
  nextNoteTime : R;
  currentStepRef : Z;
  timerID : option nat;
  isPlayingRef : bool;
  paramsRef : SynthParams;
  patternRef : list Step;
  (* the two service singletons *)
  audioEngine : AudioEngine.t;
  midiService : MidiService.t;
  (* the browser's timers *)
  wallClock : R;                 (* milliseconds *)
  timers : list Timer;
  nextTimerId : nat
}.

Definition SCHEDULE_AHEAD_TIME : R := 1 / 10.
Definition LOOKAHEAD : R := 25.

Definition set_react (ps : PlayState) (cs : Z) (a : t) : t :=
  {| params := params a; pattern := pattern a; playState := ps; currentStep := cs;
     nextNoteTime := nextNoteTime a; currentStepRef := currentStepRef a;
     timerID := timerID a; isPlayingRef := isPlayingRef a;
     paramsRef := paramsRef a; patternRef := patternRef a;
     audioEngine := audioEngine a; midiService := midiService a;
     wallClock := wallClock a; timers := timers a; nextTimerId := nextTimerId a |}.

Definition setCurrentStep (n : Z) (a : t) : t := set_react (playState a) n a.
Definition setPlayState (ps : PlayState) (a : t) : t := set_react ps (currentStep a) a.

Definition set_cursor (time : R) (stepIdx : Z) (a : t) : t :=
  {| params := params a; pattern := pattern a; playState := playState a;
     currentStep := currentStep a;
     nextNoteTime := time; currentStepRef := stepIdx;
     timerID := timerID a; isPlayingRef := isPlayingRef a;
     paramsRef := paramsRef a; patternRef := patternRef a;
     audioEngine := audioEngine a; midiService := midiService a;
     wallClock := wallClock a; timers := timers a; nextTimerId := nextTimerId a |}.

Definition set_loop (tid : option nat) (playing : bool) (a : t) : t :=
  {| params := params a; pattern := pattern a; playState := playState a;
     currentStep := currentStep a;
     nextNoteTime := nextNoteTime a; currentStepRef := currentStepRef a;
     timerID := tid; isPlayingRef := playing;
     paramsRef := paramsRef a; patternRef := patternRef a;
     audioEngine := audioEngine a; midiService := midiService a;
     wallClock := wallClock a; timers := timers a; nextTimerId := nextTimerId a |}.

Definition set_services (e : AudioEngine.t) (m : MidiService.t) (a : t) : t :=
  {| params := params a; pattern := pattern a; playState := playState a;
     currentStep := currentStep a;
     nextNoteTime := nextNoteTime a; currentStepRef := currentStepRef a;
     timerID := timerID a; isPlayingRef := isPlayingRef a;
     paramsRef := paramsRef a; patternRef := patternRef a;
     audioEngine := e; midiService := m;
     wallClock := wallClock a; timers := timers a; nextTimerId := nextTimerId a |}.

Definition set_timers (clock : R) (l : list Timer) (next : nat) (a : t) : t :=
  {| params := params a; pattern := pattern a; playState := playState a;
     currentStep := currentStep a;
     nextNoteTime := nextNoteTime a; currentStepRef := currentStepRef a;
     timerID := timerID a; isPlayingRef := isPlayingRef a;
     paramsRef := paramsRef a; patternRef := patternRef a;
     audioEngine := audioEngine a; midiService := midiService a;
     wallClock := clock; timers := l; nextTimerId := next |}.

(** [setParams] followed by the effect [paramsRef.current = params]. *)
Definition setParams (f : SynthParams -> SynthParams) (a : t) : t :=
  {| params := f (params a); pattern := pattern a; playState := playState a;
     currentStep := currentStep a;
     nextNoteTime := nextNoteTime a; currentStepRef := currentStepRef a;
     timerID := timerID a; isPlayingRef := isPlayingRef a;
     paramsRef := f (params a); patternRef := patternRef a;
     audioEngine := audioEngine a; midiService := midiService a;
     wallClock := wallClock a; timers := timers a; nextTimerId := nextTimerId a |}.

(** [setPattern] followed by the effect [patternRef.current = pattern]. *)
Definition setPattern (newPattern : list Step) (a : t) : t :=
  {| params := params a; pattern := newPattern; playState := playState a;
     currentStep := currentStep a;
     nextNoteTime := nextNoteTime a; currentStepRef := currentStepRef a;
     timerID := timerID a; isPlayingRef := isPlayingRef a;
     paramsRef := paramsRef a; patternRef := newPattern;
     audioEngine := audioEngine a; midiService := midiService a;
     wallClock := wallClock a; timers := timers a; nextTimerId := nextTimerId a |}.

(** [audioEngine['ctx'].currentTime] *)
Definition ctxTime (a : t) : R :=
  WebAudio.currentTime (AudioEngine.ctx (audioEngine a)).

(** [window.setTimeout(task, delay)]: a negative delay counts as zero; the
    handle returned is the new timer's identifier. *)
Definition setTimeout (k : Task) (delay : R) (a : t) : nat * t :=
  (nextTimerId a,
   set_timers (wallClock a)
     (timers a ++ [{| id := nextTimerId a; due := wallClock a + Rmax 0 delay;
                      task := k |}])
     (S (nextTimerId a)) a).

Definition clearTimeout (n : nat) (a : t) : t :=
  set_timers (wallClock a)
    (filter (fun tm => negb (Nat.eqb (id tm) n)) (timers a))
    (nextTimerId a) a.

(** [array[i]] for an integer index: [undefined] out of range. *)
Definition at_index {A : Type} (l : list A) (i : Z) : option A :=
  if (i <? 0)%Z then None else nth_error l (Z.to_nat i).

Definition secondsPerStep (p : SynthParams) : R := 60 / tempo p / 4.

(** [nextNote], with the time advanced in exact arithmetic;
    [Double.nextNote] below is the same function on IEEE doubles. *)
Definition nextNote (a : t) : t :=
  set_cursor (nextNoteTime a + secondsPerStep (paramsRef a))
             (Z.rem (currentStepRef a + 1) STEPS_PER_BAR) a.

Definition velocityOf (step : Step) : Z := if accent step then 127%Z else 100%Z.

Definition scheduleNote (stepNumber : Z) (time : R) (a : t) : outcome t :=
  let a1 := snd (setTimeout (uiSetCurrentStep stepNumber)
                            ((time - ctxTime a) * 1000) a) in
  let currentParams := paramsRef a1 in
  let currentPattern := patternRef a1 in
  match at_index currentPattern stepNumber with
  | None => Throws
  | Some step =>
      let nextStepIdx := Z.rem (stepNumber + 1) STEPS_PER_BAR in
      let nextStep := at_index currentPattern nextStepIdx in
      let duration := 60 / tempo currentParams / 4 in
      let a2 := set_services
                  (AudioEngine.scheduleStep step nextStep time currentParams
                                            duration (audioEngine a1))
                  (midiService a1) a1 in
      if active step then
        let baseNote := (36 + note step + octave step * 12)%Z in
        let velocity := velocityOf step in
        let delayMs := Rmax 0 ((time - ctxTime a2) * 1000) in
        Done (snd (setTimeout (midiNoteOn baseNote velocity step duration)
                              delayMs a2))
      else Done a2
  end.

(** The [while] loop of [scheduler], at most [fuel] iterations. *)
Fixpoint schedulerLoop (fuel : nat) (a : t) : outcome t :=
  if Rlt_dec (nextNoteTime a) (ctxTime a + SCHEDULE_AHEAD_TIME) then
    match fuel with
    | O => OutOfFuel
    | S fuel' =>
        a1 <- scheduleNote (currentStepRef a) (nextNoteTime a) a ;;
        schedulerLoop fuel' (nextNote a1)
    end
  else Done a.

Definition scheduler (fuel : nat) (a : t) : outcome t :=
  a1 <- schedulerLoop fuel a ;;
  if isPlayingRef a1 then
    let (tid, a2) := setTimeout runScheduler LOOKAHEAD a1 in
    Done (set_loop (Some tid) (isPlayingRef a2) a2)
  else Done a1.

Definition startSequencer (fuel : nat) (a : t) : outcome t :=
  match playState a with
  | PLAYING => Done a
  | STOPPED =>
      let a1 := set_services (AudioEngine.resume (audioEngine a)) (midiService a) a in
      let a2 := set_loop (timerID a1) true a1 in
      let a3 := set_cursor (ctxTime a2 + 5 / 100) 0%Z a2 in
      a4 <- scheduler fuel a3 ;;
      Done (setPlayState PLAYING a4)
  end.

Definition stopSequencer (a : t) : t :=
  let a1 := set_loop (timerID a) false a in
  let a2 := match timerID a1 with
            | Some (S n) => clearTimeout (S n) a1
            | _ => a1
            end in
  let a3 := set_services (AudioEngine.stop (audioEngine a2)) (midiService a2) a2 in
  let a4 := set_services (audioEngine a3) (MidiService.stopAll (midiService a3)) a3 in
  setCurrentStep (-1) (setPlayState STOPPED a4).

Definition togglePlay (fuel : nat) (a : t) : outcome t :=
  match playState a with
  | PLAYING => Done (stopSequencer a)
  | STOPPED => startSequencer fuel a
  end.

(** What a timer callback does when the browser runs it. *)
Definition runTask (fuel : nat) (k : Task) (a : t) : outcome t :=
  match k with
  | runScheduler => scheduler fuel a
  | uiSetCurrentStep n => Done (setCurrentStep n a)
  | midiNoteOn baseNote velocity step duration =>
      let a1 := set_services (audioEngine a)
                  (MidiService.sendNoteOn baseNote velocity (midiService a)) a in
      let noteLen := if slide step then duration * (105 / 100)
                     else duration * (7 / 10) in
      Done (snd (setTimeout (midiNoteOff baseNote) (noteLen * 1000) a1))
  | midiNoteOff baseNote =>
      Done (set_services (audioEngine a)
              (MidiService.sendNoteOff baseNote (midiService a)) a)
  end.

(** Time passes: the wall clock always advances, the rendering clock only
    while the context runs. *)
Definition advance (dt : R) (a : t) : t :=
  let e := audioEngine a in
  let c := AudioEngine.ctx e in
  let c' := match WebAudio.state c with
            | WebAudio.running =>
                {| WebAudio.state := WebAudio.running;
                   WebAudio.currentTime := WebAudio.currentTime c + dt |}
            | WebAudio.suspended => c
            end in
  set_timers (wallClock a + dt * 1000) (timers a) (nextTimerId a)
    (set_services (AudioEngine.set_ctx c' e) (midiService a) a).

(** What can happen to the running application. *)
Inductive Event :=
| Tick (dt : R)                              (* [dt] seconds pass *)
| Fire (n : nat)                             (* the browser runs timer [n] *)
| Start
| Stop
| EditParams (f : SynthParams -> SynthParams)
| EditPattern (newPattern : list Step)
| MidiReady (access : option (list string))  (* [midiService.initialize] ends *)
| SelectOutput (port : string).

Inductive step (fuel : nat) : t -> Event -> t -> Prop :=
| step_tick a dt :
    0 <= dt -> step fuel a (Tick dt) (advance dt a)
| step_fire a tm a' :
    In tm (timers a) ->
    due tm <= wallClock a ->
    runTask fuel (task tm) (clearTimeout (id tm) a) = Done a' ->
    step fuel a (Fire (id tm)) a'
| step_start a a' :
    startSequencer fuel a = Done a' -> step fuel a Start a'
| step_stop a :
    step fuel a Stop (stopSequencer a)
| step_params a f :
    step fuel a (EditParams f) (setParams f a)
| step_pattern a newPattern :
    step fuel a (EditPattern newPattern) (setPattern newPattern a)
| step_midi a access :
    step fuel a (MidiReady access)
      (set_services (audioEngine a)
         (MidiService.initialize access (midiService a)) a)
| step_output a port :
    step fuel a (SelectOutput port)
      (set_services (audioEngine a)
         (MidiService.setOutput port (midiService a)) a).

(** A run: the events in order, oldest first. *)
Inductive run (fuel : nat) : t -> list Event -> t -> Prop :=
| run_nil a : run fuel a [] a
| run_cons a ev a1 evs a2 :
    step fuel a ev a1 -> run fuel a1 evs a2 -> run fuel a (ev :: evs) a2.

(** The application after mounting at time [now]: stopped, no timer
    pending, the two singletons just constructed. *)
Definition mount (p : SynthParams) (pat : list Step) (now : R) : t :=
  {| params := p; pattern := pat; playState := STOPPED; currentStep := (-1)%Z;
     nextNoteTime := 0; currentStepRef := 0%Z; timerID := None;
     isPlayingRef := false; paramsRef := p; patternRef := pat;
     audioEngine := AudioEngine.constructor now;
     midiService := MidiService.constructor;
     wallClock := now * 1000; timers := []; nextTimerId := 1 |}.

End App.

(** ** The scheduling cursor on IEEE doubles

    A JavaScript [number] is a binary64 floating-point number and [+] and
    [/] round to the nearest double, ties to even: the operations of the
    Standard Library's [SpecFloat] at precision 53 and maximal exponent
    1024. *)

Module Double.
Import SpecFloat.

Definition prec : Z := 53.
Definition emax : Z := 1024.

Definition t : Type := spec_float.

Definition add (x y : t) : t := SFadd prec emax x y.
Definition div (x y : t) : t := SFdiv prec emax x y.

(** The double of a whole number (a literal such as [60.0] or [4]). *)
Definition ofZ (z : Z) : t := binary_normalize prec emax z 0 false.

(** The real number a finite double stands for. *)
Definition toR (x : t) : R :=
  match x with
  | S754_finite s m e => IZR (cond_Zopp s (Zpos m)) * powerRZ 2 e
  | _ => 0
  end.

(** A finite double above zero; the exponent of a double is never below
    -1074. *)
Definition isPositive (x : t) : bool :=
  match x with
  | S754_finite false _ e => (-1074 <=? e)%Z
  | _ => false
  end.

(** What the round and sticky bits of a shift record say: where the
    number [M] lies between the multiples [m * P] and [(m + 1) * P] of the
    weight [P] of the last kept bit. *)
Definition located (P rem : Z) (r s : bool) : Prop :=
  match r, s with
  | false, false => rem = 0%Z
  | false, true => (0 < 2 * rem < P)%Z
  | true, false => (2 * rem = P)%Z
  | true, true => (P < 2 * rem)%Z
  end.

Definition shifted (M P : Z) (mrs : shr_record) : Prop :=
  exists rem,
    (0 <= shr_m mrs)%Z /\ M = (shr_m mrs * P + rem)%Z /\ (0 <= rem < P)%Z
    /\ located P rem (shr_r mrs) (shr_s mrs).

(** The two refs [nextNote] writes, and [nextNote] of App.tsx for the tempo
    read from [paramsRef.current]. *)
Record Cursor := {
  nextNoteTime : t;
  currentStepRef : Z
}.

Definition secondsPerStep (tempo : t) : t :=
  let secondsPerBeat := div (ofZ 60) tempo in
  div secondsPerBeat (ofZ 4).

Definition nextNote (tempo : t) (c : Cursor) : Cursor :=
  {| nextNoteTime := add (nextNoteTime c) (secondsPerStep tempo);
     currentStepRef := Z.rem (currentStepRef c + 1) STEPS_PER_BAR |}.

End Double.

(** ** Statements of the specification, for comparison with the code *)

Module Spec.
Import WebAudio AudioEngine.

(** "Before scheduling any new automation point, cancel all previously
    scheduled automation at or after the trigger time on the same parameter":
    the first call a trigger makes on the parameter is the cancellation. *)
Definition cancelsFirst (p : ParamId) (time : R)
    (cs : list (ParamId * ParamCall)) : Prop :=
  hd_error (callsOn p cs) = Some (cancelScheduledValues time).

(** "Clamps each percentage field at its boundaries 0 and 100". *)
Definition clampPercent (x : R) : R := Rmax 0 (Rmin 100 x).

Definition clampParams (p : SynthParams) : SynthParams :=
  {| cutoff := clampPercent (cutoff p);
     resonance := clampPercent (resonance p);
     envMod := clampPercent (envMod p);
     decay := clampPercent (decay p);
     accentLevel := clampPercent (accentLevel p);
     tempo := tempo p;
     waveform := waveform p;
     volume := clampPercent (volume p) |}.

Definition percent (x : R) : Prop := 0 <= x <= 100.

(** The six percentage fields of a [SynthParams] lie in [0,100]. *)
Definition percentages (p : SynthParams) : Prop :=
  percent (cutoff p) /\ percent (resonance p) /\ percent (envMod p)
  /\ percent (decay p) /\ percent (accentLevel p) /\ percent (volume p).

(** "Never produce divergent automation values": every value the calls drive
    a parameter to lies between [lo] and [hi]. *)
Definition valuesWithin (lo hi : R) (cs : list ParamCall) : Prop :=
  forall c v, In c cs -> eventValue c = Some v -> lo <= v <= hi.

(** The engine behaves as if it had clamped the record it is given. *)
Definition clampsDefensively (step : Step) (nextStep : option Step) (time : R)
    (params : SynthParams) (stepDuration : R) : Prop :=
  stepCalls step nextStep time params stepDuration
  = stepCalls step nextStep time (clampParams params) stepDuration.

(** The oscillator instance of the engine, told apart by the time it was
    started at and by the count of oscillators created so far. *)
Definition voice (e : AudioEngine.t) : option R * nat :=
  (option_map startTime (osc e), oscCreated e).





(** "N consecutive advances at a fixed tempo increase nextEventTime by
    exactly N * (15/tempo)", read on the numbers the code computes with. *)
Definition advancesExactly (tempo : Double.t) (c : Double.Cursor) (N : nat)
    : Prop :=
  Double.toR (Double.nextNoteTime (Nat.iter N (Double.nextNote tempo) c))
  = Double.toR (Double.nextNoteTime c) + INR N * (15 / Double.toR tempo).

(** The automation events of a timeline at or after time [t]. *)
Definition fromTime (t : R) (evs : list ParamCall) : list ParamCall :=
  filter (fun c => negb (before t c)) evs.

Definition endsWith (evs : list ParamCall) (c : ParamCall) : Prop :=
  exists evs0, evs = evs0 ++ [c].

(** "The frequency at [trigger+stepDuration] equals the following step's
    target frequency, and the amplitude gate is never closed during
    [trigger, trigger+stepDuration]": the last point scheduled on the
    oscillator frequency is the glide to the next pitch, and the only event on
    the gain from the trigger on is the opening of the gate. *)
Definition glidesLegato (step next : Step) (time : R) (params : SynthParams)
    (stepDuration : R) (e : AudioEngine.t) : Prop :=
  let e' := scheduleStep step (Some next) time params stepDuration e in
  endsWith (timeline osc_frequency e')
    (linearRampToValueAtTime
       (440 * Rpower 2 ((IZR (36 + note next + octave next * 12) - 69) / 12))
       (time + stepDuration))
  /\ fromTime time (timeline ampGain_gain e')
     = [setValueAtTime (activeVol step params) time].

End Spec.

(** ** Sample data *)

Module Sample.

(** Settings within the ranges of the panel, at tempo 120. *)
Definition params120 : SynthParams :=
  {| cutoff := 50; resonance := 50; envMod := 50; decay := 50;
     accentLevel := 50; tempo := 120; waveform := sawtooth; volume := 80 |}.

(** The note of MIDI number 36, plain and sliding, and a rest. *)
Definition plain : Step :=
  {| active := true; note := 0; octave := 0; slide := false; accent := false |}.

Definition sliding : Step :=
  {| active := true; note := 0; octave := 0; slide := true; accent := false |}.

Definition rest : Step :=
  {| active := false; note := 0; octave := 0; slide := false; accent := false |}.

(** A cleared pattern, and a pattern with one note on its first step. *)
Definition allRests : list Step := repeat rest 16.
Definition oneNote : list Step := plain :: repeat rest 15.


(** A record the panel cannot produce: volume 200. *)
Definition paramsLoud : SynthParams :=
  {| cutoff := 50; resonance := 50; envMod := 50; decay := 50;
     accentLevel := 50; tempo := 120; waveform := sawtooth; volume := 200 |}.

End Sample.

(** ** The earlier variant of the sequencer (src/unnamed/part_000)

    Its [nextNote] and [scheduleNote] read [params] and [pattern], the state
    variables of the render whose closures [startSequencer] and [scheduler]
    belong to; the loop re-arms itself with that same [scheduler] closure, so
    both stay what they were when the loop started.  The captured values are
    explicit arguments here. *)

Module AppV1.
Import App.

Definition nextNote (params : SynthParams) (a : t) : t :=
  set_cursor (nextNoteTime a + 60 / tempo params / 4)
             (Z.rem (currentStepRef a + 1) STEPS_PER_BAR) a.

Definition scheduleNote (params : SynthParams) (pattern : list Step)
    (stepNumber : Z) (time : R) (a : t) : outcome t :=
  let a1 := snd (setTimeout (uiSetCurrentStep stepNumber)
                            ((time - ctxTime a) * 1000) a) in
  match at_index pattern stepNumber with
  | None => Throws
  | Some step =>
      let nextStepIdx := Z.rem (stepNumber + 1) STEPS_PER_BAR in
      let nextStep := at_index pattern nextStepIdx in
      let duration := 60 / tempo params / 4 in
      let a2 := set_services
                  (AudioEngine.scheduleStep step nextStep time params
                                            duration (audioEngine a1))
                  (midiService a1) a1 in
      if active step then
        let baseNote := (36 + note step + octave step * 12)%Z in
        let velocity := velocityOf step in
        let delayMs := Rmax 0 ((time - ctxTime a2) * 1000) in
        Done (snd (setTimeout (midiNoteOn baseNote velocity step duration)
                              delayMs a2))
      else Done a2
  end.

End AppV1.

(** ** Invariants of a running application *)

Module Inv.
Import App.

(** What the [while] loop of [scheduler] leaves unchanged: everything but
    the cursor, the engine's automation and new timers, none of which
    re-enters the scheduler. *)
Record frame (a a' : t) : Prop := {
  frame_react : (params a', pattern a', playState a', currentStep a')
                = (params a, pattern a, playState a, currentStep a);
  frame_loop : (timerID a', isPlayingRef a') = (timerID a, isPlayingRef a);
  frame_refs : (paramsRef a', patternRef a') = (paramsRef a, patternRef a);
  frame_midi : midiService a' = midiService a;
  frame_clock : wallClock a' = wallClock a;
  frame_ctx : AudioEngine.ctx (audioEngine a') = AudioEngine.ctx (audioEngine a);
  frame_next : (nextTimerId a <= nextTimerId a')%nat;
  frame_timers : exists new, timers a' = timers a ++ new
                             /\ Forall (fun tm => task tm <> runScheduler) new
}.

Definition cursorOk (a : t) : Prop := (0 <= currentStepRef a <= 15)%Z.

(** A pending scheduler tick exists only while playing, and [timerID] holds
    its handle. *)
Definition tickOk (a : t) : Prop :=
  (1 <= nextTimerId a)%nat
  /\ forall tm, In tm (timers a) -> task tm = runScheduler ->
                playState a = PLAYING /\ timerID a = Some (id tm) /\ id tm <> O.

Definition silentWhenStopped (a : t) : Prop :=
  playState a = STOPPED -> AudioEngine.osc (audioEngine a) = None.

Definition refsSynced (a : t) : Prop :=
  paramsRef a = params a /\ patternRef a = pattern a.

Definition ok (a : t) : Prop :=
  cursorOk a /\ tickOk a /\ silentWhenStopped a /\ refsSynced a.


End Inv.

(** ** constants.ts (its text follows Knob.tsx in src/components/Knob.tsx) *)

Module Constants.

Definition DEFAULT_TEMPO : R := 120.

Definition NOTES : list string :=
  ["C"; "C#"; "D"; "D#"; "E"; "F"; "F#"; "G"; "G#"; "A"; "A#"; "B"]%string.

(** [Array(STEPS_PER_BAR).fill(null).map(() => ({...}))] *)
Definition DEFAULT_PATTERN : list Step :=
  repeat {| active := false; note := 0; octave := 0; slide := false;
            accent := false |}
         (Z.to_nat STEPS_PER_BAR).

Definition INITIAL_PARAMS : SynthParams :=
  {| cutoff := 50; resonance := 60; envMod := 75; decay := 40;
     accentLevel := 80; tempo := 120; waveform := sawtooth; volume := 75 |}.

(** The template string [`${NOTES[noteIndex]}${octave}`]: a missing name
    prints as [undefined], the octave in decimal. *)
Definition MIDI_NOTE_NAMES (midiVal : Z) : string :=
  let octave := (midiVal / 12 - 1)%Z in
  let noteIndex := Z.rem midiVal 12 in
  ((match App.at_index NOTES noteIndex with
    | Some name => name
    | None => "undefined"
    end)
   ++ NilZero.string_of_int (Z.to_int octave))%string.

End Constants.

(** ** components/Knob.tsx *)

Module Knob.

(** The props the handlers read, and the state of one knob. *)
Record Props := {
  value : R;
  min : R;
  max : R
}.

Record t := {
  isDragging : bool;
  startY : R;
  startValue : R
}.

(** [Math.round]: the integer nearest to [x], halves upwards. *)
Definition Math_round (x : R) : R := IZR (Int_part (x + 1 / 2)).

Definition handleMouseDown (props : Props) (clientY : R) (k : t) : t :=
  {| isDragging := true; startY := clientY; startValue := value props |}.

Definition handleMouseUp (k : t) : t :=
  {| isDragging := false; startY := startY k; startValue := startValue k |}.

(** The value passed to [onChange], if any. *)
Definition handleMouseMove (props : Props) (clientY : R) (k : t) : option R :=
  if negb (isDragging k) then None
  else
    let deltaY := startY k - clientY in
    let range := max props - min props in
    let deltaValue := deltaY / 200 * range in
    let newValue := startValue k + deltaValue in
    let newValue := Rmax (min props) (Rmin (max props) newValue) in
    Some (Math_round newValue).

Definition percentage (props : Props) : R :=
  (value props - min props) / (max props - min props).

Definition rotation (props : Props) : R := - 135 + percentage props * 270.

End Knob.

(** ** App.tsx: the editing functions of the panel *)

Module Panel.
Import App.

(** [{ ...step, [field]: val }] for the fields of a [Step]. *)
Inductive StepUpdate :=
| setActive (val : bool)
| setNote (val : Z)
| setOctave (val : Z)
| setSlide (val : bool)
| setAccent (val : bool).

Definition withField (u : StepUpdate) (s : Step) : Step :=
  match u with
  | setActive v =>
      {| active := v; note := note s; octave := octave s; slide := slide s;
         accent := accent s |}
  | setNote v =>
      {| active := active s; note := v; octave := octave s; slide := slide s;
         accent := accent s |}
  | setOctave v =>
      {| active := active s; note := note s; octave := v; slide := slide s;
         accent := accent s |}
  | setSlide v =>
      {| active := active s; note := note s; octave := octave s; slide := v;
         accent := accent s |}
  | setAccent v =>
      {| active := active s; note := note s; octave := octave s; slide := slide s;
         accent := v |}
  end.

(** [{ ...p, [key]: val }] for the fields of a [SynthParams]. *)
Inductive ParamUpdate :=
| setCutoff (val : R)
| setResonance (val : R)
| setEnvMod (val : R)
| setDecay (val : R)
| setAccentLevel (val : R)
| setTempo (val : R)
| setWaveform (val : Waveform)
| setVolume (val : R).

Definition withParam (u : ParamUpdate) (p : SynthParams) : SynthParams :=
  match u with
  | setCutoff v =>
      {| cutoff := v; resonance := resonance p; envMod := envMod p;
         decay := decay p; accentLevel := accentLevel p; tempo := tempo p;
         waveform := waveform p; volume := volume p |}
  | setResonance v =>
      {| cutoff := cutoff p; resonance := v; envMod := envMod p;
         decay := decay p; accentLevel := accentLevel p; tempo := tempo p;
         waveform := waveform p; volume := volume p |}
  | setEnvMod v =>
      {| cutoff := cutoff p; resonance := resonance p; envMod := v;
         decay := decay p; accentLevel := accentLevel p; tempo := tempo p;
         waveform := waveform p; volume := volume p |}
  | setDecay v =>
      {| cutoff := cutoff p; resonance := resonance p; envMod := envMod p;
         decay := v; accentLevel := accentLevel p; tempo := tempo p;
         waveform := waveform p; volume := volume p |}
  | setAccentLevel v =>
      {| cutoff := cutoff p; resonance := resonance p; envMod := envMod p;
         decay := decay p; accentLevel := v; tempo := tempo p;
         waveform := waveform p; volume := volume p |}
  | setTempo v =>
      {| cutoff := cutoff p; resonance := resonance p; envMod := envMod p;
         decay := decay p; accentLevel := accentLevel p; tempo := v;
         waveform := waveform p; volume := volume p |}
  | setWaveform v =>
      {| cutoff := cutoff p; resonance := resonance p; envMod := envMod p;
         decay := decay p; accentLevel := accentLevel p; tempo := tempo p;
         waveform := v; volume := volume p |}
  | setVolume v =>
      {| cutoff := cutoff p; resonance := resonance p; envMod := envMod p;
         decay := decay p; accentLevel := accentLevel p; tempo := tempo p;
         waveform := waveform p; volume := v |}
  end.

Definition updateParam (u : ParamUpdate) (a : t) : t := setParams (withParam u) a.

(** [newPattern[index] = ...] on a copy of the array. *)
Definition replaceAt {A : Type} (i : nat) (x : A) (l : list A) : list A :=
  firstn i l ++ x :: skipn (S i) l.

(** [updateStep] for the index of an existing step.  For another index the
    array would grow and hold [undefined] entries, which a list of steps does
    not have: there the model gives no result. *)
Definition updateStep (index : Z) (u : StepUpdate) (a : t) : option t :=
  match at_index (pattern a) index with
  | Some s =>
      Some (setPattern (replaceAt (Z.to_nat index) (withField u s) (pattern a)) a)
  | None => None
  end.

Definition clearPattern (a : t) : t :=
  setPattern (map (withField (setActive false)) Constants.DEFAULT_PATTERN) a.

(** The mount effect: every step reset to note 0, octave 0, inactive, then
    [initialPattern[i].active = true] for the even indices; a missing step
    makes that assignment throw. *)
Fixpoint activate (indices : list Z) (p : list Step) : outcome (list Step) :=
  match indices with
  | [] => Done p
  | i :: rest =>
      match at_index p i with
      | Some s => activate rest (replaceAt (Z.to_nat i) (withField (setActive true) s) p)
      | None => Throws
      end
  end.

Definition initialPattern (pattern : list Step) : outcome (list Step) :=
  activate [0; 2; 4; 6; 8; 10; 12; 14]%Z
    (map (fun s => withField (setActive false)
                     (withField (setOctave 0) (withField (setNote 0) s)))
         pattern).

(** The first render followed by the mount effect. *)
Definition mountApp (now : R) : outcome t :=
  let a := mount Constants.INITIAL_PARAMS Constants.DEFAULT_PATTERN now in
  p <- initialPattern (pattern a) ;;
  Done (setPattern p a).

(** The buttons of one step column, as the update each one asks for. *)
Inductive Button :=
| onOff
| noteSelect (nIdx : nat)
| octaveUp
| octaveDown
| slideButton
| accentButton.

Definition buttonUpdate (b : Button) (s : Step) : option StepUpdate :=
  match b with
  | onOff => Some (setActive (negb (active s)))
  | noteSelect nIdx =>
      if (nIdx <? List.length Constants.NOTES)%nat
      then Some (setNote (Z.of_nat nIdx)) else None
  | octaveUp => Some (setOctave (if (octave s =? 1)%Z then 0 else 1)%Z)
  | octaveDown => Some (setOctave (if (octave s =? -1)%Z then 0 else -1)%Z)
  | slideButton => Some (setSlide (negb (slide s)))
  | accentButton => Some (setAccent (negb (accent s)))
  end.

Definition click (index : Z) (b : Button) (a : t) : option t :=
  match at_index (pattern a) index with
  | Some s =>
      match buttonUpdate b s with
      | Some u => updateStep index u a
      | None => None
      end
  | None => None
  end.

(** [handleKeyDown], on the tag of the event target and on
    [e.key.toLowerCase()]. *)
Definition keyStep : R := 5.

Definition handleKeyDown (fuel : nat) (tagName key : string) (a : t) : outcome t :=
  if (String.eqb tagName "INPUT" || String.eqb tagName "SELECT")%bool then Done a
  else if String.eqb key "q" then
    Done (setParams (fun p => withParam (setCutoff (Rmin 100 (cutoff p + keyStep))) p) a)
  else if String.eqb key "a" then
    Done (setParams (fun p => withParam (setCutoff (Rmax 0 (cutoff p - keyStep))) p) a)
  else if String.eqb key "w" then
    Done (setParams (fun p => withParam (setResonance (Rmin 100 (resonance p + keyStep))) p) a)
  else if String.eqb key "s" then
    Done (setParams (fun p => withParam (setResonance (Rmax 0 (resonance p - keyStep))) p) a)
  else if String.eqb key "e" then
    Done (setParams (fun p => withParam (setEnvMod (Rmin 100 (envMod p + keyStep))) p) a)
  else if String.eqb key "d" then
    Done (setParams (fun p => withParam (setEnvMod (Rmax 0 (envMod p - keyStep))) p) a)
  else if String.eqb key "r" then
    Done (setParams (fun p => withParam (setDecay (Rmin 100 (decay p + keyStep))) p) a)
  else if String.eqb key "f" then
    Done (setParams (fun p => withParam (setDecay (Rmax 0 (decay p - keyStep))) p) a)
  else if String.eqb key "i" then
    Done (setParams (withParam (setWaveform sawtooth)) a)
  else if String.eqb key "o" then
    Done (setParams (withParam (setWaveform square)) a)
  else if String.eqb key "p" then togglePlay fuel a
  else if String.eqb key " " then togglePlay fuel a
  else Done a.

(** [logMidi]: the new line, stamped with the time of day, goes in front and
    the list is cut to 20 lines. *)
Definition logMidi (timeOfDay msg : string) (prev : list string) : list string :=
  firstn 20 (("[" ++ timeOfDay ++ "] " ++ msg)%string :: prev).

(** What a range input can report: a value between its [min] and [max]. *)
Definition sliderRange (u : ParamUpdate) : Prop :=
  match u with
  | setCutoff v | setResonance v | setEnvMod v | setDecay v
  | setAccentLevel v | setVolume v => 0 <= v <= 100
  | setTempo v => 60 <= v <= 200
  | setWaveform _ => True
  end.

(** One thing that happens to the mounted panel. *)
Inductive step (fuel : nat) : t -> t -> Prop :=
| step_tick a dt :
    0 <= dt -> step fuel a (advance dt a)
| step_fire a tm a' :
    In tm (timers a) ->
    due tm <= wallClock a ->
    runTask fuel (task tm) (clearTimeout (id tm) a) = Done a' ->
    step fuel a a'
| step_midi a access :
    step fuel a (set_services (audioEngine a)
                   (MidiService.initialize access (midiService a)) a)
| step_output a port :
    step fuel a (set_services (audioEngine a)
                   (MidiService.setOutput port (midiService a)) a)
| step_key a tagName key a' :
    handleKeyDown fuel tagName key a = Done a' -> step fuel a a'
| step_slider a u :
    sliderRange u -> step fuel a (updateParam u a)
| step_click a index b a' :
    click index b a = Some a' -> step fuel a a'
| step_clear a :
    step fuel a (clearPattern a)
| step_play a a' :
    togglePlay fuel a = Done a' -> step fuel a a'.

Inductive reachable (fuel : nat) : t -> Prop :=
| reach_mount now a : mountApp now = Done a -> reachable fuel a
| reach_step a a' : reachable fuel a -> step fuel a a' -> reachable fuel a'.

(** The ranges the panel keeps. *)
Definition stepInRange (s : Step) : Prop :=
  (0 <= note s <= 11)%Z /\ (-1 <= octave s <= 1)%Z.

Definition paramsInRange (p : SynthParams) : Prop :=
  Spec.percentages p /\ 60 <= tempo p <= 200.

Definition good (a : t) : Prop :=
  Inv.ok a
  /\ List.length (pattern a) = 16%nat
  /\ Forall stepInRange (pattern a)
  /\ paramsInRange (params a).

End Panel.


(** ** Vocabulary for the properties of the services and the transport *)

Module Wire.
Import App.

(** A Note On or Note Off message with data bytes in range. *)
Definition wellFormed (bytes : list Z) : Prop :=
  exists n v, (0 <= n <= 127)%Z /\ (0 <= v <= 127)%Z
              /\ (bytes = [144; n; v]%Z \/ bytes = [128; n; 0]%Z).

(** What the senders do to the service: they append well-formed messages,
    none without a port, and leave the selection alone. *)
Definition appended (m m' : MidiService.t) : Prop :=
  exists new, MidiService.sent m' = MidiService.sent m ++ new
              /\ Forall (fun pm => wellFormed (snd pm)) new
              /\ (MidiService.output m = None -> new = [])
              /\ MidiService.midiAccess m' = MidiService.midiAccess m
              /\ MidiService.selectedOutputId m' = MidiService.selectedOutputId m.

(** No port can have been opened: access was never granted, or only the
    placeholder entry of the selector (the empty identifier) was chosen. *)
Definition neverGranted (evs : list Event) : Prop :=
  Forall (fun ev => match ev with MidiReady (Some _) => False | _ => True end) evs.

Definition neverSelected (evs : list Event) : Prop :=
  Forall (fun ev => match ev with
                    | SelectOutput port => port = EmptyString
                    | _ => True
                    end) evs.

Definition isTick (tm : Timer) : bool :=
  match task tm with runScheduler => true | _ => false end.

Definition isNoteOn (tm : Timer) : bool :=
  match task tm with midiNoteOn _ _ _ _ => true | _ => false end.

(** Timer handles are handed out in increasing order and never twice. *)
Definition handlesOk (a : t) : Prop :=
  NoDup (map id (timers a))
  /\ forall tm, In tm (timers a) -> (id tm < nextTimerId a)%nat.

(** The state [b] has the timers of [a] and new ones with fresh handles. *)
Definition extends (a b : t) : Prop :=
  (nextTimerId a <= nextTimerId b)%nat
  /\ exists new, timers b = timers a ++ new
                 /\ NoDup (map id new)
                 /\ Forall (fun tm => (nextTimerId a <= id tm < nextTimerId b)%nat) new.

End Wire.


(** * Properties *)

Import WebAudio.

(** ** Real-number helpers *)

Lemma Rlt_dec_true (A : Type) (a b : R) (x y : A) :
  a < b -> (if Rlt_dec a b then x else y) = x.
Proof. intros H. destruct (Rlt_dec a b); [reflexivity | contradiction]. Qed.

Lemma Rlt_dec_false (A : Type) (a b : R) (x y : A) :
  b <= a -> (if Rlt_dec a b then x else y) = y.
Proof. intros H. destruct (Rlt_dec a b); [lra | reflexivity]. Qed.

Lemma before_true t c : eventTime c < t -> before t c = true.
Proof. intros H. unfold before. now rewrite Rlt_dec_true. Qed.

Lemma before_false t c : t <= eventTime c -> before t c = false.
Proof. intros H. unfold before. now rewrite Rlt_dec_false. Qed.

Lemma Rmin_bounds a b lo hi :
  lo <= a -> lo <= b -> a <= hi -> lo <= Rmin a b <= hi.
Proof. intros. unfold Rmin. destruct (Rle_dec a b); lra. Qed.

(** ** The automation calls of one trigger *)

Section StepCalls.

Import AudioEngine.

Variables (step : Step) (nextStep : option Step) (time : R)
          (params : SynthParams) (stepDuration : R).

Let cs := activeStepCalls step nextStep time params stepDuration.

Ltac by_cases :=
  unfold cs, activeStepCalls, callsOn, slideRamp, gateClose;
  destruct nextStep as [n|]; [destruct (slide step && active n)|];
  destruct (negb (slide step)); reflexivity.

Lemma callsOn_osc_frequency :
  callsOn osc_frequency cs
  = setValueAtTime (frequencyOf (baseMidi step)) time
    :: slideRamp step nextStep time stepDuration.
Proof. by_cases. Qed.

Lemma callsOn_filter_Q :
  callsOn filter_Q cs = [setValueAtTime (qValue step params) time].
Proof. by_cases. Qed.

Lemma callsOn_ampGain_gain :
  callsOn ampGain_gain cs
  = cancelScheduledValues time
    :: setValueAtTime (activeVol step params) time
    :: gateClose step time params stepDuration.
Proof. by_cases. Qed.

Lemma callsOn_filter_frequency :
  callsOn filter_frequency cs
  = [cancelScheduledValues time;
     setValueAtTime (baseCutoff params) time;
     linearRampToValueAtTime (peakFilter step params) (time + 1 / 100);
     exponentialRampToValueAtTime (baseCutoff params)
                                  (time + decayTime step params)].
Proof. by_cases. Qed.

End StepCalls.

(** ** From calls to timelines *)

Section Timelines.

Import AudioEngine.

Lemma paramOf_paramCall p pc e :
  paramOf p (paramCall pc e)
  = option_map (calls (callsOn p [pc])) (paramOf p e).
Proof.
  destruct pc as [q c]. unfold paramCall, callsOn. cbn [fst snd filter].
  destruct q, p; cbn; try reflexivity;
    destruct (osc e) eqn:E; cbn; rewrite ?E; reflexivity.
Qed.

Lemma callsOn_cons p pc l :
  callsOn p (pc :: l) = callsOn p [pc] ++ callsOn p l.
Proof.
  unfold callsOn. cbn [filter]. destruct (ParamId_eqb (fst pc) p); reflexivity.
Qed.

Lemma calls_app cs1 cs2 q : calls (cs1 ++ cs2) q = calls cs2 (calls cs1 q).
Proof. unfold calls. apply fold_left_app. Qed.

Lemma paramOf_paramCalls p l :
  forall e, paramOf p (paramCalls l e)
            = option_map (calls (callsOn p l)) (paramOf p e).
Proof.
  induction l as [|pc l IH]; intros e.
  - cbn. destruct (paramOf p e); reflexivity.
  - change (paramCalls (pc :: l) e) with (paramCalls l (paramCall pc e)).
    rewrite IH, paramOf_paramCall, (callsOn_cons p pc l).
    destruct (paramOf p e); cbn [option_map]; [|reflexivity].
    now rewrite calls_app.
Qed.

(** What one call sequence leaves on a timeline. *)
Lemma events_cancel_then t cs evs v :
  (forall c, In c cs -> eventValue c <> None) ->
  events (calls (cancelScheduledValues t :: cs) {| value := v; events := evs |})
  = filter (before t) evs ++ cs.
Proof.
  intros H. cbn [calls fold_left call value events].
  generalize (filter (before t) evs). clear evs.
  induction cs as [|c cs IH]; intros evs.
  - cbn. now rewrite app_nil_r.
  - cbn [fold_left].
    assert (Hc : call c {| value := v; events := evs |}
                 = {| value := v; events := evs ++ [c] |}).
    { destruct c; try reflexivity. exfalso. apply (H _ (or_introl eq_refl)).
      reflexivity. }
    rewrite Hc. fold (calls cs {| value := v; events := evs ++ [c] |}).
    unfold calls in *. rewrite IH by (intros; apply H; now right).
    now rewrite <- app_assoc.
Qed.

Lemma events_schedule cs q :
  (forall c, In c cs -> eventValue c <> None) ->
  events (calls cs q) = events q ++ cs.
Proof.
  revert q. induction cs as [|c cs IH]; intros q H.
  - cbn. now rewrite app_nil_r.
  - cbn [calls fold_left]. fold (calls cs (call c q)).
    rewrite IH by (intros; apply H; now right).
    assert (Hc : events (call c q) = events q ++ [c]).
    { destruct c; try reflexivity. exfalso. apply (H _ (or_introl eq_refl)).
      reflexivity. }
    rewrite Hc. now rewrite <- app_assoc.
Qed.

End Timelines.

(** ** One trigger on the engine *)

Section ScheduleStep.

Import AudioEngine.

Variables (step : Step) (nextStep : option Step) (time : R)
          (params : SynthParams) (stepDuration : R) (e : t).

Lemma paramOf_setupOscillator p :
  paramOf p (setupOscillator time params e)
  = match p with
    | osc_frequency =>
        Some (match osc e with Some o => frequency o | None => newParam 440 end)
    | _ => paramOf p e
    end.
Proof.
  unfold setupOscillator. destruct (osc e) eqn:E; cbn; rewrite ?E;
    destruct p; reflexivity.
Qed.

Lemma timeline_setupOscillator p :
  timeline p (setupOscillator time params e) = timeline p e.
Proof.
  unfold timeline. rewrite paramOf_setupOscillator.
  destruct p; try reflexivity. cbn. destruct (osc e); reflexivity.
Qed.

Lemma slideRamp_scheduled c :
  In c (slideRamp step nextStep time stepDuration) -> eventValue c <> None.
Proof.
  unfold slideRamp. destruct nextStep as [n|]; [|intros []].
  destruct (slide step && active n); [|intros []].
  intros [<-|[]]. discriminate.
Qed.

Lemma gateClose_scheduled c :
  In c (gateClose step time params stepDuration) -> eventValue c <> None.
Proof.
  unfold gateClose. destruct (negb (slide step)); [|intros []].
  intros [<-|[<-|[]]]; discriminate.
Qed.

Hypothesis Hactive : active step = true.

Lemma scheduleStep_active :
  scheduleStep step nextStep time params stepDuration e
  = paramCalls (activeStepCalls step nextStep time params stepDuration)
               (setupOscillator time params e).
Proof. unfold scheduleStep. now rewrite Hactive. Qed.

Lemma timeline_active p :
  timeline p (scheduleStep step nextStep time params stepDuration e)
  = match paramOf p (setupOscillator time params e) with
    | Some q =>
        events (calls (callsOn p (activeStepCalls step nextStep time params
                                                  stepDuration)) q)
    | None => []
    end.
Proof.
  rewrite scheduleStep_active. unfold timeline. rewrite paramOf_paramCalls.
  destruct (paramOf p (setupOscillator time params e)); reflexivity.
Qed.

Lemma timeline_osc_frequency :
  timeline osc_frequency (scheduleStep step nextStep time params stepDuration e)
  = timeline osc_frequency e
    ++ setValueAtTime (frequencyOf (baseMidi step)) time
       :: slideRamp step nextStep time stepDuration.
Proof.
  rewrite timeline_active, paramOf_setupOscillator, callsOn_osc_frequency.
  rewrite events_schedule.
  - unfold timeline. cbn. destruct (osc e); reflexivity.
  - intros c [<-|H]; [discriminate | now apply slideRamp_scheduled].
Qed.

Lemma timeline_filter_Q :
  timeline filter_Q (scheduleStep step nextStep time params stepDuration e)
  = timeline filter_Q e ++ [setValueAtTime (qValue step params) time].
Proof.
  rewrite timeline_active, paramOf_setupOscillator, callsOn_filter_Q.
  cbn [paramOf]. rewrite events_schedule; [reflexivity|].
  intros c [<-|[]]. discriminate.
Qed.

Lemma timeline_ampGain_gain :
  timeline ampGain_gain (scheduleStep step nextStep time params stepDuration e)
  = filter (before time) (timeline ampGain_gain e)
    ++ setValueAtTime (activeVol step params) time
       :: gateClose step time params stepDuration.
Proof.
  rewrite timeline_active, paramOf_setupOscillator, callsOn_ampGain_gain.
  unfold timeline. cbn [paramOf]. destruct (ampGain e) as [v evs].
  rewrite events_cancel_then.
  - reflexivity.
  - intros c [<-|H]; [discriminate | now apply gateClose_scheduled].
Qed.

Lemma timeline_filter_frequency :
  timeline filter_frequency (scheduleStep step nextStep time params stepDuration e)
  = filter (before time) (timeline filter_frequency e)
    ++ [setValueAtTime (baseCutoff params) time;
        linearRampToValueAtTime (peakFilter step params) (time + 1 / 100);
        exponentialRampToValueAtTime (baseCutoff params)
                                     (time + decayTime step params)].
Proof.
  rewrite timeline_active, paramOf_setupOscillator, callsOn_filter_frequency.
  unfold timeline. cbn [paramOf]. destruct (filterFrequency e) as [v evs].
  rewrite events_cancel_then.
  - reflexivity.
  - intros c [<-|[<-|[<-|[]]]]; discriminate.
Qed.

End ScheduleStep.

Lemma ctx_paramCall pc e :
  AudioEngine.ctx (AudioEngine.paramCall pc e) = AudioEngine.ctx e.
Proof.
  destruct pc as [[] c]; unfold AudioEngine.paramCall; cbn [fst snd];
    try reflexivity.
  destruct (AudioEngine.osc e); reflexivity.
Qed.

Lemma ctx_paramCalls l :
  forall e, AudioEngine.ctx (AudioEngine.paramCalls l e) = AudioEngine.ctx e.
Proof.
  induction l as [|pc l IH]; intros e; [reflexivity|].
  change (AudioEngine.paramCalls (pc :: l) e)
    with (AudioEngine.paramCalls l (AudioEngine.paramCall pc e)).
  now rewrite IH, ctx_paramCall.
Qed.

Lemma ctx_setupOscillator time params e :
  AudioEngine.ctx (AudioEngine.setupOscillator time params e) = AudioEngine.ctx e.
Proof.
  unfold AudioEngine.setupOscillator.
  destruct (AudioEngine.osc e) eqn:E; cbn; rewrite ?E; reflexivity.
Qed.

(** A trigger does not touch the rendering clock. *)
Lemma ctx_scheduleStep step nextStep time params stepDuration e :
  AudioEngine.ctx (AudioEngine.scheduleStep step nextStep time params
                     stepDuration e)
  = AudioEngine.ctx e.
Proof.
  unfold AudioEngine.scheduleStep. destruct (negb (active step)).
  - apply ctx_paramCall.
  - now rewrite ctx_paramCalls, ctx_setupOscillator.
Qed.

Lemma scheduleStep_inactive step nextStep time params stepDuration e :
  active step = false ->
  AudioEngine.scheduleStep step nextStep time params stepDuration e
  = AudioEngine.paramCall
      (AudioEngine.ampGain_gain, setTargetAtTime 0 time (1 / 100)) e.
Proof. intros H. unfold AudioEngine.scheduleStep. now rewrite H. Qed.

(** ** Pitch *)

Lemma Rpower_2_quarters :
  Rpower 2 (- 11 / 4) ^ 4 = / 2048.
Proof.
  rewrite <- Rpower_pow by apply exp_pos.
  rewrite Rpower_mult.
  replace (- 11 / 4 * INR 4) with (- INR 11) by (simpl; lra).
  rewrite Rpower_Ropp, Rpower_pow by lra. f_equal. lra.
Qed.

Lemma frequencyOf_36 :
  65405 / 1000 < AudioEngine.frequencyOf 36 < 65415 / 1000.
Proof.
  unfold AudioEngine.frequencyOf.
  replace ((36 - 69) / 12) with (- 11 / 4) by lra.
  set (x := Rpower 2 (- 11 / 4)).
  assert (Hx : 0 < x) by apply exp_pos.
  assert (H4 : (440 * x) ^ 4 = 18301250).
  { rewrite Rpow_mult_distr. unfold x. rewrite Rpower_2_quarters. lra. }
  split.
  - apply Rnot_le_lt. intros H.
    assert (H' : (440 * x) ^ 4 <= (65405 / 1000) ^ 4)
      by (apply pow_incr; lra).
    rewrite H4 in H'. lra.
  - apply Rnot_le_lt. intros H.
    assert (H' : (65415 / 1000) ^ 4 <= (440 * x) ^ 4)
      by (apply pow_incr; lra).
    rewrite H4 in H'. lra.
Qed.

(** C8. For an active step the first automation call on the oscillator
    frequency sets, at the trigger time, the pitch
    [440 * 2^((baseNote - 69) / 12)] with
    [baseNote = 36 + note + octave * 12], and that point is on the timeline
    afterwards; note 0 in octave 0 is MIDI note 36, between 65.405 and
    65.415 Hz; at tempo 120 the step lasts 0.125 s. *)
Theorem C8_pitch_at_trigger step nextStep time params stepDuration e :
  active step = true ->
  let freq := 440 * Rpower 2 ((IZR (36 + note step + octave step * 12) - 69) / 12) in
  hd_error (AudioEngine.callsOn AudioEngine.osc_frequency
              (AudioEngine.stepCalls step nextStep time params stepDuration))
  = Some (setValueAtTime freq time)
  /\ In (setValueAtTime freq time)
        (AudioEngine.timeline AudioEngine.osc_frequency
           (AudioEngine.scheduleStep step nextStep time params stepDuration e))
  /\ (note step = 0%Z -> octave step = 0%Z ->
      AudioEngine.baseMidi step = 36%Z
      /\ 65405 / 1000 < freq < 65415 / 1000)
  /\ (tempo params = 120 -> App.secondsPerStep params = 125 / 1000).
Proof.
  intros Hact freq. repeat split.
  - unfold AudioEngine.stepCalls. rewrite Hact. cbn [negb].
    now rewrite callsOn_osc_frequency.
  - rewrite timeline_osc_frequency by assumption.
    apply in_or_app. right. left. reflexivity.
  - unfold AudioEngine.baseMidi. lia.
  - subst freq. rewrite H, H0. apply frequencyOf_36.
  - subst freq. rewrite H, H0. apply frequencyOf_36.
  - intros Ht. unfold App.secondsPerStep. rewrite Ht. lra.
Qed.

(** The plain note of MIDI number 36 at tempo 120. *)
Lemma C8_witness :
  active Sample.plain = true
  /\ 65405 / 1000
     < 440 * Rpower 2 ((IZR (36 + note Sample.plain + octave Sample.plain * 12) - 69) / 12)
     < 65415 / 1000.
Proof.
  split; [reflexivity|].
  apply (C8_pitch_at_trigger Sample.plain None 0 Sample.params120 (1 / 8)
           (AudioEngine.constructor 0) eq_refl); reflexivity.
Defined.

(** ** Cancellation before scheduling *)

Lemma cancelsFirst_osc_frequency step nextStep time params d t :
  active step = true ->
  ~ Spec.cancelsFirst AudioEngine.osc_frequency t
      (AudioEngine.stepCalls step nextStep time params d).
Proof.
  intros Hact. unfold Spec.cancelsFirst, AudioEngine.stepCalls.
  rewrite Hact. cbn [negb]. rewrite callsOn_osc_frequency. discriminate.
Qed.

Lemma cancelsFirst_filter_Q step nextStep time params d t :
  active step = true ->
  ~ Spec.cancelsFirst AudioEngine.filter_Q t
      (AudioEngine.stepCalls step nextStep time params d).
Proof.
  intros Hact. unfold Spec.cancelsFirst, AudioEngine.stepCalls.
  rewrite Hact. cbn [negb]. rewrite callsOn_filter_Q. discriminate.
Qed.

(** C2, as stated, fails.  Two consecutive triggers at tempo 120, the first
    one sliding: the second trigger starts on the oscillator frequency and on
    the filter Q with [setValueAtTime], not with a cancellation, and the glide
    the first trigger scheduled to end at the second trigger time is still on
    the frequency timeline afterwards. *)
Lemma C2_counterexample :
  let t1 := 1 / 20 in
  let t2 := 1 / 20 + 1 / 8 in
  let cs := AudioEngine.stepCalls Sample.plain (Some Sample.rest) t2
              Sample.params120 (1 / 8) in
  let e1 := AudioEngine.scheduleStep Sample.sliding (Some Sample.plain) t1
              Sample.params120 (1 / 8) (AudioEngine.constructor 0) in
  let e2 := AudioEngine.scheduleStep Sample.plain (Some Sample.rest) t2
              Sample.params120 (1 / 8) e1 in
  let glide := linearRampToValueAtTime (AudioEngine.frequencyOf 36) t2 in
  active Sample.plain = true
  /\ ~ Spec.cancelsFirst AudioEngine.osc_frequency t2 cs
  /\ ~ Spec.cancelsFirst AudioEngine.filter_Q t2 cs
  /\ In glide (AudioEngine.timeline AudioEngine.osc_frequency e1)
  /\ t2 <= eventTime glide
  /\ In glide (AudioEngine.timeline AudioEngine.osc_frequency e2).
Proof.
  cbv zeta. split; [reflexivity|].
  split; [now apply cancelsFirst_osc_frequency|].
  split; [now apply cancelsFirst_filter_Q|].
  assert (H1 : In (linearRampToValueAtTime (AudioEngine.frequencyOf 36)
                     (1 / 20 + 1 / 8))
                  (AudioEngine.timeline AudioEngine.osc_frequency
                     (AudioEngine.scheduleStep Sample.sliding (Some Sample.plain)
                        (1 / 20) Sample.params120 (1 / 8)
                        (AudioEngine.constructor 0)))).
  { rewrite timeline_osc_frequency by reflexivity.
    apply in_or_app. right. right. left. reflexivity. }
  split; [exact H1|]. split; [cbn; lra|].
  rewrite timeline_osc_frequency by reflexivity.
  apply in_or_app. left. exact H1.
Qed.

(** C2, amended.  For every trigger of an active step the first call on the
    amplitude gain and on the filter frequency is
    [cancelScheduledValues(time)], so their timelines keep only the earlier
    events in front of the new points; the oscillator frequency and the filter
    Q are scheduled on without any cancellation and keep everything that was
    scheduled on them. *)
Theorem C2_cancel_gain_and_filter step nextStep time params stepDuration e :
  active step = true ->
  let cs := AudioEngine.stepCalls step nextStep time params stepDuration in
  let e' := AudioEngine.scheduleStep step nextStep time params stepDuration e in
  Spec.cancelsFirst AudioEngine.ampGain_gain time cs
  /\ Spec.cancelsFirst AudioEngine.filter_frequency time cs
  /\ AudioEngine.timeline AudioEngine.ampGain_gain e'
     = filter (before time) (AudioEngine.timeline AudioEngine.ampGain_gain e)
       ++ setValueAtTime (AudioEngine.activeVol step params) time
          :: AudioEngine.gateClose step time params stepDuration
  /\ AudioEngine.timeline AudioEngine.filter_frequency e'
     = filter (before time) (AudioEngine.timeline AudioEngine.filter_frequency e)
       ++ [setValueAtTime (AudioEngine.baseCutoff params) time;
           linearRampToValueAtTime (AudioEngine.peakFilter step params)
                                   (time + 1 / 100);
           exponentialRampToValueAtTime (AudioEngine.baseCutoff params)
             (time + AudioEngine.decayTime step params)]
  /\ AudioEngine.timeline AudioEngine.osc_frequency e'
     = AudioEngine.timeline AudioEngine.osc_frequency e
       ++ setValueAtTime (AudioEngine.frequencyOf (AudioEngine.baseMidi step)) time
          :: AudioEngine.slideRamp step nextStep time stepDuration
  /\ AudioEngine.timeline AudioEngine.filter_Q e'
     = AudioEngine.timeline AudioEngine.filter_Q e
       ++ [setValueAtTime (AudioEngine.qValue step params) time].
Proof.
  intros Hact cs e'. subst cs e'.
  unfold Spec.cancelsFirst, AudioEngine.stepCalls. rewrite Hact. cbn [negb].
  rewrite callsOn_ampGain_gain, callsOn_filter_frequency.
  repeat split.
  - now apply timeline_ampGain_gain.
  - now apply timeline_filter_frequency.
  - now apply timeline_osc_frequency.
  - now apply timeline_filter_Q.
Qed.

(** A plain note triggered at time 0. *)
Lemma C2_witness :
  active Sample.plain = true
  /\ Spec.cancelsFirst AudioEngine.ampGain_gain 0
       (AudioEngine.stepCalls Sample.plain None 0 Sample.params120 (1 / 8)).
Proof.
  split; [reflexivity|].
  apply (C2_cancel_gain_and_filter Sample.plain None 0 Sample.params120 (1 / 8)
           (AudioEngine.constructor 0) eq_refl).
Defined.

(** ** Slide and gate *)

Lemma fromTime_before t evs : Spec.fromTime t (filter (before t) evs) = [].
Proof.
  unfold Spec.fromTime. induction evs as [|c evs IH]; [reflexivity|].
  cbn [filter]. destruct (before t c) eqn:E; [|exact IH].
  cbn [filter]. rewrite E. exact IH.
Qed.

Lemma fromTime_app t l1 l2 :
  Spec.fromTime t (l1 ++ l2) = Spec.fromTime t l1 ++ Spec.fromTime t l2.
Proof. unfold Spec.fromTime. apply filter_app. Qed.

Lemma fromTime_keep t c evs :
  t <= eventTime c -> Spec.fromTime t (c :: evs) = c :: Spec.fromTime t evs.
Proof.
  intros H. unfold Spec.fromTime. cbn [filter].
  now rewrite before_false.
Qed.

Lemma gateClose_slide step time params d :
  slide step = true -> AudioEngine.gateClose step time params d = [].
Proof. intros H. unfold AudioEngine.gateClose. now rewrite H. Qed.

(** The gain timeline of a sliding active step, from the trigger on. *)
Lemma gate_stays_open step nextStep time params d e :
  active step = true -> slide step = true ->
  Spec.fromTime time
    (AudioEngine.timeline AudioEngine.ampGain_gain
       (AudioEngine.scheduleStep step nextStep time params d e))
  = [setValueAtTime (AudioEngine.activeVol step params) time].
Proof.
  intros Hact Hslide.
  rewrite timeline_ampGain_gain, gateClose_slide by assumption.
  rewrite fromTime_app, fromTime_before, fromTime_keep by (cbn; lra).
  reflexivity.
Qed.

(** C7.  For every step triggered as a note (an active step) with [slide]
    set whose following step is active, the last automation point on the
    oscillator frequency is a linear ramp that reaches the following step's
    frequency [440 * 2^((36 + note + octave * 12 - 69) / 12)] at
    [trigger + stepDuration], and the only event on the amplitude gain from
    the trigger on is the opening of the gate: no gate close is scheduled.
    An inactive step is a rest: the engine returns before it looks at the
    slide flag. *)
Theorem C7_slide_to_active_step step next time params stepDuration e :
  active step = true -> slide step = true -> active next = true ->
  Spec.glidesLegato step next time params stepDuration e.
Proof.
  intros Hact Hslide Hnext. split.
  - exists (AudioEngine.timeline AudioEngine.osc_frequency e
            ++ [setValueAtTime (AudioEngine.frequencyOf (AudioEngine.baseMidi step))
                               time]).
    rewrite timeline_osc_frequency by assumption.
    unfold AudioEngine.slideRamp. rewrite Hslide, Hnext. cbn [andb].
    rewrite <- app_assoc. reflexivity.
  - now apply gate_stays_open.
Qed.

(** A sliding note followed by a plain one. *)
Lemma C7_witness :
  active Sample.sliding = true /\ slide Sample.sliding = true
  /\ active Sample.plain = true
  /\ Spec.glidesLegato Sample.sliding Sample.plain 0 Sample.params120 (1 / 8)
       (AudioEngine.constructor 0).
Proof.
  repeat split; try reflexivity;
    apply (C7_slide_to_active_step Sample.sliding Sample.plain 0 Sample.params120
             (1 / 8) (AudioEngine.constructor 0) eq_refl eq_refl eq_refl).
Defined.

(** C10. For every active step with [slide] set whose following step is not
    active (or absent), the trigger schedules one point on the oscillator
    frequency, the pitch at trigger time, and no ramp; it schedules no gate
    close either, so from the trigger on the gain timeline holds only the
    opening of the gate at the step's volume; the trigger of the following,
    inactive step one step later adds the approach of the gain to zero. *)
Theorem C10_slide_to_inactive_step step nextStep time params stepDuration e :
  active step = true -> slide step = true ->
  match nextStep with Some n => active n = false | None => True end ->
  0 <= stepDuration ->
  let e' := AudioEngine.scheduleStep step nextStep time params stepDuration e in
  AudioEngine.callsOn AudioEngine.osc_frequency
    (AudioEngine.stepCalls step nextStep time params stepDuration)
  = [setValueAtTime (AudioEngine.frequencyOf (AudioEngine.baseMidi step)) time]
  /\ AudioEngine.timeline AudioEngine.osc_frequency e'
     = AudioEngine.timeline AudioEngine.osc_frequency e
       ++ [setValueAtTime (AudioEngine.frequencyOf (AudioEngine.baseMidi step)) time]
  /\ Spec.fromTime time (AudioEngine.timeline AudioEngine.ampGain_gain e')
     = [setValueAtTime (AudioEngine.activeVol step params) time]
  /\ forall n afterNext params' stepDuration',
       nextStep = Some n ->
       Spec.fromTime time
         (AudioEngine.timeline AudioEngine.ampGain_gain
            (AudioEngine.scheduleStep n afterNext (time + stepDuration)
               params' stepDuration' e'))
       = [setValueAtTime (AudioEngine.activeVol step params) time;
          setTargetAtTime 0 (time + stepDuration) (1 / 100)].
Proof.
  intros Hact Hslide Hnext Hd e'.
  assert (Hramp : AudioEngine.slideRamp step nextStep time stepDuration = []).
  { unfold AudioEngine.slideRamp. destruct nextStep as [n|]; [|reflexivity].
    rewrite Hnext, andb_false_r. reflexivity. }
  assert (Hgate : Spec.fromTime time
                    (AudioEngine.timeline AudioEngine.ampGain_gain e')
                  = [setValueAtTime (AudioEngine.activeVol step params) time])
    by now apply gate_stays_open.
  repeat split.
  - unfold AudioEngine.stepCalls. rewrite Hact. cbn [negb].
    now rewrite callsOn_osc_frequency, Hramp.
  - subst e'. now rewrite timeline_osc_frequency, Hramp.
  - exact Hgate.
  - intros n afterNext params' d' ->.
    rewrite scheduleStep_inactive by assumption.
    unfold AudioEngine.timeline. rewrite paramOf_paramCall.
    cbn [AudioEngine.paramOf option_map AudioEngine.callsOn filter fst snd
         AudioEngine.ParamId_eqb map calls fold_left call events].
    change (events (AudioEngine.ampGain e'))
      with (AudioEngine.timeline AudioEngine.ampGain_gain e').
    rewrite fromTime_app, Hgate, fromTime_keep by (cbn; lra).
    reflexivity.
Qed.

(** A sliding note followed by a rest. *)
Lemma C10_witness :
  active Sample.sliding = true /\ slide Sample.sliding = true
  /\ active Sample.rest = false /\ 0 <= 1 / 8
  /\ AudioEngine.callsOn AudioEngine.osc_frequency
       (AudioEngine.stepCalls Sample.sliding (Some Sample.rest) 0
          Sample.params120 (1 / 8))
     = [setValueAtTime (AudioEngine.frequencyOf (AudioEngine.baseMidi Sample.sliding)) 0].
Proof.
  split; [reflexivity|]. split; [reflexivity|]. split; [reflexivity|].
  split; [lra|].
  apply (C10_slide_to_inactive_step Sample.sliding (Some Sample.rest) 0
           Sample.params120 (1 / 8) (AudioEngine.constructor 0)
           eq_refl eq_refl eq_refl).
  lra.
Defined.

(** ** Range of the automation values *)

Lemma clampPercent_200 : Spec.clampPercent 200 = 100.
Proof.
  unfold Spec.clampPercent, Rmin, Rmax.
  destruct (Rle_dec 100 200); [|lra]. destruct (Rle_dec 0 100); lra.
Qed.

(** C4, as stated, fails: the engine does not clamp the record it is given.
    With volume 200 an unaccented step opens the gate at level 2; the record
    clamped to [0,100] would open it at level 1. *)
Lemma C4_counterexample :
  ~ Spec.percent (volume Sample.paramsLoud)
  /\ AudioEngine.activeVol Sample.plain Sample.paramsLoud = 2
  /\ AudioEngine.activeVol Sample.plain (Spec.clampParams Sample.paramsLoud) = 1
  /\ In (AudioEngine.ampGain_gain, setValueAtTime 2 0)
        (AudioEngine.stepCalls Sample.plain None 0 Sample.paramsLoud (1 / 8))
  /\ ~ Spec.clampsDefensively Sample.plain None 0 Sample.paramsLoud (1 / 8).
Proof.
  assert (H2 : AudioEngine.activeVol Sample.plain Sample.paramsLoud = 2)
    by (cbn; lra).
  assert (H1 : AudioEngine.activeVol Sample.plain
                 (Spec.clampParams Sample.paramsLoud) = 1)
    by (cbn; rewrite clampPercent_200; lra).
  split; [unfold Spec.percent; cbn; lra|].
  split; [exact H2|]. split; [exact H1|]. split.
  - rewrite <- H2. cbn. right. right. right. left. reflexivity.
  - unfold Spec.clampsDefensively. intros H.
    apply (f_equal (AudioEngine.callsOn AudioEngine.ampGain_gain)) in H.
    unfold AudioEngine.stepCalls in H. cbn [active Sample.plain negb] in H.
    rewrite !callsOn_ampGain_gain in H.
    injection H as H _. rewrite H1, H2 in H. lra.
Qed.

Lemma activeVol_range step params :
  Spec.percentages params -> 0 <= AudioEngine.activeVol step params <= 1.
Proof.
  intros (_ & _ & _ & _ & Ha & Hv). unfold Spec.percent in *.
  unfold AudioEngine.activeVol, AudioEngine.accentIntensity.
  destruct (accent step); [apply Rmin_bounds|]; lra.
Qed.

Lemma qValue_range step params :
  Spec.percentages params -> 0 <= AudioEngine.qValue step params <= 30.
Proof.
  intros (_ & Hr & _ & _ & Ha & _). unfold Spec.percent in *.
  unfold AudioEngine.qValue, AudioEngine.resValue, AudioEngine.accentIntensity.
  destruct (accent step); lra.
Qed.

Lemma baseCutoff_range params :
  Spec.percentages params -> 50 <= AudioEngine.baseCutoff params <= 8050.
Proof.
  intros (Hc & _). unfold Spec.percent in *. unfold AudioEngine.baseCutoff. lra.
Qed.

Lemma activeEnvMod_range step params :
  Spec.percentages params -> 0 <= AudioEngine.activeEnvMod step params <= 1.
Proof.
  intros (_ & _ & He & _ & Ha & _). unfold Spec.percent in *.
  unfold AudioEngine.activeEnvMod, AudioEngine.accentIntensity.
  destruct (accent step); [apply Rmin_bounds|]; lra.
Qed.

Lemma peakFilter_range step params :
  Spec.percentages params ->
  AudioEngine.baseCutoff params <= AudioEngine.peakFilter step params <= 18050.
Proof.
  intros H. pose proof (baseCutoff_range params H).
  pose proof (activeEnvMod_range step params H).
  unfold AudioEngine.peakFilter, AudioEngine.maxFilterFreq, Rmin.
  destruct (Rle_dec _ _); lra.
Qed.

Lemma decayTime_range step params :
  Spec.percentages params ->
  1 / 10 <= AudioEngine.decayTime step params <= 21 / 10.
Proof.
  intros (_ & _ & _ & Hd & _). unfold Spec.percent in *.
  unfold AudioEngine.decayTime, AudioEngine.activeDecay, Rmax.
  destruct (accent step); [destruct (Rle_dec _ _)|]; lra.
Qed.

(** C4, amended.  The engine uses the percentage fields as they are; it only
    caps the accented volume and envelope amount at 1, floors the accented
    decay at 0.1 and caps the filter peak at 20000.  For a record whose
    percentage fields lie in [0,100] every value a trigger schedules is
    bounded: the gain within [0,1], the filter Q within [0,30], the filter
    frequency within [50,18050] and never below the base cutoff, the decay
    time within [0.1,2.1] seconds. *)
Theorem C4_bounded_automation step nextStep time params stepDuration :
  Spec.percentages params ->
  let cs := AudioEngine.stepCalls step nextStep time params stepDuration in
  Spec.valuesWithin 0 1 (AudioEngine.callsOn AudioEngine.ampGain_gain cs)
  /\ Spec.valuesWithin 0 30 (AudioEngine.callsOn AudioEngine.filter_Q cs)
  /\ Spec.valuesWithin 50 18050 (AudioEngine.callsOn AudioEngine.filter_frequency cs)
  /\ AudioEngine.baseCutoff params <= AudioEngine.peakFilter step params
  /\ 1 / 10 <= AudioEngine.decayTime step params <= 21 / 10
  /\ (accent step = false ->
      AudioEngine.activeVol step params = volume params / 100
      /\ AudioEngine.activeEnvMod step params = envMod params / 100
      /\ AudioEngine.activeDecay step params = decay params / 100).
Proof.
  intros H cs. subst cs.
  pose proof (activeVol_range step params H) as Hv.
  pose proof (qValue_range step params H) as Hq.
  pose proof (baseCutoff_range params H) as Hb.
  pose proof (peakFilter_range step params H) as Hp.
  assert (Hgain : Spec.valuesWithin 0 1
            (AudioEngine.callsOn AudioEngine.ampGain_gain
               (AudioEngine.stepCalls step nextStep time params stepDuration))).
  { unfold AudioEngine.stepCalls. destruct (active step); cbn [negb].
    - rewrite callsOn_ampGain_gain. unfold AudioEngine.gateClose.
      intros c v Hin Hc. destruct (negb (slide step)); cbn [In] in Hin;
        decompose [or] Hin; try contradiction; subst c; cbn in Hc;
        try discriminate; injection Hc as <-; lra.
    - intros c v [<-|[]] Hc. cbn in Hc. injection Hc as <-. lra. }
  assert (HQ : Spec.valuesWithin 0 30
            (AudioEngine.callsOn AudioEngine.filter_Q
               (AudioEngine.stepCalls step nextStep time params stepDuration))).
  { unfold AudioEngine.stepCalls. destruct (active step); cbn [negb].
    - rewrite callsOn_filter_Q.
      intros c v [<-|[]] Hc. cbn in Hc. injection Hc as <-. lra.
    - intros c v []. }
  assert (Hfreq : Spec.valuesWithin 50 18050
            (AudioEngine.callsOn AudioEngine.filter_frequency
               (AudioEngine.stepCalls step nextStep time params stepDuration))).
  { unfold AudioEngine.stepCalls. destruct (active step); cbn [negb].
    - rewrite callsOn_filter_frequency.
      intros c v Hin Hc. cbn [In] in Hin.
      decompose [or] Hin; try contradiction; subst c; cbn in Hc;
        try discriminate; injection Hc as <-; lra.
    - intros c v []. }
  split; [exact Hgain|]. split; [exact HQ|]. split; [exact Hfreq|].
  split; [apply Hp|]. split; [now apply decayTime_range|].
  intros Hacc.
  unfold AudioEngine.activeVol, AudioEngine.activeEnvMod, AudioEngine.activeDecay.
  rewrite Hacc. repeat split.
Qed.

(** The sample settings lie within [0,100]. *)
Lemma C4_witness :
  Spec.percentages Sample.params120
  /\ Spec.valuesWithin 0 1
       (AudioEngine.callsOn AudioEngine.ampGain_gain
          (AudioEngine.stepCalls Sample.plain None 0 Sample.params120 (1 / 8))).
Proof.
  assert (H : Spec.percentages Sample.params120)
    by (unfold Spec.percentages, Spec.percent; cbn; lra).
  split; [exact H|].
  apply (C4_bounded_automation Sample.plain None 0 Sample.params120 (1 / 8) H).
Defined.

(** ** One scheduled note *)

Section ScheduleNote.

Import App.

Variables (a : App.t) (stepNumber : Z) (time : R) (step : Step).
Hypothesis Hstep : at_index (patternRef a) stepNumber = Some step.

Let duration := secondsPerStep (paramsRef a).
Let delay := (time - ctxTime a) * 1000.

(** The timer that moves the step highlight, and the one that sends the
    Note On of an active step. *)
Let uiTimer : Timer :=
  {| id := nextTimerId a; due := wallClock a + Rmax 0 delay;
     task := uiSetCurrentStep stepNumber |}.
Let noteTimer : Timer :=
  {| id := S (nextTimerId a); due := wallClock a + Rmax 0 (Rmax 0 delay);
     task := midiNoteOn (36 + note step + octave step * 12) (velocityOf step)
                        step duration |}.

Lemma scheduleNote_done :
  exists a',
    scheduleNote stepNumber time a = Done a'
    /\ audioEngine a'
       = AudioEngine.scheduleStep step
           (at_index (patternRef a) (Z.rem (stepNumber + 1) STEPS_PER_BAR))
           time (paramsRef a) duration (audioEngine a)
    /\ timers a' = timers a ++ uiTimer :: (if active step then [noteTimer] else [])
    /\ nextTimerId a'
       = (if active step then S (S (nextTimerId a)) else S (nextTimerId a))
    /\ midiService a' = midiService a
    /\ wallClock a' = wallClock a
    /\ (params a', pattern a', playState a', currentStep a')
       = (params a, pattern a, playState a, currentStep a)
    /\ (nextNoteTime a', currentStepRef a', timerID a', isPlayingRef a')
       = (nextNoteTime a, currentStepRef a, timerID a, isPlayingRef a)
    /\ (paramsRef a', patternRef a') = (paramsRef a, patternRef a).
Proof.
  unfold scheduleNote. cbn [setTimeout snd set_timers patternRef paramsRef].
  rewrite Hstep. destruct (active step); eexists; (split; [reflexivity|]);
    repeat split.
  cbn [timers set_timers set_services wallClock nextTimerId].
  unfold ctxTime. cbn [audioEngine set_services set_timers].
  rewrite ctx_scheduleStep, <- app_assoc. reflexivity.
Qed.

End ScheduleNote.

Lemma scheduleNote_step a stepNumber time a' :
  App.scheduleNote stepNumber time a = Done a' ->
  exists step, App.at_index (App.patternRef a) stepNumber = Some step.
Proof.
  unfold App.scheduleNote.
  cbn [App.setTimeout snd App.set_timers App.patternRef].
  destruct (App.at_index (App.patternRef a) stepNumber) as [step|];
    [eauto | discriminate].
Qed.

(** ** MIDI Note On *)

(** C9. For every active step the scheduler enqueues one Note On task whose
    velocity is 127 if the step is accented and 100 otherwise; when the task
    runs with an output available, the bytes sent are
    [0x90, clamp(36 + note + octave * 12, 0, 127), velocity]. *)
Theorem C9_note_on_message a stepNumber time step :
  App.at_index (App.patternRef a) stepNumber = Some step ->
  active step = true ->
  let baseNote := (36 + note step + octave step * 12)%Z in
  let velocity := if accent step then 127%Z else 100%Z in
  exists a' tm,
    App.scheduleNote stepNumber time a = Done a'
    /\ App.timers a'
       = App.timers a
         ++ [{| App.id := App.nextTimerId a;
                App.due := App.wallClock a
                           + Rmax 0 ((time - App.ctxTime a) * 1000);
                App.task := App.uiSetCurrentStep stepNumber |}; tm]
    /\ App.task tm
       = App.midiNoteOn baseNote velocity step
           (App.secondsPerStep (App.paramsRef a))
    /\ forall fuel b port,
         MidiService.output (App.midiService b) = Some port ->
         exists b',
           App.runTask fuel (App.task tm) b = Done b'
           /\ MidiService.sent (App.midiService b')
              = MidiService.sent (App.midiService b)
                ++ [(port, [144%Z; Z.max 0 (Z.min 127 baseNote); velocity])].
Proof.
  intros Hstep Hact baseNote velocity.
  destruct (scheduleNote_done a stepNumber time step Hstep)
    as (a' & Hrun & _ & Htimers & _).
  rewrite Hact in Htimers.
  eexists a', _. split; [exact Hrun|]. split; [exact Htimers|].
  split; [reflexivity|].
  intros fuel b port Hport. eexists. split; [reflexivity|].
  cbn [App.task App.midiService App.set_services App.setTimeout snd
       App.set_timers].
  unfold MidiService.sendNoteOn. rewrite Hport.
  cbn [MidiService.sent MidiService.send]. subst velocity.
  unfold App.velocityOf. destruct (accent step); reflexivity.
Qed.

(** A one-step pattern holding the plain note. *)
Lemma C9_witness :
  App.at_index [Sample.plain] 0 = Some Sample.plain
  /\ active Sample.plain = true
  /\ exists a' tm,
       App.scheduleNote 0 0
         (App.mount Sample.params120 [Sample.plain] 0)
       = Done a'
       /\ In tm (App.timers a')
       /\ App.task tm = App.midiNoteOn 36 100 Sample.plain (60 / 120 / 4).
Proof.
  split; [reflexivity|]. split; [reflexivity|].
  destruct (C9_note_on_message
              (App.mount Sample.params120 [Sample.plain] 0)
              0 0 Sample.plain eq_refl eq_refl)
    as (a' & tm & Hrun & Htimers & Htask & _).
  exists a', tm. split; [exact Hrun|]. split; [|exact Htask].
  rewrite Htimers. right. left. reflexivity.
Defined.

(** ** The scheduler loop *)

Section SchedulerLoop.

Import App Inv.

Lemma frame_refl a : frame a a.
Proof.
  constructor; try reflexivity.
  exists []. split; [now rewrite app_nil_r | constructor].
Qed.

Lemma frame_trans a b c : frame a b -> frame b c -> frame a c.
Proof.
  intros [R1 L1 F1 M1 C1 X1 N1 (n1 & T1 & A1)] [R2 L2 F2 M2 C2 X2 N2 (n2 & T2 & A2)].
  constructor; try congruence; [lia|].
  exists (n1 ++ n2). split.
  - now rewrite T2, T1, app_assoc.
  - apply Forall_app. now split.
Qed.

Lemma frame_scheduleNote a stepNumber time a' :
  scheduleNote stepNumber time a = Done a' -> frame a a'.
Proof.
  intros H. destruct (scheduleNote_step _ _ _ _ H) as [step Hstep].
  destruct (scheduleNote_done a stepNumber time step Hstep)
    as (a1 & Hrun & He & Ht & Hn & Hm & Hc & Hr & Hl & Hf).
  rewrite Hrun in H. injection H as <-.
  constructor; try assumption.
  - now inversion Hl.
  - rewrite He. apply ctx_scheduleStep.
  - rewrite Hn. destruct (active step); lia.
  - eexists. split; [exact Ht|].
    destruct (active step); repeat constructor; discriminate.
Qed.

Lemma frame_nextNote a : frame a (nextNote a).
Proof.
  constructor; try reflexivity.
  exists []. split; [cbn; now rewrite app_nil_r | constructor].
Qed.

Lemma schedulerLoop_continue fuel a :
  nextNoteTime a < ctxTime a + SCHEDULE_AHEAD_TIME ->
  schedulerLoop (S fuel) a
  = bind (scheduleNote (currentStepRef a) (nextNoteTime a) a)
         (fun a1 => schedulerLoop fuel (nextNote a1)).
Proof. intros H. cbn [schedulerLoop]. now rewrite Rlt_dec_true. Qed.

Lemma schedulerLoop_exit fuel a :
  ctxTime a + SCHEDULE_AHEAD_TIME <= nextNoteTime a ->
  schedulerLoop fuel a = Done a.
Proof. intros H. destruct fuel; cbn [schedulerLoop]; now rewrite Rlt_dec_false. Qed.

Lemma bind_done {A B} (x : outcome A) (f : A -> outcome B) b :
  bind x f = Done b -> exists a, x = Done a /\ f a = Done b.
Proof. destruct x; cbn; [eauto | discriminate | discriminate]. Qed.

(** An invariant of the loop body is an invariant of the loop. *)
Lemma schedulerLoop_ind (P : t -> Prop) :
  (forall a i time a', scheduleNote i time a = Done a' -> P a -> P (nextNote a')) ->
  forall fuel a a', schedulerLoop fuel a = Done a' -> P a -> P a'.
Proof.
  intros Hbody. induction fuel as [|fuel IH]; intros a a' H Pa.
  - cbn [schedulerLoop] in H. destruct (Rlt_dec _ _); [discriminate|].
    now injection H as <-.
  - cbn [schedulerLoop] in H. destruct (Rlt_dec _ _).
    + apply bind_done in H as (a1 & H1 & H2).
      apply (IH _ _ H2). now apply (Hbody _ _ _ _ H1).
    + now injection H as <-.
Qed.

Lemma frame_schedulerLoop fuel a a' :
  schedulerLoop fuel a = Done a' -> frame a a'.
Proof.
  intros H. apply (schedulerLoop_ind (frame a) ) with (fuel := fuel) (a := a);
    [|exact H|apply frame_refl].
  intros b i time b' Hb Fb.
  eapply frame_trans; [exact Fb|].
  eapply frame_trans; [apply (frame_scheduleNote _ _ _ _ Hb)|apply frame_nextNote].
Qed.

Lemma cursorOk_nextNote a : cursorOk a -> cursorOk (nextNote a).
Proof.
  unfold cursorOk. cbn [nextNote set_cursor currentStepRef]. unfold STEPS_PER_BAR.
  intros H. rewrite Z.rem_mod_nonneg by lia.
  pose proof (Z.mod_pos_bound (currentStepRef a + 1) 16). lia.
Qed.

Lemma cursor_scheduleNote a i time a' :
  scheduleNote i time a = Done a' ->
  currentStepRef a' = currentStepRef a /\ nextNoteTime a' = nextNoteTime a.
Proof.
  intros H. destruct (scheduleNote_step _ _ _ _ H) as [step Hstep].
  destruct (scheduleNote_done a i time step Hstep)
    as (a1 & Hrun & _ & _ & _ & _ & _ & _ & Hl & _).
  rewrite Hrun in H. injection H as <-. now inversion Hl.
Qed.

Lemma cursorOk_schedulerLoop fuel a a' :
  schedulerLoop fuel a = Done a' -> cursorOk a -> cursorOk a'.
Proof.
  apply schedulerLoop_ind. intros b i time b' Hb Pb.
  apply cursorOk_nextNote. unfold cursorOk in *.
  now rewrite (proj1 (cursor_scheduleNote _ _ _ _ Hb)).
Qed.

End SchedulerLoop.

(** ** The loop returns *)

Section Termination.

Import App Inv.

(** A cursor inside a pattern of 16 steps, and a positive tempo. *)
Let ready (a : t) : Prop :=
  0 < tempo (paramsRef a) /\ List.length (patternRef a) = 16%nat /\ cursorOk a.

Lemma at_index_defined (pat : list Step) i :
  List.length pat = 16%nat -> (0 <= i <= 15)%Z -> exists step, at_index pat i = Some step.
Proof.
  intros Hlen Hi. unfold at_index.
  destruct (Z.ltb_spec i 0); [lia|].
  destruct (nth_error pat (Z.to_nat i)) as [step|] eqn:E; [eauto|].
  apply nth_error_None in E. lia.
Qed.

Lemma schedulerLoop_bounded n :
  forall a, ready a ->
    ctxTime a + SCHEDULE_AHEAD_TIME - nextNoteTime a
    <= INR n * secondsPerStep (paramsRef a) ->
    exists a', schedulerLoop n a = Done a'.
Proof.
  induction n as [|n IH]; intros a (Ht & Hlen & Hc) Hb.
  - exists a. apply schedulerLoop_exit. cbn in Hb. lra.
  - destruct (Rlt_dec (nextNoteTime a) (ctxTime a + SCHEDULE_AHEAD_TIME)) as [Hlt|Hge].
    2:{ exists a. apply schedulerLoop_exit. lra. }
    rewrite schedulerLoop_continue by exact Hlt.
    destruct (at_index_defined _ _ Hlen Hc) as [step Hstep].
    destruct (scheduleNote_done a (currentStepRef a) (nextNoteTime a) step Hstep)
      as (a1 & Hrun & He & _ & _ & _ & _ & _ & Hl & Hf).
    rewrite Hrun. cbn [bind]. inversion Hl. inversion Hf.
    apply IH.
    + split; [|split].
      * cbn [nextNote set_cursor paramsRef]. congruence.
      * cbn [nextNote set_cursor patternRef]. congruence.
      * apply cursorOk_nextNote. unfold cursorOk in *. congruence.
    + cbn [nextNote set_cursor paramsRef nextNoteTime].
      unfold ctxTime in *. cbn [nextNote set_cursor audioEngine].
      rewrite He, ctx_scheduleStep. rewrite S_INR in Hb.
      rewrite H4, H0. lra.
Qed.

(** With a positive tempo the [while] loop of [scheduler] ends: some bound on
    its iterations is enough. *)
Lemma schedulerLoop_terminates a :
  0 < tempo (paramsRef a) -> List.length (patternRef a) = 16%nat -> cursorOk a ->
  exists fuel a', schedulerLoop fuel a = Done a'.
Proof.
  intros Ht Hlen Hc.
  assert (Hs : 0 < secondsPerStep (paramsRef a)).
  { unfold secondsPerStep. apply Rdiv_lt_0_compat; [|lra].
    apply Rdiv_lt_0_compat; lra. }
  destruct (INR_unbounded
              ((ctxTime a + SCHEDULE_AHEAD_TIME - nextNoteTime a)
               / secondsPerStep (paramsRef a))) as [n Hn].
  exists n. apply schedulerLoop_bounded;
    [split; [exact Ht|split; [exact Hlen|exact Hc]]|].
  apply Rlt_le. apply Rgt_lt in Hn.
  apply (Rmult_lt_compat_r _ _ _ Hs) in Hn.
  unfold Rdiv in Hn. rewrite Rmult_assoc, Rinv_l, Rmult_1_r in Hn by lra.
  exact Hn.
Qed.

End Termination.

(** ** One scheduler tick *)

Section SchedulerTick.

Import App Inv.

(** No scheduler tick is pending. *)
Let noTick (a : t) : Prop :=
  forall tm, In tm (timers a) -> task tm <> runScheduler.

Lemma scheduler_done fuel a a' :
  scheduler fuel a = Done a' ->
  exists a1,
    schedulerLoop fuel a = Done a1
    /\ a' = if isPlayingRef a1
            then set_loop (Some (nextTimerId a1)) (isPlayingRef a1)
                   (snd (setTimeout runScheduler LOOKAHEAD a1))
            else a1.
Proof.
  unfold scheduler. intros H. apply bind_done in H as (a1 & H1 & H2).
  exists a1. split; [exact H1|].
  destruct (isPlayingRef a1) eqn:E;
    cbn [setTimeout set_timers isPlayingRef] in H2; rewrite ?E in H2;
    now injection H2 as <-.
Qed.

Lemma scheduler_inv fuel a a' :
  scheduler fuel a = Done a' ->
  noTick a -> (1 <= nextTimerId a)%nat ->
  ((1 <= nextTimerId a')%nat
   /\ forall tm, In tm (timers a') -> task tm = runScheduler ->
                 timerID a' = Some (id tm) /\ id tm <> O)
  /\ (params a', pattern a', playState a', currentStep a')
     = (params a, pattern a, playState a, currentStep a)
  /\ (paramsRef a', patternRef a') = (paramsRef a, patternRef a)
  /\ (cursorOk a -> cursorOk a').
Proof.
  intros H Hno Hn. apply scheduler_done in H as (a1 & Hloop & ->).
  pose proof (frame_schedulerLoop _ _ _ Hloop)
    as [R L F M C X N (new & T & A)].
  pose proof (cursorOk_schedulerLoop _ _ _ Hloop) as Hcur.
  assert (Hno1 : forall tm, In tm (timers a1) -> task tm <> runScheduler).
  { intros tm Hin. rewrite T in Hin. apply in_app_or in Hin as [Hin|Hin].
    - now apply Hno.
    - rewrite Forall_forall in A. now apply A. }
  destruct (isPlayingRef a1).
  - cbn [setTimeout snd set_loop set_timers timers nextTimerId timerID params
         pattern playState currentStep paramsRef patternRef].
    split; [split; [lia|]|split; [exact R|split; [exact F|exact Hcur]]].
    intros tm H H0.
    apply in_app_or in H as [H|[<-|[]]]; [now apply Hno1 in H|].
    cbn [id]. split; [reflexivity|lia].
  - split; [split; [lia|]|split; [exact R|split; [exact F|exact Hcur]]].
    intros tm H H0. now apply Hno1 in H.
Qed.

End SchedulerTick.

(** ** Invariants of every run *)

Section Runs.

Import App Inv.

Lemma ok_mount p pat now : ok (mount p pat now).
Proof.
  unfold ok, cursorOk, tickOk, silentWhenStopped, refsSynced.
  cbn [mount currentStepRef nextTimerId timers playState audioEngine paramsRef
       params patternRef pattern In].
  repeat split; try lia; contradiction.
Qed.

Lemma osc_stop e : AudioEngine.osc (AudioEngine.stop e) = None.
Proof. unfold AudioEngine.stop. destruct (AudioEngine.osc e) eqn:E; cbn; now rewrite ?E. Qed.

Lemma In_clearTimeout tm n a :
  In tm (timers (clearTimeout n a)) <-> In tm (timers a) /\ id tm <> n.
Proof.
  cbn [clearTimeout timers set_timers]. rewrite filter_In.
  rewrite negb_true_iff, Nat.eqb_neq. reflexivity.
Qed.

Lemma ok_start fuel a a' : startSequencer fuel a = Done a' -> ok a -> ok a'.
Proof.
  unfold startSequencer. intros H Hok.
  destruct (playState a) eqn:Hplay; [|now injection H as <-].
  destruct Hok as (Hc & (Hn & Ht) & Hs & Hr).
  apply bind_done in H as (a4 & H4 & H). injection H as <-.
  apply scheduler_inv in H4 as ((Hn4 & Ht4) & R & F & Hc4).
  - inversion R. inversion F.
    split; [apply Hc4; unfold cursorOk; cbn; lia|].
    split; [split; [exact Hn4|]|split].
    + intros tm Hin Htask. destruct (Ht4 tm Hin Htask). now repeat split.
    + intros Habs. discriminate Habs.
    + unfold refsSynced. cbn [setPlayState set_react paramsRef patternRef
                                params pattern].
      destruct Hr. split; congruence.
  - intros tm Hin Htask. cbn in Hin.
    destruct (Ht tm Hin Htask) as (Hp & _). congruence.
  - exact Hn.
Qed.

Lemma ok_stop a : ok a -> ok (stopSequencer a).
Proof.
  intros (Hc & (Hn & Ht) & Hs & Hr).
  assert (Hno : forall tm,
             In tm (timers (match timerID a with
                            | Some (S n) => clearTimeout (S n) (set_loop (timerID a) false a)
                            | _ => set_loop (timerID a) false a
                            end)) ->
             task tm <> runScheduler).
  { intros tm Hin Htask.
    destruct (timerID a) as [[|n]|] eqn:Hid.
    - destruct (Ht tm Hin Htask) as (_ & Heq & Hz). congruence.
    - apply In_clearTimeout in Hin as [Hin Hne].
      destruct (Ht tm Hin Htask) as (_ & Heq & _). congruence.
    - destruct (Ht tm Hin Htask) as (_ & Heq & _). congruence. }
  unfold stopSequencer. cbn [set_loop timerID].
  split; [|split; [split|split]].
  - unfold cursorOk in *. destruct (timerID a) as [[|n]|]; exact Hc.
  - destruct (timerID a) as [[|n]|]; exact Hn.
  - intros tm Hin Htask. exfalso. revert Htask. apply Hno.
    destruct (timerID a) as [[|n]|]; exact Hin.
  - intros _. cbn [setCurrentStep setPlayState set_react set_services audioEngine].
    apply osc_stop.
  - destruct Hr. destruct (timerID a) as [[|n]|]; split; assumption.
Qed.

Lemma ok_fire fuel a tm a' :
  In tm (timers a) ->
  runTask fuel (task tm) (clearTimeout (id tm) a) = Done a' ->
  ok a -> ok a'.
Proof.
  intros Hin H (Hc & (Hn & Ht) & Hs & Hr).
  assert (Ht0 : forall tm', In tm' (timers (clearTimeout (id tm) a)) ->
                            task tm' = runScheduler ->
                            playState a = PLAYING /\ timerID a = Some (id tm')
                            /\ id tm' <> O).
  { intros tm' Hin' Htask. apply In_clearTimeout in Hin' as [Hin' _].
    now apply Ht. }
  destruct (task tm) eqn:Htask; cbn [runTask] in H.
  - (* the scheduler tick *)
    destruct (Ht tm Hin Htask) as (Hplay & Hid & _).
    apply scheduler_inv in H as ((Hn' & Ht') & R & F & Hc').
    + inversion R. inversion F.
      split; [now apply Hc'|]. split; [split; [exact Hn'|]|split].
      * intros tm' Hin' Htask'. destruct (Ht' tm' Hin' Htask').
        repeat split; try assumption. cbn in *. congruence.
      * intros Habs. cbn in *. congruence.
      * destruct Hr. split; cbn in *; congruence.
    + intros tm' Hin' Htask'. apply In_clearTimeout in Hin' as [Hin' Hne].
      destruct (Ht tm' Hin' Htask') as (_ & Hid' & _). congruence.
    + exact Hn.
  - (* the step highlight *)
    injection H as <-. split; [exact Hc|]. split; [split; [exact Hn|]|split].
    + exact Ht0.
    + exact Hs.
    + exact Hr.
  - (* Note On *)
    injection H as <-. split; [exact Hc|]. split; [split|split].
    + cbn. lia.
    + intros tm' Hin' Htask'. cbn in Hin'.
      apply in_app_or in Hin' as [Hin'|[<-|[]]]; [|discriminate Htask'].
      apply Ht; [|exact Htask']. rewrite filter_In in Hin'. apply Hin'.
    + exact Hs.
    + exact Hr.
  - (* Note Off *)
    injection H as <-. split; [exact Hc|]. split; [split; [exact Hn|]|split].
    + exact Ht0.
    + exact Hs.
    + exact Hr.
Qed.

Lemma ok_same a a' :
  currentStepRef a' = currentStepRef a ->
  nextTimerId a' = nextTimerId a ->
  timers a' = timers a ->
  playState a' = playState a ->
  timerID a' = timerID a ->
  AudioEngine.osc (audioEngine a') = AudioEngine.osc (audioEngine a) ->
  refsSynced a' ->
  ok a -> ok a'.
Proof.
  intros E1 E2 E3 E4 E5 E6 Hr' (Hc & (Hn & Ht) & Hs & _).
  unfold ok, cursorOk, tickOk, silentWhenStopped.
  rewrite E1, E2, E3, E4, E5, E6.
  split; [exact Hc|]. split; [split; [exact Hn|exact Ht]|]. now split.
Qed.

Lemma ok_step fuel a ev a' : step fuel a ev a' -> ok a -> ok a'.
Proof.
  intros Hstep Hok. destruct Hstep.
  - apply (ok_same a); try reflexivity; try exact Hok; apply Hok.
  - eapply ok_fire; eassumption.
  - eapply ok_start; eassumption.
  - now apply ok_stop.
  - apply (ok_same a); try reflexivity; try exact Hok.
    split; [reflexivity|apply Hok].
  - apply (ok_same a); try reflexivity; try exact Hok.
    split; [apply Hok|reflexivity].
  - exact Hok.
  - exact Hok.
Qed.

Lemma ok_run fuel a evs a' : run fuel a evs a' -> ok a -> ok a'.
Proof.
  induction 1 as [|a ev a1 evs a2 Hstep _ IH]; [auto|].
  intros Hok. apply IH. eapply ok_step; eassumption.
Qed.

End Runs.

(** While the transport is Stopped no scheduler tick is pending: Stop has
    cancelled it. *)
Remark no_tick_when_stopped fuel p pat now evs b tm :
  App.run fuel (App.mount p pat now) evs b ->
  App.playState b = STOPPED ->
  In tm (App.timers b) -> App.task tm <> App.runScheduler.
Proof.
  intros Hrun Hstopped Hin Htask.
  destruct (ok_run _ _ _ _ Hrun (ok_mount p pat now)) as (_ & (_ & Ht) & _).
  destruct (Ht tm Hin Htask) as (Hplay & _). congruence.
Qed.

(** ** The scheduling cursor *)

Lemma nextNote_iter N a :
  App.paramsRef (Nat.iter N App.nextNote a) = App.paramsRef a
  /\ App.nextNoteTime (Nat.iter N App.nextNote a)
     = App.nextNoteTime a + INR N * App.secondsPerStep (App.paramsRef a).
Proof.
  induction N as [|N [IHp IHt]].
  - cbn. split; [reflexivity|lra].
  - rewrite S_INR.
    change (Nat.iter (S N) App.nextNote a)
      with (App.nextNote (Nat.iter N App.nextNote a)).
    split; [exact IHp|].
    cbn [App.nextNote App.set_cursor App.nextNoteTime].
    rewrite IHt, IHp. lra.
Qed.

(** The cursor in exact arithmetic.  For every tempo in [60,200] one
    advance adds [60/tempo/4 = 15/tempo] seconds to [nextNoteTime], with the
    tempo read at that advance, and moves [currentStepRef] to
    [(currentStepRef + 1) mod 16], which stays within [0,15] and is 0 after
    15; [N] advances at a fixed tempo add [N * (15/tempo)]; and in every run
    of the application [currentStepRef] lies within [0,15]. *)
Lemma cursor_advance_exact a :
  60 <= tempo (App.paramsRef a) <= 200 ->
  (0 <= App.currentStepRef a <= 15)%Z ->
  App.secondsPerStep (App.paramsRef a) = 15 / tempo (App.paramsRef a)
  /\ App.nextNoteTime (App.nextNote a)
     = App.nextNoteTime a + 15 / tempo (App.paramsRef a)
  /\ App.currentStepRef (App.nextNote a) = ((App.currentStepRef a + 1) mod 16)%Z
  /\ (0 <= App.currentStepRef (App.nextNote a) <= 15)%Z
  /\ (App.currentStepRef a = 15%Z -> App.currentStepRef (App.nextNote a) = 0%Z)
  /\ (forall N,
        App.nextNoteTime (Nat.iter N App.nextNote a)
        = App.nextNoteTime a + INR N * (15 / tempo (App.paramsRef a)))
  /\ (forall f,
        App.nextNoteTime (App.nextNote (App.setParams f (App.nextNote a)))
        = App.nextNoteTime a + 15 / tempo (App.paramsRef a)
          + 15 / tempo (f (App.params a)))
  /\ (forall fuel p pat now evs b,
        App.run fuel (App.mount p pat now) evs b ->
        (0 <= App.currentStepRef b <= 15)%Z).
Proof.
  intros Ht Hc.
  assert (Hs : forall p, tempo p <> 0 -> App.secondsPerStep p = 15 / tempo p).
  { intros p Hp. unfold App.secondsPerStep. field. exact Hp. }
  assert (Hs' : App.secondsPerStep (App.paramsRef a) = 15 / tempo (App.paramsRef a))
    by (apply Hs; lra).
  assert (Hrem : App.currentStepRef (App.nextNote a)
                 = ((App.currentStepRef a + 1) mod 16)%Z).
  { cbn [App.nextNote App.set_cursor App.currentStepRef]. unfold STEPS_PER_BAR.
    apply Z.rem_mod_nonneg; lia. }
  split; [exact Hs'|]. split.
  { cbn [App.nextNote App.set_cursor App.nextNoteTime]. now rewrite Hs'. }
  split; [exact Hrem|]. split.
  { now apply cursorOk_nextNote. }
  split.
  { intros H15. rewrite Hrem, H15. reflexivity. }
  split.
  { intros N. rewrite <- Hs'. apply nextNote_iter. }
  split.
  { intros f.
    cbn [App.nextNote App.setParams App.set_cursor App.nextNoteTime
         App.paramsRef App.params].
    rewrite Hs'. unfold App.secondsPerStep. lra. }
  intros fuel p pat now evs b Hrun.
  apply (ok_run _ _ _ _ Hrun). apply ok_mount.
Qed.

(** ** The cursor in doubles *)

Section Rounding.

Import SpecFloat.
Import Double.
Local Open Scope Z_scope.

Lemma digits2_pos_bounds p :
  2 ^ (Zpos (digits2_pos p) - 1) <= Zpos p < 2 ^ Zpos (digits2_pos p).
Proof.
  induction p as [p IH|p IH|]; cbn [digits2_pos].
  - rewrite Pos2Z.inj_succ.
    replace (Z.succ (Z.pos (digits2_pos p)) - 1) with (Z.succ (Z.pos (digits2_pos p) - 1)) by lia.
    rewrite !Z.pow_succ_r by lia. lia.
  - rewrite Pos2Z.inj_succ.
    replace (Z.succ (Z.pos (digits2_pos p)) - 1) with (Z.succ (Z.pos (digits2_pos p) - 1)) by lia.
    rewrite !Z.pow_succ_r by lia. lia.
  - cbn. lia.
Qed.

Lemma digits2_pos_unique p k :
  2 ^ (k - 1) <= Zpos p < 2 ^ k -> Zpos (digits2_pos p) = k.
Proof.
  intros [Hlo Hhi]. pose proof (digits2_pos_bounds p) as [Dlo Dhi].
  set (d := Zpos (digits2_pos p)) in *.
  assert (Hk : 0 < k).
  { destruct (Z.lt_ge_cases 0 k) as [|Hk]; [assumption|].
    destruct (Z.eq_dec k 0) as [->|]; [cbn in Hhi; lia|].
    rewrite (Z.pow_neg_r 2 k) in Hhi by lia. lia. }
  destruct (Z.lt_trichotomy d k) as [Hlt|[Heq|Hgt]]; [|exact Heq|].
  - assert (2 ^ d <= 2 ^ (k - 1)) by (apply Z.pow_le_mono_r; lia). lia.
  - assert (2 ^ k <= 2 ^ (d - 1)) by (apply Z.pow_le_mono_r; lia). lia.
Qed.

Lemma iter_plus {A} (f : A -> A) n m x :
  Nat.iter (n + m) f x = Nat.iter n f (Nat.iter m f x).
Proof.
  induction n as [|n IH]; [reflexivity|].
  rewrite Nat.add_succ_l, !Nat.iter_succ. now rewrite IH.
Qed.

Lemma iter_shift {A} (f : A -> A) n x :
  Nat.iter n f (f x) = f (Nat.iter n f x).
Proof.
  induction n as [|n IH]; [reflexivity|]. rewrite !Nat.iter_succ. now rewrite IH.
Qed.

Lemma iter_pos_nat {A} (f : A -> A) p x :
  iter_pos f p x = Nat.iter (Pos.to_nat p) f x.
Proof.
  revert x. induction p as [p IH|p IH|]; intros x; cbn [iter_pos].
  - rewrite !IH, Pos2Nat.inj_xI.
    replace (S (2 * Pos.to_nat p))%nat with (S (Pos.to_nat p + Pos.to_nat p))%nat by lia.
    rewrite Nat.iter_succ, iter_plus, !iter_shift. reflexivity.
  - rewrite !IH, Pos2Nat.inj_xO.
    replace (2 * Pos.to_nat p)%nat with (Pos.to_nat p + Pos.to_nat p)%nat by lia.
    now rewrite iter_plus.
  - reflexivity.
Qed.

Lemma shifted_shr_1 M P mrs :
  0 < P -> shifted M P mrs -> shifted M (2 * P) (shr_1 mrs).
Proof.
  intros HP (rem & Hm & HM & Hrem & Hloc).
  destruct mrs as [m r s]. cbn [shr_m shr_r shr_s] in *.
  destruct m as [|[p|p|]|p]; try lia; cbn [shr_1 shr_m shr_r shr_s].
  - exists rem. destruct r, s; cbn [located orb shr_m shr_r shr_s] in *; lia.
  - exists (rem + P). destruct r, s; cbn [located orb shr_m shr_r shr_s] in *; lia.
  - exists rem. destruct r, s; cbn [located orb shr_m shr_r shr_s] in *; lia.
  - exists (rem + P). destruct r, s; cbn [located orb shr_m shr_r shr_s] in *; lia.
Qed.

Lemma shifted_iter M P mrs k :
  0 < P -> shifted M P mrs ->
  shifted M (2 ^ Z.of_nat k * P) (Nat.iter k shr_1 mrs).
Proof.
  intros HP H. induction k as [|k IH].
  - change (Nat.iter 0 shr_1 mrs) with mrs. now rewrite Z.pow_0_r, Z.mul_1_l.
  - rewrite Nat.iter_succ, Nat2Z.inj_succ, Z.pow_succ_r by lia.
    rewrite <- Z.mul_assoc. apply shifted_shr_1; [|exact IH].
    assert (0 < 2 ^ Z.of_nat k) by (apply Z.pow_pos_nonneg; lia). nia.
Qed.

Lemma shifted_round M P mrs :
  0 < P -> shifted M P mrs ->
  let m := round_nearest_even (shr_m mrs) (loc_of_shr_record mrs) in
  shr_m mrs <= m <= shr_m mrs + 1
  /\ 2 * Z.abs (m * P - M) <= P.
Proof.
  intros HP (rem & Hm & HM & Hrem & Hloc).
  destruct mrs as [m r s]. cbn [shr_m shr_r shr_s] in *.
  destruct r, s; cbn [located loc_of_shr_record round_nearest_even] in *.
  - split; [lia|]. nia.
  - destruct (Z.even m); split; try lia; nia.
  - split; [lia|]. nia.
  - split; [lia|]. nia.
Qed.

Lemma shr_fexp_pos M e :
  shr_fexp 53 1024 (Zpos M) e loc_Exact
  = match Z.max (Zpos (digits2_pos M) + e - 53) (-1074) - e with
    | Zpos p =>
        (Nat.iter (Pos.to_nat p) shr_1
           {| shr_m := Zpos M; shr_r := false; shr_s := false |},
         e + (Z.max (Zpos (digits2_pos M) + e - 53) (-1074) - e))
    | _ => ({| shr_m := Zpos M; shr_r := false; shr_s := false |}, e)
    end.
Proof.
  unfold shr_fexp, shr, fexp, emin. cbn [Zdigits2 shr_record_of_loc].
  change (3 - 1024 - 53) with (-1074).
  destruct (Z.max (Zpos (digits2_pos M) + e - 53) (-1074) - e);
    rewrite ?iter_pos_nat; reflexivity.
Qed.

Lemma binary_round_aux_pos M e :
  -1074 <= e ->
  binary_round_aux 53 1024 false (Zpos M) e loc_Exact = S754_infinity false
  \/ exists mz ez,
       binary_round_aux 53 1024 false (Zpos M) e loc_Exact
       = S754_finite false mz ez
       /\ e <= ez
       /\ 2 * Z.abs (Zpos mz * 2 ^ (ez - e) - Zpos M) <= 2 ^ (ez - e)
       /\ (e < ez -> 2 ^ 52 <= Zpos mz).
Proof.
  intros He. unfold binary_round_aux. rewrite shr_fexp_pos.
  pose proof (digits2_pos_bounds M) as [Dlo Dhi].
  set (d := Zpos (digits2_pos M)) in *.
  destruct (Z.max (d + e - 53) (-1074) - e) as [|pn|pn] eqn:En.
  - cbn [loc_of_shr_record round_nearest_even shr_m shr_r shr_s].
    rewrite shr_fexp_pos. fold d. rewrite En.
    cbn [shr_m]. destruct (e <=? 1024 - 53); [right|now left].
    exists M, e. split; [reflexivity|]. split; [lia|].
    rewrite Z.sub_diag, Z.pow_0_r. lia.
  - assert (Hn : Zpos pn = d - 53) by lia.
    set (rec1 := Nat.iter (Pos.to_nat pn) shr_1
                   {| shr_m := Zpos M; shr_r := false; shr_s := false |}).
    set (P := 2 ^ Zpos pn).
    assert (HP : 0 < P) by (apply Z.pow_pos_nonneg; lia).
    assert (Hsh : shifted (Zpos M) P rec1).
    { unfold P. replace (2 ^ Zpos pn) with (2 ^ Z.of_nat (Pos.to_nat pn) * 1)
        by (rewrite positive_nat_Z; lia).
      apply shifted_iter; [lia|]. exists 0. cbn [shr_m shr_r shr_s located]. lia. }
    pose proof (shifted_round _ _ _ HP Hsh) as [Hm2 Herr].
    destruct Hsh as (rem & Hm & HM & Hrem & _).
    set (m1 := shr_m rec1) in *.
    set (m2 := round_nearest_even m1 (loc_of_shr_record rec1)) in *.
    assert (HdP : 2 ^ d = 9007199254740992 * P).
    { unfold P. replace d with (53 + Zpos pn) by lia.
      rewrite Z.pow_add_r by lia. reflexivity. }
    assert (HdP' : 2 ^ (d - 1) = 4503599627370496 * P).
    { unfold P. replace (d - 1) with (52 + Zpos pn) by lia.
      rewrite Z.pow_add_r by lia. reflexivity. }
    rewrite HdP in Dhi. rewrite HdP' in Dlo.
    assert (Hm1 : 4503599627370496 <= m1 < 9007199254740992) by nia.
    change (2 ^ 52) with 4503599627370496.
    destruct m2 as [|p2|p2] eqn:Em2; try lia.
    rewrite shr_fexp_pos.
    destruct (Z.eq_dec (Zpos p2) 9007199254740992) as [Hmax|Hless].
    + injection Hmax as ->.
      change (Zpos (digits2_pos 9007199254740992)) with 54.
      replace (Z.max (54 + (e + Zpos pn) - 53) (-1074) - (e + Zpos pn)) with 1
        by lia.
      change (Nat.iter (Pos.to_nat 1) shr_1
                {| shr_m := 9007199254740992; shr_r := false; shr_s := false |})
        with {| shr_m := 4503599627370496; shr_r := false; shr_s := false |}.
      cbn [shr_m].
      destruct (e + Zpos pn + 1 <=? 1024 - 53); [right|now left].
      exists 4503599627370496%positive, (e + Zpos pn + 1).
      split; [reflexivity|]. split; [lia|]. split; [|lia].
      replace (e + Zpos pn + 1 - e) with (Z.succ (Zpos pn)) by lia.
      rewrite Z.pow_succ_r by lia. fold P. lia.
    + assert (Hd2 : Zpos (digits2_pos p2) = 53).
      { apply digits2_pos_unique.
        change (2 ^ (53 - 1)) with 4503599627370496.
        change (2 ^ 53) with 9007199254740992. lia. }
      rewrite Hd2.
      replace (Z.max (53 + (e + Zpos pn) - 53) (-1074) - (e + Zpos pn)) with 0
        by lia.
      cbn [shr_m].
      destruct (e + Zpos pn <=? 1024 - 53); [right|now left].
      exists p2, (e + Zpos pn).
      split; [reflexivity|]. split; [lia|]. split; [|lia].
      replace (e + Zpos pn - e) with (Zpos pn) by lia. fold P. lia.
  - cbn [loc_of_shr_record round_nearest_even shr_m shr_r shr_s].
    rewrite shr_fexp_pos. fold d. rewrite En.
    cbn [shr_m]. destruct (e <=? 1024 - 53); [right|now left].
    exists M, e. split; [reflexivity|]. split; [lia|].
    rewrite Z.sub_diag, Z.pow_0_r. lia.
Qed.

Lemma iter_xO m k : Zpos (Pos.iter xO m k) = Zpos m * 2 ^ Zpos k.
Proof.
  induction k as [|k IH] using Pos.peano_ind.
  - cbn [Pos.iter]. lia.
  - rewrite Pos.iter_succ, Pos2Z.inj_succ, Z.pow_succ_r by lia.
    rewrite Pos2Z.inj_xO, IH. lia.
Qed.

Lemma shl_align_value mx ex ex' :
  snd (shl_align mx ex ex') = Z.min ex ex'
  /\ Zpos (fst (shl_align mx ex ex'))
     = Zpos mx * 2 ^ (ex - Z.min ex ex').
Proof.
  unfold shl_align. destruct (ex' - ex) as [|d|d] eqn:E; cbn [fst snd].
  - split; [lia|]. replace (ex - Z.min ex ex') with 0 by lia. lia.
  - split; [lia|]. replace (ex - Z.min ex ex') with 0 by lia. lia.
  - split; [lia|]. rewrite iter_xO. f_equal. f_equal. lia.
Qed.

Lemma binary_round_pos M e :
  -1074 <= e ->
  binary_round 53 1024 false M e = S754_infinity false
  \/ exists mz ez,
       binary_round 53 1024 false M e = S754_finite false mz ez
       /\ -1074 <= ez
       /\ ((ez <= e /\ Zpos mz = Zpos M * 2 ^ (e - ez))
           \/ (e < ez /\ 2 ^ 52 <= Zpos mz
               /\ 2 * Z.abs (Zpos mz * 2 ^ (ez - e) - Zpos M) <= 2 ^ (ez - e))).
Proof.
  intros He. unfold binary_round.
  pose proof (shl_align_value M e (fexp 53 1024 (Zpos (digits2_pos M) + e)))
    as [He' HM'].
  destruct (shl_align M e (fexp 53 1024 (Zpos (digits2_pos M) + e)))
    as [M' e'] eqn:Eshl.
  cbn [fst snd] in He', HM'.
  assert (Hfexp : -1074 <= fexp 53 1024 (Zpos (digits2_pos M) + e)).
  { unfold fexp, emin. lia. }
  assert (He'' : -1074 <= e') by lia.
  assert (Hle : e' <= e) by lia.
  destruct (binary_round_aux_pos M' e' He'') as [Hinf|(mz & ez & Hz & Hez & Herr & Hbig)];
    [now left|right].
  exists mz, ez. split; [exact Hz|]. split; [lia|].
  rewrite <- He' in HM'.
  destruct (Z.eq_dec ez e') as [->|Hne].
  - left. split; [exact Hle|].
    rewrite Z.sub_diag, Z.pow_0_r in Herr. lia.
  - assert (Hlt : e' < ez) by lia. specialize (Hbig Hlt).
    destruct (Z.le_gt_cases ez e) as [Hcase|Hcase].
    + (* cannot happen unless exact; derive exactness *)
      left. split; [exact Hcase|].
      assert (Hpow : 2 ^ (e - e') = 2 ^ (e - ez) * 2 ^ (ez - e')).
      { rewrite <- Z.pow_add_r by lia. f_equal. lia. }
      assert (HP : 0 < 2 ^ (ez - e')) by (apply Z.pow_pos_nonneg; lia).
      rewrite HM', Hpow in Herr.
      assert (Hint : Zpos mz * 2 ^ (ez - e') - Zpos M * (2 ^ (e - ez) * 2 ^ (ez - e'))
                     = (Zpos mz - Zpos M * 2 ^ (e - ez)) * 2 ^ (ez - e')) by ring.
      rewrite Hint in Herr. nia.
    + right. split; [exact Hcase|]. split; [exact Hbig|].
      assert (Hpow : 2 ^ (ez - e') = 2 ^ (ez - e) * 2 ^ (e - e')).
      { rewrite <- Z.pow_add_r by lia. f_equal. lia. }
      assert (HB : 0 < 2 ^ (e - e')) by (apply Z.pow_pos_nonneg; lia).
      rewrite HM', Hpow in Herr.
      replace (Zpos mz * (2 ^ (ez - e) * 2 ^ (e - e')) - Zpos M * 2 ^ (e - e'))
        with ((Zpos mz * 2 ^ (ez - e) - Zpos M) * 2 ^ (e - e')) in Herr by ring.
      rewrite Z.abs_mul, (Z.abs_eq (2 ^ (e - e'))) in Herr by lia.
      nia.
Qed.

End Rounding.

Section AddRounds.

Import SpecFloat.

Lemma IZR_pow2 k : (0 <= k)%Z -> IZR (2 ^ k) = powerRZ 2 k.
Proof.
  intros Hk. rewrite <- (Z2Nat.id k) by exact Hk.
  rewrite <- pow_IZR, <- pow_powerRZ. reflexivity.
Qed.

Lemma pow2_pos e : 0 < powerRZ 2 e.
Proof. apply powerRZ_lt. lra. Qed.

Lemma pow2_add a b : powerRZ 2 (a + b) = powerRZ 2 a * powerRZ 2 b.
Proof. apply powerRZ_add. lra. Qed.

Lemma toR_shl m e e' :
  (e' <= e)%Z ->
  IZR (Zpos m * 2 ^ (e - e')) * powerRZ 2 e' = IZR (Zpos m) * powerRZ 2 e.
Proof.
  intros H. rewrite mult_IZR, IZR_pow2 by lia.
  rewrite Rmult_assoc, <- pow2_add. f_equal. f_equal. lia.
Qed.

Lemma add_rounds mx ex my ey :
  (-1074 <= ex)%Z -> (-1074 <= ey)%Z ->
  let x := S754_finite false mx ex in
  let y := S754_finite false my ey in
  Double.add x y = S754_infinity false
  \/ (Double.isPositive (Double.add x y) = true
      /\ Rabs (Double.toR (Double.add x y) - (Double.toR x + Double.toR y))
         <= Double.toR (Double.add x y) / IZR (2 ^ 53)).
Proof.
  intros Hex Hey x y. unfold Double.add, Double.prec, Double.emax, x, y.
  cbn [SFadd cond_Zopp].
  destruct (shl_align_value mx ex (Z.min ex ey)) as [_ Hx].
  destruct (shl_align_value my ey (Z.min ex ey)) as [_ Hy].
  replace (Z.min ex (Z.min ex ey)) with (Z.min ex ey) in Hx by lia.
  replace (Z.min ey (Z.min ex ey)) with (Z.min ex ey) in Hy by lia.
  set (e := Z.min ex ey) in *.
  set (a := fst (shl_align mx ex e)) in *.
  set (b := fst (shl_align my ey e)) in *.
  change (Zpos a + Zpos b)%Z with (Zpos (a + b)). cbn [binary_normalize].
  assert (He : (-1074 <= e)%Z) by (unfold e; lia).
  assert (Hsum : IZR (Zpos (a + b)) * powerRZ 2 e
                 = IZR (Zpos mx) * powerRZ 2 ex + IZR (Zpos my) * powerRZ 2 ey).
  { rewrite Pos2Z.inj_add, plus_IZR, Hx, Hy, Rmult_plus_distr_r.
    rewrite !toR_shl by (unfold e; lia). reflexivity. }
  destruct (binary_round_pos (a + b) e He)
    as [Hinf|(mz & ez & Hz & Hez & Hcase)]; [now left|right].
  rewrite Hz. cbn [Double.isPositive Double.toR cond_Zopp].
  split; [now apply Z.leb_le|].
  rewrite <- Hsum.
  assert (HE : 0 < powerRZ 2 e) by apply pow2_pos.
  assert (Hmz : 0 < IZR (Zpos mz)) by (apply IZR_lt; lia).
  change (IZR (2 ^ 53)) with 9007199254740992.
  destruct Hcase as [[Hle Hexact]|(Hlt & Hbig & Herr)].
  - assert (Hval : IZR (Zpos mz) * powerRZ 2 ez = IZR (Zpos (a + b)) * powerRZ 2 e).
    { rewrite Hexact. apply toR_shl. exact Hle. }
    rewrite Hval. replace (_ - _) with 0 by lra. rewrite Rabs_R0.
    rewrite <- Hval. assert (0 < powerRZ 2 ez) by apply pow2_pos. nra.
  - replace ez with ((ez - e) + e)%Z at 1 2 by lia.
    rewrite pow2_add, <- IZR_pow2 by lia.
    set (K := (2 ^ (ez - e))%Z) in *.
    assert (HK : (0 < K)%Z) by (apply Z.pow_pos_nonneg; lia).
    apply IZR_le in Herr. rewrite mult_IZR, abs_IZR, minus_IZR, mult_IZR in Herr.
    apply IZR_le in Hbig. change (IZR (2 ^ 52)) with 4503599627370496 in Hbig.
    apply IZR_lt in HK.
    replace (IZR (Zpos mz) * (IZR K * powerRZ 2 e) - IZR (Zpos (a + b)) * powerRZ 2 e)
      with ((IZR (Zpos mz) * IZR K - IZR (Zpos (a + b))) * powerRZ 2 e) by ring.
    rewrite Rabs_mult, (Rabs_right (powerRZ 2 e)) by lra.
    set (D := Rabs (IZR (Zpos mz) * IZR K - IZR (Zpos (a + b)))) in *.
    assert (HD : 0 <= D) by apply Rabs_pos.
    assert (H1 : D * powerRZ 2 e <= IZR K / 2 * powerRZ 2 e) by nra.
    assert (H2 : IZR K / 2 * powerRZ 2 e
                 <= IZR (Zpos mz) * (IZR K * powerRZ 2 e) / 9007199254740992).
    { assert (0 < IZR K * powerRZ 2 e) by nra. nra. }
    lra.
Qed.

End AddRounds.

Lemma toR_neg m k :
  Double.toR (SpecFloat.S754_finite false m (Zneg k)) = IZR (Zpos m) / IZR (2 ^ Zpos k).
Proof.
  cbn [Double.toR SpecFloat.cond_Zopp]. unfold Rdiv. f_equal.
  rewrite IZR_pow2 by lia.
  change (Zneg k) with (- Zpos k)%Z. rewrite powerRZ_neg'. reflexivity.
Qed.

(** Tactics that compute a double, and a power of two, in place. *)
Ltac double_value x :=
  let v := eval vm_compute in x in
  replace x with v by (vm_compute; reflexivity).

Ltac pow2_value :=
  repeat match goal with
         | |- context [IZR (2 ^ Zpos ?k)] =>
             let v := eval vm_compute in (2 ^ Zpos k)%Z in
             change (2 ^ Zpos k)%Z with v
         end.

Ltac whole_case :=
  match goal with
  | |- Double.toR (Double.ofZ ?z) = _ /\ _ =>
      let tz := eval vm_compute in (Double.ofZ z) in
      let d := eval vm_compute in (Double.secondsPerStep (Double.ofZ z)) in
      let d' := eval vm_compute in (Double.div (Double.ofZ 15) (Double.ofZ z)) in
      replace (Double.secondsPerStep (Double.ofZ z)) with d
        by (vm_compute; reflexivity);
      replace (Double.div (Double.ofZ 15) (Double.ofZ z)) with d'
        by (vm_compute; reflexivity);
      replace (Double.ofZ z) with tz by (vm_compute; reflexivity);
      split; [rewrite toR_neg; pow2_value; lra|];
      split; [reflexivity|];
      split; [reflexivity|];
      rewrite toR_neg; pow2_value; apply Rabs_le; split; lra
  end.

Section WholeTempos.

Import SpecFloat.

Lemma whole_tempo z :
  (60 <= z <= 200)%Z ->
  Double.toR (Double.ofZ z) = IZR z
  /\ Double.secondsPerStep (Double.ofZ z)
     = Double.div (Double.ofZ 15) (Double.ofZ z)
  /\ Double.isPositive (Double.secondsPerStep (Double.ofZ z)) = true
  /\ Rabs (Double.toR (Double.secondsPerStep (Double.ofZ z)) - 15 / IZR z)
     <= 15 / IZR z / IZR (2 ^ 53).
Proof.
  intros Hz.
  assert (Hin : In z (map Z.of_nat (seq 60 141))).
  { apply in_map_iff. exists (Z.to_nat z). split; [lia|]. apply in_seq. lia. }
  cbv [map seq Z.of_nat Pos.of_succ_nat Pos.succ] in Hin.
  repeat (destruct Hin as [<-|Hin]; [whole_case|]).
  contradiction.
Qed.
End WholeTempos.

Section Advances.

Import SpecFloat.

Lemma add_step t d :
  Double.isPositive t = true -> Double.isPositive d = true ->
  Double.add t d = S754_infinity false
  \/ (Double.isPositive (Double.add t d) = true
      /\ Rabs (Double.toR (Double.add t d) - (Double.toR t + Double.toR d))
         <= Double.toR (Double.add t d) / IZR (2 ^ 53)).
Proof.
  intros Ht Hd.
  destruct t as [| | |[|] mt et]; try discriminate.
  destruct d as [| | |[|] md ed]; try discriminate.
  cbn [Double.isPositive] in Ht, Hd. apply Z.leb_le in Ht, Hd.
  now apply add_rounds.
Qed.

Lemma nextNoteTime_iter tempo c N :
  Double.nextNoteTime (Nat.iter N (Double.nextNote tempo) c)
  = Nat.iter N (fun t => Double.add t (Double.secondsPerStep tempo))
      (Double.nextNoteTime c).
Proof.
  induction N as [|N IH]; [reflexivity|].
  rewrite !Nat.iter_succ. cbn [Double.nextNote Double.nextNoteTime].
  now rewrite IH.
Qed.

Lemma advances_bound tempo c T N :
  Double.isPositive (Double.nextNoteTime c) = true ->
  Double.isPositive (Double.secondsPerStep tempo) = true ->
  (forall k, (1 <= k <= N)%nat ->
     Double.isPositive
       (Double.nextNoteTime (Nat.iter k (Double.nextNote tempo) c)) = true
     /\ Double.toR (Double.nextNoteTime (Nat.iter k (Double.nextNote tempo) c))
        <= T) ->
  Rabs (Double.toR (Double.nextNoteTime (Nat.iter N (Double.nextNote tempo) c))
        - (Double.toR (Double.nextNoteTime c)
           + INR N * Double.toR (Double.secondsPerStep tempo)))
  <= INR N * (T / IZR (2 ^ 53)).
Proof.
  intros Hc Hd. induction N as [|N IH]; intros Hall.
  - change (Nat.iter 0 (Double.nextNote tempo) c) with c. cbn [INR].
    replace (_ - _) with 0 by lra. rewrite Rabs_R0. lra.
  - assert (IH' := IH (fun k Hk => Hall k (conj (proj1 Hk) (Nat.le_trans _ _ _ (proj2 Hk) (Nat.le_succ_diag_r N))))).
    clear IH.
    destruct (Hall (S N) (conj (le_n_S _ _ (Nat.le_0_l N)) (le_n _))) as [Hpos HT].
    assert (HposN : Double.isPositive
              (Double.nextNoteTime (Nat.iter N (Double.nextNote tempo) c)) = true).
    { destruct N as [|N]; [exact Hc|].
      apply (Hall (S N)). lia. }
    rewrite Nat.iter_succ in Hpos, HT |- *.
    cbn [Double.nextNote Double.nextNoteTime] in Hpos, HT |- *.
    set (tN := Double.nextNoteTime (Nat.iter N (Double.nextNote tempo) c)) in *.
    set (d := Double.secondsPerStep tempo) in *.
    destruct (add_step tN d HposN Hd) as [Hinf|[_ Hstep]].
    { rewrite Hinf in Hpos. discriminate. }
    rewrite S_INR.
    change (IZR (2 ^ 53)) with 9007199254740992 in *.
    replace (Double.toR (Double.add tN d)
             - (Double.toR (Double.nextNoteTime c) + (INR N + 1) * Double.toR d))
      with ((Double.toR (Double.add tN d) - (Double.toR tN + Double.toR d))
            + (Double.toR tN
               - (Double.toR (Double.nextNoteTime c) + INR N * Double.toR d)))
      by ring.
    eapply Rle_trans; [apply Rabs_triang|]. lra.
Qed.

End Advances.

Section CursorInDoubles.

Import SpecFloat.

(** C6, as stated, fails on the doubles of the code.  At tempo 100, from
    the start time 0.05 (the first step of a session started at time 0),
    three advances leave the cursor on the double 0.5, which is neither the
    start time plus three times 15/100 nor the start time plus three times
    the double step duration; already the first advance is not the exact sum
    of the cursor and the step duration. *)
Lemma C6_counterexample :
  let tempo := Double.ofZ 100 in
  let c := {| Double.nextNoteTime := Double.div (Double.ofZ 5) (Double.ofZ 100);
              Double.currentStepRef := 0 |} in
  Double.toR tempo = 100
  /\ Double.nextNoteTime (Nat.iter 3 (Double.nextNote tempo) c)
     = S754_finite false 4503599627370496 (-53)
  /\ ~ Spec.advancesExactly tempo c 3
  /\ ~ Spec.advancesExactly tempo c 1
  /\ Double.toR (Double.nextNoteTime (Nat.iter 3 (Double.nextNote tempo) c))
     <> Double.toR (Double.nextNoteTime c)
        + 3 * Double.toR (Double.secondsPerStep tempo)
  /\ Double.toR (Double.nextNoteTime (Double.nextNote tempo c))
     <> Double.toR (Double.nextNoteTime c)
        + Double.toR (Double.secondsPerStep tempo).
Proof.
  intros tempo c. unfold Spec.advancesExactly.
  double_value (Double.nextNoteTime (Nat.iter 3 (Double.nextNote tempo) c)).
  double_value (Double.nextNoteTime (Nat.iter 1 (Double.nextNote tempo) c)).
  double_value (Double.nextNoteTime (Double.nextNote tempo c)).
  double_value (Double.secondsPerStep tempo).
  double_value (Double.nextNoteTime c).
  double_value tempo.
  rewrite !toR_neg. pow2_value. cbn [INR].
  split; [lra|]. split; [reflexivity|].
  split; [intros H; lra|]. split; [intros H; lra|].
  split; intros H; lra.
Qed.

(** C6, amended.  One advance of the cursor moves [currentStepRef] to
    [(currentStepRef + 1) mod 16], which stays within [0,15] and is 0 after
    15, in every run of the application, and sets [nextNoteTime] to the double
    nearest to the sum of [nextNoteTime] and the step duration, the double
    [(60 / tempo) / 4] for the tempo read at that advance.  The sum is exact
    up to that one rounding: while the cursor is finite and positive the new
    time differs from the exact sum by at most [2^-53] of the new time, and
    [N] advances at a fixed tempo that stay at or below [T] differ from
    [nextNoteTime + N * secondsPerStep] by at most [N * T * 2^-53].  For the
    whole-number tempos 60 to 200 of the tempo slider the step duration is the
    double of [15 / tempo], within [2^-53] of it in proportion, so that the
    cursor of the code stays within [N * (T + 15/tempo) * 2^-53] of the cursor
    in exact arithmetic. *)
Theorem C6_cursor_advance_rounded :
  (forall tempo c,
      (0 <= Double.currentStepRef c <= 15)%Z ->
      Double.currentStepRef (Double.nextNote tempo c)
      = ((Double.currentStepRef c + 1) mod 16)%Z
      /\ (0 <= Double.currentStepRef (Double.nextNote tempo c) <= 15)%Z
      /\ (Double.currentStepRef c = 15%Z ->
          Double.currentStepRef (Double.nextNote tempo c) = 0%Z))
  /\ (forall fuel p pat now evs b,
        App.run fuel (App.mount p pat now) evs b ->
        (0 <= App.currentStepRef b <= 15)%Z)
  /\ (forall tempo c,
        Double.isPositive (Double.nextNoteTime c) = true ->
        Double.isPositive (Double.secondsPerStep tempo) = true ->
        let c' := Double.nextNote tempo c in
        Double.nextNoteTime c' = S754_infinity false
        \/ (Double.isPositive (Double.nextNoteTime c') = true
            /\ Rabs (Double.toR (Double.nextNoteTime c')
                     - (Double.toR (Double.nextNoteTime c)
                        + Double.toR (Double.secondsPerStep tempo)))
               <= Double.toR (Double.nextNoteTime c') / IZR (2 ^ 53)))
  /\ (forall tempo1 tempo2 c,
        Double.nextNoteTime (Double.nextNote tempo2 (Double.nextNote tempo1 c))
        = Double.add
            (Double.add (Double.nextNoteTime c) (Double.secondsPerStep tempo1))
            (Double.secondsPerStep tempo2))
  /\ (forall tempo c T N,
        Double.isPositive (Double.nextNoteTime c) = true ->
        Double.isPositive (Double.secondsPerStep tempo) = true ->
        (forall k, (1 <= k <= N)%nat ->
           Double.isPositive
             (Double.nextNoteTime (Nat.iter k (Double.nextNote tempo) c)) = true
           /\ Double.toR
                (Double.nextNoteTime (Nat.iter k (Double.nextNote tempo) c))
              <= T) ->
        Rabs (Double.toR
                (Double.nextNoteTime (Nat.iter N (Double.nextNote tempo) c))
              - (Double.toR (Double.nextNoteTime c)
                 + INR N * Double.toR (Double.secondsPerStep tempo)))
        <= INR N * (T / IZR (2 ^ 53)))
  /\ (forall z,
        (60 <= z <= 200)%Z ->
        Double.toR (Double.ofZ z) = IZR z
        /\ Double.secondsPerStep (Double.ofZ z)
           = Double.div (Double.ofZ 15) (Double.ofZ z)
        /\ Double.isPositive (Double.secondsPerStep (Double.ofZ z)) = true
        /\ Rabs (Double.toR (Double.secondsPerStep (Double.ofZ z)) - 15 / IZR z)
           <= 15 / IZR z / IZR (2 ^ 53))
  /\ (forall a z c T N,
        (60 <= z <= 200)%Z ->
        tempo (App.paramsRef a) = IZR z ->
        Double.toR (Double.nextNoteTime c) = App.nextNoteTime a ->
        Double.isPositive (Double.nextNoteTime c) = true ->
        (forall k, (1 <= k <= N)%nat ->
           Double.isPositive
             (Double.nextNoteTime
                (Nat.iter k (Double.nextNote (Double.ofZ z)) c)) = true
           /\ Double.toR
                (Double.nextNoteTime
                   (Nat.iter k (Double.nextNote (Double.ofZ z)) c))
              <= T) ->
        Rabs (Double.toR
                (Double.nextNoteTime
                   (Nat.iter N (Double.nextNote (Double.ofZ z)) c))
              - App.nextNoteTime (Nat.iter N App.nextNote a))
        <= INR N * ((T + 15 / IZR z) / IZR (2 ^ 53))).
Proof.
  split; [|split; [|split; [|split; [|split; [|split]]]]].
  - intros tempo c Hc. cbn [Double.nextNote Double.currentStepRef].
    unfold STEPS_PER_BAR. rewrite Z.rem_mod_nonneg by lia.
    split; [reflexivity|]. split.
    + pose proof (Z.mod_pos_bound (Double.currentStepRef c + 1) 16). lia.
    + intros ->. reflexivity.
  - intros fuel p pat now evs b Hrun.
    apply (ok_run _ _ _ _ Hrun). apply ok_mount.
  - intros tempo c Hc Hd c'. unfold c'.
    cbn [Double.nextNote Double.nextNoteTime]. now apply add_step.
  - intros tempo1 tempo2 c. reflexivity.
  - intros tempo c T N. apply advances_bound.
  - exact whole_tempo.
  - intros a z c T N Hz Htempo Hstart Hc Hall.
    destruct (whole_tempo z Hz) as (_ & _ & Hd & Hnear).
    pose proof (advances_bound (Double.ofZ z) c T N Hc Hd Hall) as Hsum.
    destruct (nextNote_iter N a) as [_ Hexact].
    rewrite Hexact. unfold App.secondsPerStep. rewrite Htempo, <- Hstart.
    set (d := Double.toR (Double.secondsPerStep (Double.ofZ z))) in *.
    set (tN := Double.toR
                 (Double.nextNoteTime
                    (Nat.iter N (Double.nextNote (Double.ofZ z)) c))) in *.
    set (t0 := Double.toR (Double.nextNoteTime c)) in *.
    assert (Hz' : 0 < IZR z) by (apply IZR_lt; lia).
    replace (60 / IZR z / 4) with (15 / IZR z) by (field; lra).
    change (IZR (2 ^ 53)) with 9007199254740992 in *.
    replace (tN - (t0 + INR N * (15 / IZR z)))
      with ((tN - (t0 + INR N * d)) + INR N * (d - 15 / IZR z)) by ring.
    eapply Rle_trans; [apply Rabs_triang|].
    rewrite Rabs_mult, (Rabs_right (INR N)) by (apply Rle_ge, pos_INR).
    pose proof (pos_INR N) as HN.
    assert (H2 : INR N * Rabs (d - 15 / IZR z)
                 <= INR N * (15 / IZR z / 9007199254740992)).
    { apply Rmult_le_compat_l; [exact HN|exact Hnear]. }
    lra.
Qed.

(** Three advances at tempo 100 from 0.05, the cursor staying at or below
    one half. *)
Lemma C6_witness :
  let tempo := Double.ofZ 100 in
  let c := {| Double.nextNoteTime := Double.div (Double.ofZ 5) (Double.ofZ 100);
              Double.currentStepRef := 0 |} in
  Rabs (Double.toR (Double.nextNoteTime (Nat.iter 3 (Double.nextNote tempo) c))
        - (Double.toR (Double.nextNoteTime c)
           + INR 3 * Double.toR (Double.secondsPerStep tempo)))
  <= INR 3 * (1 / 2 / IZR (2 ^ 53)).
Proof.
  intros tempo c.
  apply (proj1 (proj2 (proj2 (proj2 (proj2 C6_cursor_advance_rounded))))
           tempo c (1 / 2) 3%nat).
  - reflexivity.
  - reflexivity.
  - intros k Hk.
    assert (Hcases : k = 1%nat \/ k = 2%nat \/ k = 3%nat) by lia.
    destruct Hcases as [->|[->| ->]].
    + double_value (Double.nextNoteTime (Nat.iter 1 (Double.nextNote tempo) c)).
      split; [reflexivity|]. rewrite toR_neg. pow2_value. lra.
    + double_value (Double.nextNoteTime (Nat.iter 2 (Double.nextNote tempo) c)).
      split; [reflexivity|]. rewrite toR_neg. pow2_value. lra.
    + double_value (Double.nextNoteTime (Nat.iter 3 (Double.nextNote tempo) c)).
      split; [reflexivity|]. rewrite toR_neg. pow2_value. lra.
Defined.

End CursorInDoubles.

(** ** Published snapshots *)

Section Snapshots.

Import App Inv.






End Snapshots.

Ltac evaluate :=
  cbv - [Rplus Rmult Rminus Rdiv Rinv Ropp IZR Rmax Rmin Rlt_dec Rle_dec Rpower
         Rlt Rle].

Lemma step_fire_id fuel a n tm a' :
  find (fun tm' => Nat.eqb (App.id tm') n) (App.timers a) = Some tm ->
  App.due tm <= App.wallClock a ->
  App.runTask fuel (App.task tm) (App.clearTimeout n a) = Done a' ->
  App.step fuel a (App.Fire n) a'.
Proof.
  intros Hfind Hdue Hrun. apply find_some in Hfind as [Hin Hid].
  apply Nat.eqb_eq in Hid. subst n. now apply App.step_fire with (tm := tm).
Qed.

(** The earlier variant decides a step from the values its closure holds,
    whatever has been published since. *)
Remark V1_reads_captured params pattern stepNumber time a f newPattern step :
  App.at_index pattern stepNumber = Some step ->
  exists a',
    AppV1.scheduleNote params pattern stepNumber time
      (App.setPattern newPattern (App.setParams f a)) = Done a'
    /\ App.audioEngine a'
       = AudioEngine.scheduleStep step
           (App.at_index pattern (Z.rem (stepNumber + 1) STEPS_PER_BAR))
           time params (60 / tempo params / 4) (App.audioEngine a).
Proof.
  intros Hstep. unfold AppV1.scheduleNote. rewrite Hstep.
  destruct (active step); eexists; split; reflexivity.
Qed.




(** ** The oscillator *)








(** The oscillator of that session: created by Start, released by Stop. *)
Lemma C5_session :
  exists b1 b2,
    App.run 1 (App.mount Sample.params120 Sample.oneNote 0) [App.Start] b1
    /\ Spec.voice (App.audioEngine b1) = (Some (0 + 5 / 100), 1%nat)
    /\ App.run 1 b1 [App.Stop] b2
    /\ Spec.voice (App.audioEngine b2) = (None, 1%nat).
Proof.
  eexists. eexists. split; [|split; [|split]].
  - eapply App.run_cons; [apply App.step_start|apply App.run_nil].
    evaluate.
    rewrite Rlt_dec_true by lra. rewrite Rlt_dec_false by lra.
    reflexivity.
  - reflexivity.
  - eapply App.run_cons; [apply App.step_stop|apply App.run_nil].
  - reflexivity.
Qed.

(** ** Stop and the pending MIDI timers *)

(** C1 at a failing input.  One note on step 0, tempo 120, output [out]
    selected.  Start schedules the note for 50 ms later and hands its Note On
    to a timer; Stop after 10 ms cancels the scheduler tick and sends the 128
    Note Offs of the panic, but the Note On timer stays pending; when it comes
    due the transport is Stopped, the Note On for note 36 goes out after the
    panic, and a timer for its Note Off is pending. *)
Theorem C1_note_on_after_stop :
  exists b,
    App.run 1 (App.mount Sample.params120 Sample.oneNote 0)
      [App.MidiReady (Some ["out"%string]); App.SelectOutput "out";
       App.Start; App.Tick (1 / 100); App.Stop; App.Tick (4 / 100);
       App.Fire 2] b
    /\ App.playState b = STOPPED
    /\ MidiService.sent (App.midiService b)
       = MidiService.allNotesOff "out" ++ [("out"%string, [144; 36; 100]%Z)]
    /\ exists tm, In tm (App.timers b) /\ App.task tm = App.midiNoteOff 36.
Proof.
  eexists. split; [|split; [|split]].
  - eapply App.run_cons; [apply App.step_midi|].
    eapply App.run_cons; [apply App.step_output|].
    eapply App.run_cons.
    { apply App.step_start. evaluate.
      rewrite Rlt_dec_true by lra. rewrite Rlt_dec_false by lra.
      reflexivity. }
    eapply App.run_cons; [apply App.step_tick; lra|].
    eapply App.run_cons; [apply App.step_stop|].
    eapply App.run_cons; [apply App.step_tick; lra|].
    eapply App.run_cons; [|apply App.run_nil].
    eapply step_fire_id.
    + evaluate. reflexivity.
    + evaluate. unfold Rmax.
      repeat destruct (Rle_dec _ _); lra.
    + evaluate. reflexivity.
  - reflexivity.
  - vm_compute. reflexivity.
  - eexists. split; [right; left; reflexivity|reflexivity].
Qed.

(** * Further properties of the services, the transport and the panel *)

(** ** What goes out on the MIDI port *)

Section MidiOut.

Import App.

Lemma wellFormed_noteOn note velocity :
  Wire.wellFormed [144; Z.max 0 (Z.min 127 note); Z.max 0 (Z.min 127 velocity)]%Z.
Proof.
  exists (Z.max 0 (Z.min 127 note)), (Z.max 0 (Z.min 127 velocity)).
  split; [lia|]. split; [lia|]. now left.
Qed.

Lemma wellFormed_noteOff note :
  Wire.wellFormed [128; Z.max 0 (Z.min 127 note); 0]%Z.
Proof.
  exists (Z.max 0 (Z.min 127 note)), 0%Z.
  split; [lia|]. split; [lia|]. now right.
Qed.

Lemma wellFormed_allNotesOff port :
  Forall (fun pm => Wire.wellFormed (snd pm)) (MidiService.allNotesOff port).
Proof.
  unfold MidiService.allNotesOff. apply Forall_forall. intros pm Hin.
  apply in_map_iff in Hin as (i & <- & Hi). apply in_seq in Hi.
  exists (Z.of_nat i), 0%Z. cbn [snd].
  split; [lia|]. split; [lia|]. now right.
Qed.

Lemma appended_refl m : Wire.appended m m.
Proof.
  exists []. rewrite app_nil_r.
  split; [reflexivity|]. split; [constructor|]. repeat split.
Qed.

Lemma appended_sendNoteOn note velocity m :
  Wire.appended m (MidiService.sendNoteOn note velocity m).
Proof.
  unfold MidiService.sendNoteOn. destruct (MidiService.output m) eqn:E.
  - exists [(s, [144; Z.max 0 (Z.min 127 note); Z.max 0 (Z.min 127 velocity)]%Z)].
    split; [reflexivity|]. split; [|split; [congruence|split; reflexivity]].
    repeat constructor. apply wellFormed_noteOn.
  - apply appended_refl.
Qed.

Lemma appended_sendNoteOff note m :
  Wire.appended m (MidiService.sendNoteOff note m).
Proof.
  unfold MidiService.sendNoteOff. destruct (MidiService.output m) eqn:E.
  - exists [(s, [128; Z.max 0 (Z.min 127 note); 0]%Z)].
    split; [reflexivity|]. split; [|split; [congruence|split; reflexivity]].
    repeat constructor. apply wellFormed_noteOff.
  - apply appended_refl.
Qed.

Lemma appended_stopAll m : Wire.appended m (MidiService.stopAll m).
Proof.
  unfold MidiService.stopAll. destruct (MidiService.output m) eqn:E.
  - exists (MidiService.allNotesOff s).
    split; [reflexivity|]. split; [|split; [congruence|split; reflexivity]].
    apply wellFormed_allNotesOff.
  - apply appended_refl.
Qed.

Lemma midi_scheduler fuel a a' :
  scheduler fuel a = Done a' -> midiService a' = midiService a.
Proof.
  intros H. apply scheduler_done in H as (a1 & Hloop & ->).
  pose proof (Inv.frame_midi _ _ (frame_schedulerLoop _ _ _ Hloop)) as M.
  now destruct (isPlayingRef a1).
Qed.

(** Every step of the application appends to what was sent, unless it is
    about the port itself, and then nothing is sent. *)
Lemma sent_step fuel a ev a' :
  step fuel a ev a' ->
  match ev with
  | MidiReady _ | SelectOutput _ =>
      MidiService.sent (midiService a') = MidiService.sent (midiService a)
  | _ => Wire.appended (midiService a) (midiService a')
  end.
Proof.
  intros Hstep. destruct Hstep.
  - apply appended_refl.
  - destruct (task tm); cbn [runTask] in H1.
    + apply midi_scheduler in H1. rewrite H1. apply appended_refl.
    + injection H1 as <-. apply appended_refl.
    + injection H1 as <-. apply appended_sendNoteOn.
    + injection H1 as <-. apply appended_sendNoteOff.
  - unfold startSequencer in H. destruct (playState a).
    + apply bind_done in H as (a4 & H4 & H). injection H as <-.
      apply midi_scheduler in H4. cbn in *. rewrite H4. apply appended_refl.
    + injection H as <-. apply appended_refl.
  - unfold stopSequencer. cbn [set_loop timerID].
    destruct (timerID a) as [[|n]|]; apply appended_stopAll.
  - apply appended_refl.
  - apply appended_refl.
  - cbn. now destruct access.
  - reflexivity.
Qed.

End MidiOut.

Section MidiRuns.

Import App.

Lemma sent_run fuel a evs b :
  run fuel a evs b ->
  exists new,
    MidiService.sent (midiService b) = MidiService.sent (midiService a) ++ new
    /\ Forall (fun pm => Wire.wellFormed (snd pm)) new.
Proof.
  induction 1 as [a|a ev a1 evs a2 Hstep _ (new2 & E2 & W2)].
  - exists []. now rewrite app_nil_r.
  - apply sent_step in Hstep.
    assert (H1 : exists new1,
               MidiService.sent (midiService a1)
               = MidiService.sent (midiService a) ++ new1
               /\ Forall (fun pm => Wire.wellFormed (snd pm)) new1).
    { destruct ev; try (destruct Hstep as (new1 & E1 & W1 & _); eauto);
        exists []; now rewrite app_nil_r. }
    destruct H1 as (new1 & E1 & W1).
    exists (new1 ++ new2). rewrite E2, E1, app_assoc. split; [reflexivity|].
    apply Forall_app. now split.
Qed.

(** Every message the application ever passes to an output port is a Note On
    [0x90, note, velocity] or a Note Off [0x80, note, 0] with both data bytes
    within 0..127, and what has been sent is never altered afterwards: a run
    only appends to it. *)
Theorem midi_messages_well_formed fuel p pat now evs1 evs2 b1 b2 :
  App.run fuel (App.mount p pat now) evs1 b1 ->
  App.run fuel b1 evs2 b2 ->
  Forall (fun pm => Wire.wellFormed (snd pm)) (MidiService.sent (midiService b1))
  /\ exists new,
       MidiService.sent (midiService b2)
       = MidiService.sent (midiService b1) ++ new.
Proof.
  intros H1 H2. split.
  - destruct (sent_run _ _ _ _ H1) as (new & E & W). now rewrite E.
  - destruct (sent_run _ _ _ _ H2) as (new & E & _). eauto.
Qed.

Lemma output_no_access m :
  MidiService.midiAccess m = None -> MidiService.output m = None.
Proof. intros H. unfold MidiService.output. now rewrite H. Qed.

Lemma output_no_selection m :
  MidiService.selectedOutputId m = None
  \/ MidiService.selectedOutputId m = Some EmptyString ->
  MidiService.output m = None.
Proof.
  intros [H|H]; unfold MidiService.output; rewrite H;
    now destruct (MidiService.midiAccess m).
Qed.

Lemma silent_step fuel a ev a' :
  step fuel a ev a' ->
  MidiService.output (midiService a) = None ->
  MidiService.sent (midiService a') = MidiService.sent (midiService a).
Proof.
  intros Hstep Hout. apply sent_step in Hstep.
  destruct ev; try exact Hstep;
    destruct Hstep as (new & E & _ & Hnone & _);
    rewrite E, (Hnone Hout); apply app_nil_r.
Qed.

Lemma selection_step fuel a ev a' :
  step fuel a ev a' ->
  match ev with
  | MidiReady access =>
      MidiService.midiAccess (midiService a')
      = match access with
        | Some outputs => Some outputs
        | None => MidiService.midiAccess (midiService a)
        end
      /\ MidiService.selectedOutputId (midiService a')
         = MidiService.selectedOutputId (midiService a)
  | SelectOutput port =>
      MidiService.midiAccess (midiService a') = MidiService.midiAccess (midiService a)
      /\ MidiService.selectedOutputId (midiService a') = Some port
  | _ =>
      MidiService.midiAccess (midiService a') = MidiService.midiAccess (midiService a)
      /\ MidiService.selectedOutputId (midiService a')
         = MidiService.selectedOutputId (midiService a)
  end.
Proof.
  intros Hstep. pose proof (sent_step _ _ _ _ Hstep) as Hs.
  destruct ev; try (destruct Hs as (_ & _ & _ & _ & H1 & H2); now split).
  - inversion Hstep; subst. cbn. now destruct access.
  - inversion Hstep; subst. now split.
Qed.

Lemma silent_run fuel a evs b :
  run fuel a evs b ->
  (MidiService.midiAccess (midiService a) = None /\ Wire.neverGranted evs)
  \/ ((MidiService.selectedOutputId (midiService a) = None
       \/ MidiService.selectedOutputId (midiService a) = Some EmptyString)
      /\ Wire.neverSelected evs) ->
  MidiService.sent (midiService b) = MidiService.sent (midiService a).
Proof.
  induction 1 as [a|a ev a1 evs a2 Hstep _ IH]; [reflexivity|].
  intros Hq.
  assert (Hout : MidiService.output (midiService a) = None).
  { destruct Hq as [[H _]|[H _]];
      [now apply output_no_access | now apply output_no_selection]. }
  rewrite <- (silent_step _ _ _ _ Hstep Hout). apply IH.
  pose proof (selection_step _ _ _ _ Hstep) as Hsel.
  destruct Hq as [[Ha Hg]|[Hs Hn]]; [left|right].
  - inversion Hg as [|? ? Hev Hrest]; subst. split; [|exact Hrest].
    destruct ev; try (destruct Hsel as [-> _]; exact Ha).
    destruct access; [contradiction|]. destruct Hsel as [-> _]. exact Ha.
  - inversion Hn as [|? ? Hev Hrest]; subst. split; [|exact Hrest].
    destruct ev; try (destruct Hsel as [_ ->]; exact Hs).
    destruct Hsel as [_ ->]. right. now rewrite Hev.
Qed.

(** Without a port nothing is sent and nothing fails: in a run in which MIDI
    access is never granted, or in which no output but the placeholder entry
    of the selector (the empty identifier) is ever chosen, the Note On, Note
    Off and panic calls all return without sending. *)
Theorem no_port_nothing_sent fuel p pat now evs b :
  App.run fuel (App.mount p pat now) evs b ->
  Wire.neverGranted evs \/ Wire.neverSelected evs ->
  MidiService.sent (midiService b) = [].
Proof.
  intros Hrun Hq. apply (silent_run _ _ _ _ Hrun).
  destruct Hq; [left|right]; split; auto.
Qed.

End MidiRuns.

(** The panic after access was granted and [out] selected, twice. *)
Lemma midi_messages_well_formed_witness :
  exists b1 b2,
    App.run 0 (App.mount Sample.params120 Sample.oneNote 0)
      [App.MidiReady (Some ["out"%string]); App.SelectOutput "out"; App.Stop] b1
    /\ App.run 0 b1 [App.Stop] b2
    /\ Forall (fun pm => Wire.wellFormed (snd pm))
         (MidiService.sent (App.midiService b1)).
Proof.
  assert (H : exists b1 b2,
             App.run 0 (App.mount Sample.params120 Sample.oneNote 0)
               [App.MidiReady (Some ["out"%string]); App.SelectOutput "out";
                App.Stop] b1
             /\ App.run 0 b1 [App.Stop] b2).
  { eexists. eexists. split.
    - eapply App.run_cons; [apply App.step_midi|].
      eapply App.run_cons; [apply App.step_output|].
      eapply App.run_cons; [apply App.step_stop|apply App.run_nil].
    - eapply App.run_cons; [apply App.step_stop|apply App.run_nil]. }
  destruct H as (b1 & b2 & H1 & H2). exists b1, b2.
  split; [exact H1|]. split; [exact H2|].
  exact (proj1 (midi_messages_well_formed _ _ _ _ _ _ _ _ H1 H2)).
Defined.

(** Stop on a freshly mounted application: no access, nothing selected. *)
Lemma no_port_nothing_sent_witness :
  exists b,
    App.run 0 (App.mount Sample.params120 Sample.oneNote 0) [App.Stop] b
    /\ Wire.neverGranted [App.Stop]
    /\ MidiService.sent (App.midiService b) = [].
Proof.
  assert (H : App.run 0 (App.mount Sample.params120 Sample.oneNote 0) [App.Stop]
                (App.stopSequencer (App.mount Sample.params120 Sample.oneNote 0))).
  { eapply App.run_cons; [apply App.step_stop|apply App.run_nil]. }
  assert (G : Wire.neverGranted [App.Stop]) by (repeat constructor).
  eexists. split; [exact H|]. split; [exact G|].
  exact (no_port_nothing_sent _ _ _ _ _ _ H (or_introl G)).
Defined.

(** ** Stop *)

Section Stop.

Import App.

Lemma filter_idem {A} (f : A -> bool) l : filter f (filter f l) = filter f l.
Proof.
  induction l as [|x l IH]; [reflexivity|]. cbn [filter].
  destruct (f x) eqn:E; [|exact IH]. cbn [filter]. now rewrite E, IH.
Qed.

Lemma ctx_stop e : AudioEngine.ctx (AudioEngine.stop e) = AudioEngine.ctx e.
Proof. unfold AudioEngine.stop. now destruct (AudioEngine.osc e). Qed.

Lemma ampGain_stop e :
  AudioEngine.ampGain (AudioEngine.stop e)
  = setValue 0 (call (cancelScheduledValues (currentTime (AudioEngine.ctx e)))
                     (AudioEngine.ampGain e)).
Proof. unfold AudioEngine.stop. now destruct (AudioEngine.osc e). Qed.

(** [stop] twice is [stop] once. *)
Lemma stop_idem e : AudioEngine.stop (AudioEngine.stop e) = AudioEngine.stop e.
Proof.
  unfold AudioEngine.stop at 1. rewrite osc_stop, ctx_stop, ampGain_stop.
  unfold AudioEngine.stop. destruct (AudioEngine.osc e);
    cbn [AudioEngine.set_ampGain AudioEngine.set_osc AudioEngine.ctx
         AudioEngine.masterGain AudioEngine.osc AudioEngine.oscCreated
         AudioEngine.filterFrequency AudioEngine.filterQ AudioEngine.ampGain
         AudioEngine.isPlaying setValue call value events];
    now rewrite filter_idem.
Qed.

Lemma In_allNotesOff port n :
  (0 <= n <= 127)%Z -> In (port, [128; n; 0]%Z) (MidiService.allNotesOff port).
Proof.
  intros Hn. unfold MidiService.allNotesOff. apply in_map_iff.
  exists (Z.to_nat n). rewrite Z2Nat.id by lia. split; [reflexivity|].
  apply in_seq. lia.
Qed.

(** Stop, from any state: the transport is Stopped and the step highlight
    cleared; the scheduler tick named by [timerID] is no longer pending; the
    engine has no oscillator, its gain is 0 and no automation is left on the
    gain from the current time on; with a port available the 128 Note Offs of
    the panic are appended to what was sent, one for every note 0..127 in
    ascending order, and without a port nothing is sent. *)
Theorem stop_silences a :
  let b := App.stopSequencer a in
  App.playState b = STOPPED
  /\ App.currentStep b = (-1)%Z
  /\ App.isPlayingRef b = false
  /\ (forall tm, In tm (App.timers b) ->
                 In tm (App.timers a)
                 /\ forall n, App.timerID a = Some (S n) -> App.id tm <> S n)
  /\ AudioEngine.osc (App.audioEngine b) = None
  /\ value (AudioEngine.ampGain (App.audioEngine b)) = 0
  /\ Spec.fromTime (App.ctxTime a)
       (AudioEngine.timeline AudioEngine.ampGain_gain (App.audioEngine b)) = []
  /\ match MidiService.output (App.midiService a) with
     | Some port =>
         MidiService.sent (App.midiService b)
         = MidiService.sent (App.midiService a)
           ++ map (fun i => (port, [128; Z.of_nat i; 0]%Z)) (seq 0 128)
         /\ forall n, (0 <= n <= 127)%Z ->
                      In (port, [128; n; 0]%Z) (MidiService.sent (App.midiService b))
     | None => MidiService.sent (App.midiService b)
               = MidiService.sent (App.midiService a)
     end.
Proof.
  intros b. subst b. unfold stopSequencer. cbn [set_loop timerID].
  assert (Hm : forall a1, midiService a1 = midiService a ->
             match MidiService.output (midiService a) with
             | Some port =>
                 MidiService.sent (MidiService.stopAll (midiService a1))
                 = MidiService.sent (midiService a)
                   ++ map (fun i => (port, [128; Z.of_nat i; 0]%Z)) (seq 0 128)
                 /\ forall n, (0 <= n <= 127)%Z ->
                      In (port, [128; n; 0]%Z)
                         (MidiService.sent (MidiService.stopAll (midiService a1)))
             | None => MidiService.sent (MidiService.stopAll (midiService a1))
                       = MidiService.sent (midiService a)
             end).
  { intros a1 ->. unfold MidiService.stopAll.
    destruct (MidiService.output (midiService a)) as [port|]; [|reflexivity].
    cbn [MidiService.sent]. split; [reflexivity|].
    intros n Hn. apply in_or_app. right. now apply In_allNotesOff. }
  assert (He : forall e,
             AudioEngine.osc (AudioEngine.stop e) = None
             /\ value (AudioEngine.ampGain (AudioEngine.stop e)) = 0
             /\ Spec.fromTime (currentTime (AudioEngine.ctx e))
                  (AudioEngine.timeline AudioEngine.ampGain_gain
                     (AudioEngine.stop e)) = []).
  { intros e. split; [apply osc_stop|].
    unfold AudioEngine.timeline. cbn [AudioEngine.paramOf].
    rewrite ampGain_stop. cbn [setValue call value events].
    split; [reflexivity|apply fromTime_before]. }
  destruct (He (audioEngine a)) as (He1 & He2 & He3).
  destruct (timerID a) as [[|n]|] eqn:Hid;
    (split; [reflexivity|]); (split; [reflexivity|]); (split; [reflexivity|]);
    (split; [|split; [exact He1|split; [exact He2|split; [exact He3|]]]]);
    try (apply Hm; reflexivity).
  - intros tm Hin. split; [exact Hin|]. intros n Hn. discriminate Hn.
  - intros tm Hin. apply In_clearTimeout in Hin as [Hin Hne].
    split; [exact Hin|]. intros k Hk. injection Hk as <-. exact Hne.
  - intros tm Hin. split; [exact Hin|]. intros n Hn. discriminate Hn.
Qed.

Lemma app_ext a b :
  params a = params b -> pattern a = pattern b -> playState a = playState b ->
  currentStep a = currentStep b -> nextNoteTime a = nextNoteTime b ->
  currentStepRef a = currentStepRef b -> timerID a = timerID b ->
  isPlayingRef a = isPlayingRef b -> paramsRef a = paramsRef b ->
  patternRef a = patternRef b -> audioEngine a = audioEngine b ->
  midiService a = midiService b -> wallClock a = wallClock b ->
  timers a = timers b -> nextTimerId a = nextTimerId b -> a = b.
Proof. destruct a, b. cbn. intros. subst. reflexivity. Qed.

Lemma timers_stopSequencer a :
  timers (stopSequencer a)
  = match timerID a with
    | Some (S n) => filter (fun tm => negb (Nat.eqb (id tm) (S n))) (timers a)
    | _ => timers a
    end.
Proof.
  unfold stopSequencer. cbn [set_loop timerID].
  now destruct (timerID a) as [[|n]|].
Qed.

Lemma fields_stopSequencer a :
  params (stopSequencer a) = params a
  /\ pattern (stopSequencer a) = pattern a
  /\ playState (stopSequencer a) = STOPPED
  /\ currentStep (stopSequencer a) = (-1)%Z
  /\ nextNoteTime (stopSequencer a) = nextNoteTime a
  /\ currentStepRef (stopSequencer a) = currentStepRef a
  /\ timerID (stopSequencer a) = timerID a
  /\ isPlayingRef (stopSequencer a) = false
  /\ paramsRef (stopSequencer a) = paramsRef a
  /\ patternRef (stopSequencer a) = patternRef a
  /\ audioEngine (stopSequencer a) = AudioEngine.stop (audioEngine a)
  /\ midiService (stopSequencer a) = MidiService.stopAll (midiService a)
  /\ wallClock (stopSequencer a) = wallClock a
  /\ nextTimerId (stopSequencer a) = nextTimerId a.
Proof.
  unfold stopSequencer. cbn [set_loop timerID].
  destruct (timerID a) as [[|n]|]; repeat split.
Qed.

(** A second Stop right after the first changes nothing but what was sent:
    it performs the panic once more. *)
Theorem stop_twice a :
  App.stopSequencer (App.stopSequencer a)
  = App.set_services
      (App.audioEngine (App.stopSequencer a))
      (MidiService.stopAll (App.midiService (App.stopSequencer a)))
      (App.stopSequencer a).
Proof.
  pose proof (fields_stopSequencer a)
    as (A1 & A2 & A3 & A4 & A5 & A6 & A7 & A8 & A9 & A10 & A11 & A12 & A13 & A14).
  pose proof (timers_stopSequencer a) as A15.
  remember (stopSequencer a) as s1 eqn:Hs1. clear Hs1.
  pose proof (fields_stopSequencer s1)
    as (B1 & B2 & B3 & B4 & B5 & B6 & B7 & B8 & B9 & B10 & B11 & B12 & B13 & B14).
  pose proof (timers_stopSequencer s1) as B15.
  remember (stopSequencer s1) as s2 eqn:Hs2. clear Hs2.
  apply app_ext;
    cbn [set_services params pattern playState currentStep nextNoteTime
         currentStepRef timerID isPlayingRef paramsRef patternRef audioEngine
         midiService wallClock timers nextTimerId].
  - exact B1.
  - exact B2.
  - now rewrite B3, A3.
  - now rewrite B4, A4.
  - exact B5.
  - exact B6.
  - exact B7.
  - now rewrite B8, A8.
  - exact B9.
  - exact B10.
  - rewrite B11, A11. apply stop_idem.
  - exact B12.
  - exact B13.
  - rewrite B15, A7, A15.
    destruct (timerID a) as [[|n]|]; try reflexivity. apply filter_idem.
  - exact B14.
Qed.

End Stop.

(** ** The look-ahead window *)

Section LookAhead.

Import App.

(** The loop invariant rule with the loop test at hand; the negated test
    holds on exit. *)
Lemma schedulerLoop_rule (P : t -> Prop) :
  (forall b b1,
      nextNoteTime b < ctxTime b + SCHEDULE_AHEAD_TIME ->
      scheduleNote (currentStepRef b) (nextNoteTime b) b = Done b1 ->
      P b -> P (nextNote b1)) ->
  forall fuel a a',
    schedulerLoop fuel a = Done a' -> P a ->
    P a' /\ ctxTime a' + SCHEDULE_AHEAD_TIME <= nextNoteTime a'.
Proof.
  intros Hbody. induction fuel as [|fuel IH]; intros a a' H Pa.
  - cbn [schedulerLoop] in H. destruct (Rlt_dec _ _); [discriminate|].
    injection H as <-. split; [exact Pa|lra].
  - cbn [schedulerLoop] in H. destruct (Rlt_dec _ _) as [Hlt|Hge].
    + apply bind_done in H as (a1 & H1 & H2).
      apply (IH _ _ H2). now apply (Hbody _ _ Hlt H1).
    + injection H as <-. split; [exact Pa|lra].
Qed.

Lemma Rmax_0_window x : x < 100 -> 0 <= Rmax 0 x < 100.
Proof. intros H. unfold Rmax. destruct (Rle_dec 0 x); lra. Qed.

Lemma secondsPerStep_pos p : 0 < tempo p -> 0 < secondsPerStep p.
Proof.
  intros H. unfold secondsPerStep.
  apply Rdiv_lt_0_compat; [apply Rdiv_lt_0_compat|]; lra.
Qed.

(** One run of the [while] loop of [scheduler].  When it returns, the next
    step to schedule lies at or beyond the end of the 100 ms window: every
    step due inside the window has been scheduled.  Every timer it has
    created is due no earlier than now and less than 100 ms from now, and the
    timers that were pending are all still there.  With a positive tempo the
    cursor time has not moved backwards. *)
Theorem lookahead_window fuel a a' :
  App.schedulerLoop fuel a = Done a' ->
  App.ctxTime a' + 1 / 10 <= App.nextNoteTime a'
  /\ (exists new,
         App.timers a' = App.timers a ++ new
         /\ Forall (fun tm => App.wallClock a <= App.due tm
                              < App.wallClock a + 100) new)
  /\ (0 < tempo (App.paramsRef a) -> App.nextNoteTime a <= App.nextNoteTime a').
Proof.
  intros H.
  pose (P := fun b =>
          wallClock b = wallClock a
          /\ paramsRef b = paramsRef a
          /\ (exists new,
                 timers b = timers a ++ new
                 /\ Forall (fun tm => wallClock a <= due tm < wallClock a + 100) new)
          /\ (0 < tempo (paramsRef a) -> nextNoteTime a <= nextNoteTime b)).
  assert (HP : P a' /\ ctxTime a' + SCHEDULE_AHEAD_TIME <= nextNoteTime a').
  { apply (schedulerLoop_rule P) with (fuel := fuel) (a := a); [|exact H|].
    - intros b b1 Hlt Hb (Hw & Hp & (new & Ht & Hd) & Hmono).
      destruct (scheduleNote_step _ _ _ _ Hb) as [step Hstep].
      destruct (scheduleNote_done b (currentStepRef b) (nextNoteTime b) step Hstep)
        as (b2 & Hrun & _ & Ht2 & _ & _ & Hw2 & _ & Hl & Hf).
      rewrite Hrun in Hb. injection Hb as <-.
      inversion Hl. inversion Hf.
      assert (Hdelay : (nextNoteTime b - ctxTime b) * 1000 < 100)
        by (unfold SCHEDULE_AHEAD_TIME in Hlt; lra).
      pose proof (Rmax_0_window _ Hdelay) as Hr.
      assert (Hr2 : 0 <= Rmax 0 (Rmax 0 ((nextNoteTime b - ctxTime b) * 1000)) < 100)
        by (apply Rmax_0_window; lra).
      unfold P. cbn [nextNote set_cursor wallClock paramsRef timers nextNoteTime].
      split; [congruence|]. split; [congruence|]. split.
      + eexists. rewrite Ht2, Ht, <- app_assoc. split; [reflexivity|].
        apply Forall_app. split; [exact Hd|].
        destruct (active step).
        * constructor; [cbn [due]; lra|].
          constructor; [cbn [due]; lra|constructor].
        * constructor; [cbn [due]; lra|constructor].
      + intros Htempo. specialize (Hmono Htempo).
        pose proof (secondsPerStep_pos (paramsRef a) Htempo) as Hpos.
        assert (E1 : nextNoteTime b2 = nextNoteTime b) by congruence.
        assert (E2 : paramsRef b2 = paramsRef a) by congruence.
        rewrite E1, E2. lra.
    - unfold P. split; [reflexivity|]. split; [reflexivity|]. split.
      + exists []. now rewrite app_nil_r.
      + intros _. lra. }
  destruct HP as ((_ & _ & Hnew & Hmono) & Hexit).
  unfold SCHEDULE_AHEAD_TIME in Hexit. now repeat split.
Qed.

(** One iteration at tempo 120, right after a start at time 0. *)
Lemma lookahead_window_witness :
  exists a',
    App.schedulerLoop 1
      (App.set_cursor (5 / 100) 0 (App.mount Sample.params120 Sample.oneNote 0))
    = Done a'
    /\ App.ctxTime a' + 1 / 10 <= App.nextNoteTime a'.
Proof.
  assert (H : exists a',
             App.schedulerLoop 1
               (App.set_cursor (5 / 100) 0
                  (App.mount Sample.params120 Sample.oneNote 0))
             = Done a').
  { eexists. evaluate.
    rewrite Rlt_dec_true by lra. rewrite Rlt_dec_false by lra. reflexivity. }
  destruct H as (a' & H). exists a'. split; [exact H|].
  exact (proj1 (lookahead_window _ _ _ H)).
Defined.

End LookAhead.

(** ** Start *)

Section Start.

Import App.

Lemma Rmax_0_pos x : 0 <= x -> Rmax 0 x = x.
Proof. intros H. unfold Rmax. destruct (Rle_dec 0 x); lra. Qed.

Lemma ctx_resume e :
  currentTime (AudioEngine.ctx (AudioEngine.resume e))
  = currentTime (AudioEngine.ctx e)
  /\ state (AudioEngine.ctx (AudioEngine.resume e)) = running.
Proof.
  unfold AudioEngine.resume.
  destruct (state (AudioEngine.ctx e)) eqn:E; cbn; now rewrite ?E.
Qed.

(** Start from Stopped.  The rendering clock runs; the first step scheduled
    is step 0, 50 ms from now, whatever the cursor was before; the next
    scheduler tick is pending, due in 25 ms, with its handle in [timerID];
    the transport is Playing; the timers that were pending are untouched in
    front of the new ones. *)
Theorem start_from_step_zero fuel a a' :
  App.playState a = STOPPED ->
  App.startSequencer fuel a = Done a' ->
  exists step rest tid,
    App.at_index (App.patternRef a) 0 = Some step
    /\ App.timers a'
       = App.timers a
         ++ {| App.id := App.nextTimerId a; App.due := App.wallClock a + 50;
               App.task := App.uiSetCurrentStep 0 |} :: rest
    /\ In {| App.id := tid; App.due := App.wallClock a + 25;
             App.task := App.runScheduler |} (App.timers a')
    /\ App.timerID a' = Some tid
    /\ App.playState a' = PLAYING
    /\ App.isPlayingRef a' = true
    /\ state (AudioEngine.ctx (App.audioEngine a')) = running.
Proof.
  intros Hstopped H. unfold startSequencer in H. rewrite Hstopped in H.
  apply bind_done in H as (a4 & H4 & H). injection H as <-.
  set (a3 := set_cursor _ 0%Z _) in H4.
  destruct (ctx_resume (audioEngine a)) as [Hnow Hrun].
  apply scheduler_done in H4 as (a1 & Hloop & ->).
  pose proof (frame_schedulerLoop _ _ _ Hloop) as [R L F M C X N _].
  assert (Hguard : nextNoteTime a3 < ctxTime a3 + SCHEDULE_AHEAD_TIME).
  { unfold a3, ctxTime, SCHEDULE_AHEAD_TIME.
    cbn [set_cursor set_loop set_services nextNoteTime audioEngine]. lra. }
  destruct fuel as [|fuel].
  { cbn [schedulerLoop] in Hloop. rewrite Rlt_dec_true in Hloop by exact Hguard.
    discriminate. }
  rewrite schedulerLoop_continue in Hloop by exact Hguard.
  apply bind_done in Hloop as (b1 & Hb1 & Hrest).
  destruct (scheduleNote_step _ _ _ _ Hb1) as [step Hstep].
  destruct (scheduleNote_done a3 (currentStepRef a3) (nextNoteTime a3) step Hstep)
    as (b2 & Hrun2 & _ & Ht2 & _).
  rewrite Hrun2 in Hb1. injection Hb1 as <-.
  destruct (frame_schedulerLoop _ _ _ Hrest) as [_ _ _ _ _ _ _ (new & Tnew & _)].
  inversion L as [[Hid Hplaying]]. cbn in Hplaying. rewrite Hplaying.
  assert (Hdelay : Rmax 0 ((nextNoteTime a3 - ctxTime a3) * 1000) = 50).
  { unfold a3, ctxTime.
    cbn [set_cursor set_loop set_services nextNoteTime audioEngine].
    rewrite Rmax_0_pos; lra. }
  exists step, ((if active step
                 then [{| id := S (nextTimerId a3);
                          due := wallClock a3
                                 + Rmax 0 (Rmax 0 ((nextNoteTime a3 - ctxTime a3) * 1000));
                          task := midiNoteOn (36 + note step + octave step * 12)
                                    (velocityOf step) step
                                    (secondsPerStep (paramsRef a3)) |}]
                 else []) ++ new
                ++ [{| id := nextTimerId a1; due := wallClock a1 + Rmax 0 LOOKAHEAD;
                       task := runScheduler |}]), (nextTimerId a1).
  split; [exact Hstep|].
  cbn [setPlayState set_react set_loop setTimeout snd set_timers timers timerID
       playState isPlayingRef audioEngine].
  split.
  - rewrite Tnew. cbn [nextNote set_cursor timers]. rewrite Ht2, Hdelay.
    cbn [a3 set_cursor set_loop set_services timers nextTimerId wallClock].
    rewrite <- !app_assoc. reflexivity.
  - split.
    + apply in_or_app. right. left. f_equal.
      rewrite C. unfold LOOKAHEAD. rewrite Rmax_0_pos by lra. reflexivity.
    + repeat split. rewrite X. cbn [a3 set_cursor set_loop set_services audioEngine].
      exact Hrun.
Qed.

(** Start on a freshly mounted application at tempo 120. *)
Lemma start_from_step_zero_witness :
  exists a',
    App.playState (App.mount Sample.params120 Sample.oneNote 0) = STOPPED
    /\ App.startSequencer 1 (App.mount Sample.params120 Sample.oneNote 0) = Done a'
    /\ App.timerID a' <> None.
Proof.
  assert (H : exists a',
             App.startSequencer 1 (App.mount Sample.params120 Sample.oneNote 0)
             = Done a').
  { eexists. evaluate.
    rewrite Rlt_dec_true by lra. rewrite Rlt_dec_false by lra. reflexivity. }
  destruct H as (a' & H). exists a'. split; [reflexivity|]. split; [exact H|].
  destruct (start_from_step_zero 1
              (App.mount Sample.params120 Sample.oneNote 0) a' eq_refl H)
    as (step & rest & tid & _ & _ & _ & Hid & _).
  rewrite Hid. discriminate.
Defined.

End Start.

(** ** The tick returns, or throws *)

Section TickOutcome.

Import App.

Lemma schedulerLoop_more_fuel n :
  forall a a' k, schedulerLoop n a = Done a' -> schedulerLoop (n + k) a = Done a'.
Proof.
  induction n as [|n IH]; intros a a' k H.
  - cbn [schedulerLoop] in H. destruct (Rlt_dec _ _) as [Hlt|Hge]; [discriminate|].
    injection H as <-. apply schedulerLoop_exit. lra.
  - cbn [schedulerLoop] in H. destruct (Rlt_dec _ _) as [Hlt|Hge].
    + change (S n + k)%nat with (S (n + k)).
      rewrite schedulerLoop_continue by exact Hlt.
      apply bind_done in H as (a1 & H1 & H2). rewrite H1. cbn [bind].
      now apply IH.
    + injection H as <-. apply schedulerLoop_exit. lra.
Qed.

(** With a pattern of 16 steps, the cursor on one of them and a positive
    tempo, a scheduler tick returns: it does not throw, and some bound on the
    iterations of its loop is enough; a larger bound gives the same state. *)
Theorem scheduler_returns a :
  0 < tempo (App.paramsRef a) ->
  List.length (App.patternRef a) = 16%nat ->
  (0 <= App.currentStepRef a <= 15)%Z ->
  exists fuel a',
    App.scheduler fuel a = Done a'
    /\ forall k, App.scheduler (fuel + k) a = Done a'.
Proof.
  intros Ht Hlen Hc.
  destruct (schedulerLoop_terminates a Ht Hlen Hc) as (fuel & a1 & H).
  assert (Hk : forall k, exists a', scheduler (fuel + k) a = Done a'
                                    /\ scheduler fuel a = Done a').
  { intros k. unfold scheduler.
    rewrite (schedulerLoop_more_fuel _ _ _ k H), H. cbn [bind].
    destruct (isPlayingRef a1); eexists; split; reflexivity. }
  destruct (Hk 0%nat) as (a' & _ & H0). exists fuel, a'. split; [exact H0|].
  intros k. destruct (Hk k) as (a'' & Hk1 & Hk2). congruence.
Qed.

Lemma scheduler_returns_witness :
  0 < tempo (App.paramsRef (App.mount Sample.params120 Sample.oneNote 0))
  /\ List.length (App.patternRef (App.mount Sample.params120 Sample.oneNote 0))
     = 16%nat
  /\ (0 <= App.currentStepRef (App.mount Sample.params120 Sample.oneNote 0) <= 15)%Z
  /\ exists fuel a',
       App.scheduler fuel (App.mount Sample.params120 Sample.oneNote 0) = Done a'.
Proof.
  assert (H1 : 0 < tempo (App.paramsRef (App.mount Sample.params120 Sample.oneNote 0)))
    by (cbn; lra).
  assert (H2 : (0 <= App.currentStepRef
                       (App.mount Sample.params120 Sample.oneNote 0) <= 15)%Z)
    by (cbn; lia).
  split; [exact H1|]. split; [reflexivity|]. split; [exact H2|].
  destruct (scheduler_returns _ H1 eq_refl H2) as (fuel & a' & H & _).
  exists fuel, a'. exact H.
Defined.

(** With the cursor on an index the pattern does not have, a step that is
    due makes [scheduleNote] throw, and the tick with it: the scheduler timer
    is not armed again. *)
Theorem scheduler_throws fuel a :
  App.at_index (App.patternRef a) (App.currentStepRef a) = None ->
  App.nextNoteTime a < App.ctxTime a + 1 / 10 ->
  App.scheduleNote (App.currentStepRef a) (App.nextNoteTime a) a = Throws
  /\ App.scheduler (S fuel) a = Throws.
Proof.
  intros Hnone Hdue.
  assert (H : scheduleNote (currentStepRef a) (nextNoteTime a) a = Throws).
  { unfold scheduleNote. cbn [setTimeout snd set_timers patternRef].
    now rewrite Hnone. }
  split; [exact H|]. unfold scheduler.
  rewrite schedulerLoop_continue by exact Hdue. now rewrite H.
Qed.

(** An empty pattern, a step due. *)
Lemma scheduler_throws_witness :
  App.at_index (App.patternRef (App.set_cursor 0 0 (App.mount Sample.params120 [] 0)))
    0 = None
  /\ App.scheduler 1 (App.set_cursor 0 0 (App.mount Sample.params120 [] 0)) = Throws.
Proof.
  split; [reflexivity|].
  apply (scheduler_throws 0 (App.set_cursor 0 0 (App.mount Sample.params120 [] 0))
           eq_refl).
  cbn. lra.
Defined.

End TickOutcome.

(** ** Timer handles and the single scheduler tick *)

Section Handles.

Import App.

Lemma extends_refl a : Wire.extends a a.
Proof.
  split; [lia|]. exists []. rewrite app_nil_r.
  repeat split; constructor.
Qed.

Lemma extends_trans a b c : Wire.extends a b -> Wire.extends b c -> Wire.extends a c.
Proof.
  intros (N1 & n1 & T1 & D1 & B1) (N2 & n2 & T2 & D2 & B2).
  split; [lia|]. exists (n1 ++ n2). split; [now rewrite T2, T1, app_assoc|].
  rewrite Forall_forall in B1, B2. split.
  - rewrite map_app. apply NoDup_app; [exact D1|exact D2|].
    intros x H1 H2. apply in_map_iff in H1 as (t1 & <- & H1).
    apply in_map_iff in H2 as (t2 & E & H2).
    specialize (B1 _ H1). specialize (B2 _ H2). lia.
  - apply Forall_forall. intros tm Hin. apply in_app_or in Hin as [Hin|Hin].
    + specialize (B1 _ Hin). lia.
    + specialize (B2 _ Hin). lia.
Qed.

Lemma extends_same a b :
  timers b = timers a -> nextTimerId b = nextTimerId a -> Wire.extends a b.
Proof.
  intros T N. split; [lia|]. exists []. rewrite app_nil_r.
  repeat split; [exact T|constructor|constructor].
Qed.

Lemma extends_setTimeout k delay a :
  Wire.extends a (snd (setTimeout k delay a)).
Proof.
  cbn [setTimeout snd]. split; [cbn; lia|].
  eexists. split; [reflexivity|]. split.
  - cbn. constructor; [intros []|constructor].
  - repeat constructor; cbn; lia.
Qed.

Lemma extends_scheduleNote a i time a' :
  scheduleNote i time a = Done a' -> Wire.extends a a'.
Proof.
  intros H. destruct (scheduleNote_step _ _ _ _ H) as [step Hstep].
  destruct (scheduleNote_done a i time step Hstep)
    as (a1 & Hrun & _ & Ht & Hn & _).
  rewrite Hrun in H. injection H as <-.
  split; [rewrite Hn; destruct (active step); lia|].
  eexists. split; [exact Ht|]. rewrite Hn.
  destruct (active step); cbn [map id]; split.
  - constructor; [intros [H|[]]; lia|]. constructor; [intros []|constructor].
  - repeat constructor; cbn; lia.
  - constructor; [intros []|constructor].
  - repeat constructor; cbn; lia.
Qed.

Lemma extends_schedulerLoop fuel a a' :
  schedulerLoop fuel a = Done a' -> Wire.extends a a'.
Proof.
  intros H.
  apply (schedulerLoop_ind (Wire.extends a)) with (fuel := fuel) (a := a);
    [|exact H|apply extends_refl].
  intros b i time b' Hb Eb. eapply extends_trans; [exact Eb|].
  eapply extends_trans; [apply (extends_scheduleNote _ _ _ _ Hb)|].
  now apply extends_same.
Qed.

Lemma extends_scheduler fuel a a' :
  scheduler fuel a = Done a' -> Wire.extends a a'.
Proof.
  intros H. apply scheduler_done in H as (a1 & Hloop & ->).
  pose proof (extends_schedulerLoop _ _ _ Hloop) as E.
  destruct (isPlayingRef a1); [|exact E].
  eapply extends_trans; [exact E|].
  eapply extends_trans; [apply (extends_setTimeout runScheduler LOOKAHEAD)|].
  now apply extends_same.
Qed.

Lemma extends_runTask fuel k a a' :
  runTask fuel k a = Done a' -> Wire.extends a a'.
Proof.
  intros H. destruct k; cbn [runTask] in H.
  - eapply extends_scheduler; eassumption.
  - injection H as <-. now apply extends_same.
  - injection H as <-.
    apply (extends_trans a
             (set_services (audioEngine a)
                (MidiService.sendNoteOn baseNote velocity (midiService a)) a)).
    + now apply extends_same.
    + exact (extends_setTimeout (midiNoteOff baseNote) _
               (set_services (audioEngine a)
                  (MidiService.sendNoteOn baseNote velocity (midiService a)) a)).
  - injection H as <-. now apply extends_same.
Qed.

Lemma handlesOk_extends a b :
  Wire.handlesOk a -> Wire.extends a b -> Wire.handlesOk b.
Proof.
  intros (D & B) (N & new & T & Dn & Bn). rewrite Forall_forall in Bn.
  split.
  - rewrite T, map_app. apply NoDup_app; [exact D|exact Dn|].
    intros x H1 H2. apply in_map_iff in H1 as (t1 & <- & H1).
    apply in_map_iff in H2 as (t2 & E & H2).
    specialize (B _ H1). specialize (Bn _ H2). lia.
  - intros tm Hin. rewrite T in Hin. apply in_app_or in Hin as [Hin|Hin].
    + specialize (B _ Hin). lia.
    + specialize (Bn _ Hin). lia.
Qed.

Lemma NoDup_map_filter {A B} (g : A -> B) (f : A -> bool) l :
  NoDup (map g l) -> NoDup (map g (filter f l)).
Proof.
  induction l as [|x l IH]; [auto|]. cbn [map filter]. intros H.
  inversion H as [|? ? Hx Hl]; subst. destruct (f x); [|auto].
  cbn [map]. constructor; [|auto].
  intros Hin. apply Hx. apply in_map_iff in Hin as (y & E & Hy).
  apply filter_In in Hy as [Hy _]. apply in_map_iff. eauto.
Qed.

Lemma handlesOk_clearTimeout n a :
  Wire.handlesOk a -> Wire.handlesOk (clearTimeout n a).
Proof.
  intros (D & B). split.
  - cbn [clearTimeout timers set_timers]. now apply NoDup_map_filter.
  - intros tm Hin. apply In_clearTimeout in Hin as [Hin _].
    cbn [clearTimeout nextTimerId set_timers]. now apply B.
Qed.

Lemma handlesOk_same a b :
  timers b = timers a -> nextTimerId b = nextTimerId a ->
  Wire.handlesOk a -> Wire.handlesOk b.
Proof. intros T N H. unfold Wire.handlesOk. now rewrite T, N. Qed.

Lemma handlesOk_step fuel a ev a' :
  step fuel a ev a' -> Wire.handlesOk a -> Wire.handlesOk a'.
Proof.
  intros Hstep H. destruct Hstep.
  - now apply (handlesOk_same a).
  - apply (handlesOk_clearTimeout (id tm)) in H.
    eapply handlesOk_extends; [exact H|]. eapply extends_runTask; eassumption.
  - unfold startSequencer in H0. destruct (playState a).
    + apply bind_done in H0 as (a4 & H4 & H0). injection H0 as <-.
      apply extends_scheduler in H4.
      apply (handlesOk_same a4); try reflexivity.
      eapply handlesOk_extends; [|exact H4].
      now apply (handlesOk_same a).
    + now injection H0 as <-.
  - unfold stopSequencer. cbn [set_loop timerID].
    destruct (timerID a) as [[|n]|].
    + now apply (handlesOk_same a).
    + apply (handlesOk_same (clearTimeout (S n) a)); try reflexivity.
      now apply handlesOk_clearTimeout.
    + now apply (handlesOk_same a).
  - now apply (handlesOk_same a).
  - now apply (handlesOk_same a).
  - now apply (handlesOk_same a).
  - now apply (handlesOk_same a).
Qed.

Lemma handlesOk_run fuel a evs b :
  run fuel a evs b -> Wire.handlesOk a -> Wire.handlesOk b.
Proof.
  induction 1 as [|a ev a1 evs a2 Hstep _ IH]; [auto|].
  intros H. apply IH. eapply handlesOk_step; eassumption.
Qed.

Lemma at_most_one {A} (g : A -> nat) (f : A -> bool) k l :
  NoDup (map g l) ->
  (forall x, In x l -> f x = true -> g x = k) ->
  (List.length (filter f l) <= 1)%nat.
Proof.
  induction l as [|x l IH]; intros D H; [cbn; lia|].
  inversion D as [|? ? Hx Dl]; subst. cbn [filter].
  assert (Hl : forall y, In y l -> f y = true -> g y = k)
    by (intros y Hy; apply H; now right).
  destruct (f x) eqn:E; [|now apply IH].
  assert (Hnil : filter f l = []).
  { destruct (filter f l) as [|y r] eqn:F; [reflexivity|]. exfalso.
    assert (Hy : In y (filter f l)) by (rewrite F; now left).
    apply filter_In in Hy as [Hy Fy]. apply Hx.
    rewrite (H x (or_introl eq_refl) E), <- (Hl y Hy Fy).
    now apply in_map. }
  rewrite Hnil. cbn. lia.
Qed.

(** In every run of the application the handles of the pending timers are
    pairwise different and below the next handle to be given out, at most
    one scheduler tick is pending, and one is pending only while the
    transport is Playing, with its handle in [timerID]: starting, stopping
    and starting again never leaves two scheduler loops running. *)
Theorem single_scheduler_tick fuel p pat now evs b :
  App.run fuel (App.mount p pat now) evs b ->
  NoDup (map App.id (App.timers b))
  /\ (forall tm, In tm (App.timers b) -> (App.id tm < App.nextTimerId b)%nat)
  /\ (List.length (filter Wire.isTick (App.timers b)) <= 1)%nat
  /\ (forall tm, In tm (App.timers b) -> Wire.isTick tm = true ->
                 App.playState b = PLAYING /\ App.timerID b = Some (App.id tm)).
Proof.
  intros Hrun.
  assert (H0 : Wire.handlesOk (mount p pat now)).
  { split; [constructor|intros tm []]. }
  destruct (handlesOk_run _ _ _ _ Hrun H0) as (D & B).
  destruct (ok_run _ _ _ _ Hrun (ok_mount p pat now)) as (_ & (_ & Ht) & _).
  assert (Htick : forall tm, In tm (timers b) -> Wire.isTick tm = true ->
                             playState b = PLAYING /\ timerID b = Some (id tm)).
  { intros tm Hin Htm. unfold Wire.isTick in Htm.
    destruct (task tm) eqn:E; try discriminate.
    destruct (Ht tm Hin E) as (H1 & H2 & _). now split. }
  split; [exact D|]. split; [exact B|]. split; [|exact Htick].
  destruct (timerID b) as [k|] eqn:Hid.
  - apply (at_most_one id Wire.isTick k); [exact D|].
    intros tm Hin Htm. destruct (Htick tm Hin Htm) as [_ H]. congruence.
  - apply (at_most_one id Wire.isTick 0%nat); [exact D|].
    intros tm Hin Htm. destruct (Htick tm Hin Htm) as [_ H]. discriminate.
Qed.

End Handles.

(** Start, Stop, Start on a pattern with one note. *)
Lemma single_scheduler_tick_witness :
  exists b,
    App.run 1 (App.mount Sample.params120 Sample.oneNote 0)
      [App.Start; App.Stop; App.Start] b
    /\ (List.length (filter Wire.isTick (App.timers b)) <= 1)%nat.
Proof.
  assert (H : exists b,
             App.run 1 (App.mount Sample.params120 Sample.oneNote 0)
               [App.Start; App.Stop; App.Start] b).
  { eexists.
    eapply App.run_cons.
    { apply App.step_start. evaluate.
      rewrite Rlt_dec_true by lra. rewrite Rlt_dec_false by lra. reflexivity. }
    eapply App.run_cons; [apply App.step_stop|].
    eapply App.run_cons; [|apply App.run_nil].
    apply App.step_start. evaluate.
    rewrite Rlt_dec_true by lra. rewrite Rlt_dec_false by lra. reflexivity. }
  destruct H as (b & H). exists b. split; [exact H|].
  exact (proj1 (proj2 (proj2 (single_scheduler_tick _ _ _ _ _ _ H)))).
Defined.

(** ** A pattern of rests *)

Section Rests.

Import App.

Lemma at_index_In {A} (l : list A) i x : at_index l i = Some x -> In x l.
Proof.
  unfold at_index. destruct (i <? 0)%Z; [discriminate|]. apply nth_error_In.
Qed.

Lemma engine_rest step nextStep time params d e :
  active step = false ->
  let e' := AudioEngine.scheduleStep step nextStep time params d e in
  AudioEngine.osc e' = AudioEngine.osc e
  /\ AudioEngine.oscCreated e' = AudioEngine.oscCreated e
  /\ AudioEngine.filterFrequency e' = AudioEngine.filterFrequency e
  /\ AudioEngine.filterQ e' = AudioEngine.filterQ e
  /\ AudioEngine.timeline AudioEngine.ampGain_gain e'
     = AudioEngine.timeline AudioEngine.ampGain_gain e
       ++ [setTargetAtTime 0 time (1 / 100)].
Proof. intros H e'. subst e'. rewrite scheduleStep_inactive by exact H. repeat split. Qed.

(** While every step of the published pattern is inactive, a run of the
    scheduler loop creates no oscillator and schedules nothing on the
    oscillator or the filter; on the gain it only adds approaches to zero;
    the only timers it creates move the step highlight, so no Note On is ever
    handed to the timers. *)
Theorem rests_are_silent fuel a a' :
  Forall (fun s => active s = false) (App.patternRef a) ->
  App.schedulerLoop fuel a = Done a' ->
  AudioEngine.osc (App.audioEngine a') = AudioEngine.osc (App.audioEngine a)
  /\ AudioEngine.oscCreated (App.audioEngine a')
     = AudioEngine.oscCreated (App.audioEngine a)
  /\ AudioEngine.filterFrequency (App.audioEngine a')
     = AudioEngine.filterFrequency (App.audioEngine a)
  /\ AudioEngine.filterQ (App.audioEngine a')
     = AudioEngine.filterQ (App.audioEngine a)
  /\ (exists closing,
         AudioEngine.timeline AudioEngine.ampGain_gain (App.audioEngine a')
         = AudioEngine.timeline AudioEngine.ampGain_gain (App.audioEngine a)
           ++ closing
         /\ Forall (fun c => exists t, c = setTargetAtTime 0 t (1 / 100)) closing)
  /\ (exists new,
         App.timers a' = App.timers a ++ new
         /\ Forall (fun tm => exists n, App.task tm = App.uiSetCurrentStep n) new).
Proof.
  intros Hrests H.
  pose (P := fun b =>
          patternRef b = patternRef a
          /\ AudioEngine.osc (audioEngine b) = AudioEngine.osc (audioEngine a)
          /\ AudioEngine.oscCreated (audioEngine b)
             = AudioEngine.oscCreated (audioEngine a)
          /\ AudioEngine.filterFrequency (audioEngine b)
             = AudioEngine.filterFrequency (audioEngine a)
          /\ AudioEngine.filterQ (audioEngine b)
             = AudioEngine.filterQ (audioEngine a)
          /\ (exists closing,
                 AudioEngine.timeline AudioEngine.ampGain_gain (audioEngine b)
                 = AudioEngine.timeline AudioEngine.ampGain_gain (audioEngine a)
                   ++ closing
                 /\ Forall (fun c => exists t, c = setTargetAtTime 0 t (1 / 100))
                           closing)
          /\ (exists new,
                 timers b = timers a ++ new
                 /\ Forall (fun tm => exists n, task tm = uiSetCurrentStep n) new)).
  assert (HP : P a').
  { apply (schedulerLoop_ind P) with (fuel := fuel) (a := a); [|exact H|].
    - intros b i time b1 Hb (Hpat & Ho & Hc & Hf & Hq & (cl & Hg & Hcl) & (new & Ht & Hn)).
      destruct (scheduleNote_step _ _ _ _ Hb) as [step Hstep].
      destruct (scheduleNote_done b i time step Hstep)
        as (b2 & Hrun & He & Ht2 & _ & _ & _ & _ & _ & Hrefs).
      rewrite Hrun in Hb. injection Hb as <-.
      assert (Hrest : active step = false).
      { rewrite Forall_forall in Hrests. apply Hrests. rewrite <- Hpat.
        eapply at_index_In; eassumption. }
      destruct (engine_rest step
                  (at_index (patternRef b) (Z.rem (i + 1) STEPS_PER_BAR))
                  time (paramsRef b) (secondsPerStep (paramsRef b))
                  (audioEngine b) Hrest) as (E1 & E2 & E3 & E4 & E5).
      inversion Hrefs.
      unfold P. cbn [nextNote set_cursor patternRef audioEngine timers].
      rewrite He, E1, E2, E3, E4, E5, Ht2, Hrest.
      split; [congruence|]. split; [exact Ho|]. split; [exact Hc|].
      split; [exact Hf|]. split; [exact Hq|]. split.
      + exists (cl ++ [setTargetAtTime 0 time (1 / 100)]).
        rewrite Hg, app_assoc. split; [reflexivity|].
        apply Forall_app. split; [exact Hcl|]. repeat constructor. eauto.
      + eexists. rewrite Ht, <- app_assoc. split; [reflexivity|].
        apply Forall_app. split; [exact Hn|]. repeat constructor.
        cbn [task]. eauto.
    - unfold P. repeat split; exists []; now rewrite app_nil_r. }
  destruct HP as (_ & HP). exact HP.
Qed.

(** One iteration over the cleared pattern. *)
Lemma rests_are_silent_witness :
  exists a',
    Forall (fun s => active s = false)
      (App.patternRef
         (App.set_cursor (5 / 100) 0
            (App.mount Sample.params120 Sample.allRests 0)))
    /\ App.schedulerLoop 1
         (App.set_cursor (5 / 100) 0
            (App.mount Sample.params120 Sample.allRests 0))
       = Done a'
    /\ AudioEngine.osc (App.audioEngine a') = None.
Proof.
  assert (Hrests : Forall (fun s => active s = false)
                     (App.patternRef
                        (App.set_cursor (5 / 100) 0
                           (App.mount Sample.params120 Sample.allRests 0))))
    by (repeat constructor).
  assert (H : exists a',
             App.schedulerLoop 1
               (App.set_cursor (5 / 100) 0
                  (App.mount Sample.params120 Sample.allRests 0))
             = Done a').
  { eexists. evaluate.
    rewrite Rlt_dec_true by lra. rewrite Rlt_dec_false by lra. reflexivity. }
  destruct H as (a' & H). exists a'. split; [exact Hrests|]. split; [exact H|].
  exact (proj1 (rests_are_silent _ _ _ Hrests H)).
Defined.

End Rests.

(** ** The gate between two notes *)

Section GateBetweenNotes.

Import AudioEngine.

Lemma filter_before_later t t' evs :
  t <= t' -> filter (before t') (filter (before t) evs) = filter (before t) evs.
Proof.
  intros Ht. induction evs as [|c evs IH]; [reflexivity|]. cbn [filter].
  destruct (before t c) eqn:E; [|exact IH]. cbn [filter].
  assert (E' : before t' c = true).
  { unfold before in *. destruct (Rlt_dec (eventTime c) t); [|discriminate].
    rewrite Rlt_dec_true by lra. reflexivity. }
  now rewrite E', IH.
Qed.

Lemma fromTime_gateClose step t params d t0 :
  0 <= d -> t0 <= t ->
  Spec.fromTime t0 (gateClose step t params d) = gateClose step t params d.
Proof.
  intros Hd Ht. unfold gateClose, gateLen. destruct (negb (slide step));
    [|reflexivity].
  rewrite !fromTime_keep by (cbn; lra). reflexivity.
Qed.

(** Two active steps in a row, the first without slide, one step apart, the
    step lasting [60 / tempo / 4] seconds.  At tempo 149 and below the gain
    timeline from the first trigger on holds the opening of the gate, its
    close (hold until 80% of the step, then the ramp to zero over 20 ms) and
    the next opening.  At tempo 151 and above the ramp to zero would end
    after the second trigger, and the second trigger's cancellation removes
    it: the gate is not closed between the two notes.  At tempo 150 the end
    of the ramp and the second trigger fall on the same instant in exact
    arithmetic, so there the outcome rests on how the code's doubles round;
    that case is left out. *)
Theorem gate_close_between_notes
    step1 next1 params1 step2 next2 params2 time bpm d2 e :
  active step1 = true -> slide step1 = false -> active step2 = true ->
  0 < bpm -> 0 <= d2 ->
  let d := 60 / bpm / 4 in
  let e1 := scheduleStep step1 next1 time params1 d e in
  let e2 := scheduleStep step2 next2 (time + d) params2 d2 e1 in
  let opening1 := setValueAtTime (activeVol step1 params1) time in
  let hold1 := setValueAtTime (activeVol step1 params1) (time + d * (8 / 10)) in
  let ramp1 := linearRampToValueAtTime 0 (time + d * (8 / 10) + 2 / 100) in
  let opening2 := setValueAtTime (activeVol step2 params2) (time + d) in
  (bpm <= 149 ->
   Spec.fromTime time (timeline ampGain_gain e2)
   = [opening1; hold1; ramp1; opening2] ++ gateClose step2 (time + d) params2 d2)
  /\ (151 <= bpm ->
      Spec.fromTime time (timeline ampGain_gain e2)
      = [opening1; hold1; opening2] ++ gateClose step2 (time + d) params2 d2).
Proof.
  intros Ha1 Hs1 Ha2 Hbpm Hd2 d e1 e2 opening1 hold1 ramp1 opening2.
  assert (Hdb : d * bpm = 15) by (unfold d; field; lra).
  assert (Hd : 0 < d).
  { unfold d. apply Rdiv_lt_0_compat; [|lra].
    apply Rdiv_lt_0_compat; lra. }
  assert (H1 : timeline ampGain_gain e1
               = filter (before time) (timeline ampGain_gain e)
                 ++ [opening1; hold1; ramp1]).
  { unfold e1. rewrite timeline_ampGain_gain by exact Ha1.
    unfold gateClose, gateLen. rewrite Hs1. reflexivity. }
  assert (H2 : timeline ampGain_gain e2
               = filter (before (time + d)) (timeline ampGain_gain e1)
                 ++ opening2 :: gateClose step2 (time + d) params2 d2).
  { unfold e2. now rewrite timeline_ampGain_gain. }
  assert (Htail : Spec.fromTime time
                    (opening2 :: gateClose step2 (time + d) params2 d2)
                  = opening2 :: gateClose step2 (time + d) params2 d2).
  { rewrite fromTime_keep by (cbn; lra).
    rewrite fromTime_gateClose by lra. reflexivity. }
  rewrite H2, H1, filter_app, filter_before_later by lra.
  rewrite !fromTime_app, fromTime_before, Htail. cbn [app].
  split; intros Hcase; cbn [filter].
  - assert (Hlong : 1 / 10 < d) by nra.
    rewrite !before_true by (cbn; lra).
    rewrite !fromTime_keep by (cbn; lra). reflexivity.
  - assert (Hshort : d < 1 / 10) by nra.
    rewrite 2!before_true by (cbn; lra).
    rewrite (before_false _ ramp1) by (cbn; lra).
    rewrite !fromTime_keep by (cbn; lra). reflexivity.
Qed.

(** Two plain notes at tempo 120, where the step lasts 0.125 s. *)
Lemma gate_close_between_notes_witness :
  active Sample.plain = true /\ slide Sample.plain = false
  /\ 0 < 120 /\ 0 <= 1 / 8 /\ 120 <= 149
  /\ In (linearRampToValueAtTime 0 (0 + 60 / 120 / 4 * (8 / 10) + 2 / 100))
        (Spec.fromTime 0
           (timeline ampGain_gain
              (scheduleStep Sample.plain None (0 + 60 / 120 / 4)
                 Sample.params120 (1 / 8)
                 (scheduleStep Sample.plain None 0 Sample.params120
                    (60 / 120 / 4) (constructor 0))))).
Proof.
  assert (H1 : 0 < 120) by lra. assert (H2 : 0 <= 1 / 8) by lra.
  assert (H3 : 120 <= 149) by lra.
  split; [reflexivity|]. split; [reflexivity|].
  split; [exact H1|]. split; [exact H2|]. split; [exact H3|].
  rewrite (proj1 (gate_close_between_notes Sample.plain None Sample.params120
                    Sample.plain None Sample.params120 0 120 (1 / 8)
                    (constructor 0) eq_refl eq_refl eq_refl H1 H2) H3).
  right. right. left. reflexivity.
Defined.

End GateBetweenNotes.

(** ** Note Off after Note On *)

Section NoteOff.

Import App.

(** Running the Note On task of a step sends the Note On, if a port is
    available, and always arms exactly one timer, for the Note Off of the same
    note: due 1.05 step durations later for a sliding step, which is after
    the next step begins, and 0.7 step durations later otherwise, which is
    before.  When that timer runs with the port still available, the Note Off
    carries the note byte of the Note On. *)
Theorem note_off_follows_note_on fuel a baseNote velocity step duration :
  0 < duration ->
  exists a' off,
    App.runTask fuel (App.midiNoteOn baseNote velocity step duration) a = Done a'
    /\ App.timers a' = App.timers a ++ [off]
    /\ App.id off = App.nextTimerId a
    /\ App.task off = App.midiNoteOff baseNote
    /\ App.due off
       = App.wallClock a
         + (if slide step then duration * 1050 else duration * 700)
    /\ (if slide step
        then App.wallClock a + duration * 1000 < App.due off
        else App.due off < App.wallClock a + duration * 1000)
    /\ forall port,
         MidiService.output (App.midiService a) = Some port ->
         MidiService.sent (App.midiService a')
         = MidiService.sent (App.midiService a)
           ++ [(port, [144; Z.max 0 (Z.min 127 baseNote);
                       Z.max 0 (Z.min 127 velocity)]%Z)]
         /\ forall fuel' b b',
              MidiService.output (App.midiService b) = Some port ->
              App.runTask fuel' (App.task off) b = Done b' ->
              MidiService.sent (App.midiService b')
              = MidiService.sent (App.midiService b)
                ++ [(port, [128; Z.max 0 (Z.min 127 baseNote); 0]%Z)].
Proof.
  intros Hd.
  assert (Hlen : Rmax 0 ((if slide step then duration * (105 / 100)
                          else duration * (7 / 10)) * 1000)
                 = if slide step then duration * 1050 else duration * 700).
  { destruct (slide step); rewrite Rmax_0_pos; lra. }
  eexists. eexists. split; [reflexivity|].
  cbn [setTimeout snd set_timers set_services timers wallClock nextTimerId
       midiService id task due].
  split; [reflexivity|]. split; [reflexivity|]. split; [reflexivity|].
  split; [now rewrite Hlen|]. split.
  - cbn [due]. rewrite Hlen. destruct (slide step); lra.
  - intros port Hport. unfold MidiService.sendNoteOn. rewrite Hport.
    split; [reflexivity|].
    intros fuel' b b' Hb Hrun. cbn [runTask] in Hrun. injection Hrun as <-.
    cbn [set_services midiService]. unfold MidiService.sendNoteOff.
    now rewrite Hb.
Qed.

Lemma note_off_follows_note_on_witness :
  0 < 1 / 8
  /\ exists a',
       App.runTask 0 (App.midiNoteOn 36 100 Sample.plain (1 / 8))
         (App.mount Sample.params120 Sample.oneNote 0) = Done a'.
Proof.
  assert (H : 0 < 1 / 8) by lra. split; [exact H|].
  destruct (note_off_follows_note_on 0
              (App.mount Sample.params120 Sample.oneNote 0) 36 100
              Sample.plain (1 / 8) H) as (a' & off & Hrun & _).
  exists a'. exact Hrun.
Defined.

End NoteOff.

(** ** The panel keeps its ranges *)

Section PanelRanges.

Import App Panel.

Lemma react_scheduler fuel a a' :
  scheduler fuel a = Done a' -> params a' = params a /\ pattern a' = pattern a.
Proof.
  intros H. apply scheduler_done in H as (a1 & Hloop & ->).
  pose proof (Inv.frame_react _ _ (frame_schedulerLoop _ _ _ Hloop)) as R.
  inversion R. now destruct (isPlayingRef a1).
Qed.

Lemma react_runTask fuel k a a' :
  runTask fuel k a = Done a' -> params a' = params a /\ pattern a' = pattern a.
Proof.
  intros H. destruct k; cbn [runTask] in H;
    [now apply react_scheduler in H| | |]; injection H as <-; now split.
Qed.

Lemma react_togglePlay fuel a a' :
  togglePlay fuel a = Done a' -> params a' = params a /\ pattern a' = pattern a.
Proof.
  unfold togglePlay, startSequencer. intros H. destruct (playState a).
  - apply bind_done in H as (a4 & H4 & H). injection H as <-.
    apply react_scheduler in H4. exact H4.
  - injection H as <-. destruct (fields_stopSequencer a) as (H1 & H2 & _).
    now split.
Qed.

Lemma ok_togglePlay fuel a a' : togglePlay fuel a = Done a' -> Inv.ok a -> Inv.ok a'.
Proof.
  unfold togglePlay. intros H Hok. destruct (playState a) eqn:E.
  - eapply ok_start; eassumption.
  - injection H as <-. now apply ok_stop.
Qed.

Lemma good_same a a' :
  Inv.ok a' -> params a' = params a -> pattern a' = pattern a -> good a -> good a'.
Proof.
  intros Hok Hp Hq (_ & Hlen & Hsteps & Hpar). unfold good.
  rewrite Hp, Hq. split; [exact Hok|]. split; [exact Hlen|]. now split.
Qed.

Lemma good_setParams f a :
  paramsInRange (f (params a)) -> good a -> good (setParams f a).
Proof.
  intros Hf (Hok & Hlen & Hsteps & _).
  split; [|split; [exact Hlen|split; [exact Hsteps|exact Hf]]].
  apply (ok_step 0 a (EditParams f)); [apply App.step_params|exact Hok].
Qed.

Lemma good_setPattern pat a :
  List.length pat = 16%nat -> Forall stepInRange pat -> good a ->
  good (setPattern pat a).
Proof.
  intros Hlen Hsteps (Hok & _ & _ & Hpar).
  split; [|split; [exact Hlen|split; [exact Hsteps|exact Hpar]]].
  apply (ok_step 0 a (EditPattern pat)); [apply App.step_pattern|exact Hok].
Qed.

Lemma paramsInRange_withParam u p :
  sliderRange u -> paramsInRange p -> paramsInRange (withParam u p).
Proof.
  unfold paramsInRange, Spec.percentages, Spec.percent.
  intros Hu H. destruct u; cbn in *; intuition lra.
Qed.

Lemma Rmin_100_range x : 0 <= x <= 100 -> 0 <= Rmin 100 (x + keyStep) <= 100.
Proof. unfold keyStep, Rmin. intros H. destruct (Rle_dec _ _); lra. Qed.

Lemma Rmax_0_range x : 0 <= x <= 100 -> 0 <= Rmax 0 (x - keyStep) <= 100.
Proof. unfold keyStep, Rmax. intros H. destruct (Rle_dec _ _); lra. Qed.

(** What a key press can do: nothing, one of the ten updates of the
    parameters, or the play/stop toggle. *)
Lemma key_cases fuel tagName key a a' :
  handleKeyDown fuel tagName key a = Done a' ->
  a' = a
  \/ (exists u, a' = setParams (fun p => withParam (u p) p) a
                /\ forall p, paramsInRange p -> sliderRange (u p))
  \/ togglePlay fuel a = Done a'.
Proof.
  unfold handleKeyDown. intros H.
  destruct (_ || _)%bool; [left; now injection H as <-|].
  repeat match type of H with
         | (if ?c then _ else _) = _ => destruct c
         end;
    try (right; right; exact H);
    try (left; now injection H as <-);
    right; left; injection H as <-.
  - exists (fun p => setCutoff (Rmin 100 (cutoff p + keyStep))).
    split; [reflexivity|]. intros p (Hp & _). apply Rmin_100_range, Hp.
  - exists (fun p => setCutoff (Rmax 0 (cutoff p - keyStep))).
    split; [reflexivity|]. intros p (Hp & _). apply Rmax_0_range, Hp.
  - exists (fun p => setResonance (Rmin 100 (resonance p + keyStep))).
    split; [reflexivity|]. intros p (Hp & _). apply Rmin_100_range, Hp.
  - exists (fun p => setResonance (Rmax 0 (resonance p - keyStep))).
    split; [reflexivity|]. intros p (Hp & _). apply Rmax_0_range, Hp.
  - exists (fun p => setEnvMod (Rmin 100 (envMod p + keyStep))).
    split; [reflexivity|]. intros p (Hp & _). apply Rmin_100_range, Hp.
  - exists (fun p => setEnvMod (Rmax 0 (envMod p - keyStep))).
    split; [reflexivity|]. intros p (Hp & _). apply Rmax_0_range, Hp.
  - exists (fun p => setDecay (Rmin 100 (decay p + keyStep))).
    split; [reflexivity|]. intros p (Hp & _). apply Rmin_100_range, Hp.
  - exists (fun p => setDecay (Rmax 0 (decay p - keyStep))).
    split; [reflexivity|]. intros p (Hp & _). apply Rmax_0_range, Hp.
  - exists (fun _ => setWaveform sawtooth). split; [reflexivity|]. now intros.
  - exists (fun _ => setWaveform square). split; [reflexivity|]. now intros.
Qed.

Lemma length_replaceAt {A} i (x : A) l :
  (i < List.length l)%nat -> List.length (replaceAt i x l) = List.length l.
Proof.
  intros H. unfold replaceAt.
  rewrite length_app, length_firstn. cbn [List.length]. rewrite length_skipn. lia.
Qed.

Lemma Forall_parts {A} (P : A -> Prop) n l :
  Forall P l -> Forall P (firstn n l) /\ Forall P (skipn n l).
Proof.
  intros H. rewrite <- (firstn_skipn n l) in H. now apply Forall_app in H.
Qed.

Lemma Forall_replaceAt {A} (P : A -> Prop) i x l :
  P x -> Forall P l -> Forall P (replaceAt i x l).
Proof.
  intros Hx Hl. unfold replaceAt. apply Forall_app. split.
  - apply (Forall_parts P i l Hl).
  - constructor; [exact Hx|]. apply (Forall_parts P (S i) l Hl).
Qed.

Lemma at_index_lt {A} (l : list A) i x :
  at_index l i = Some x -> (0 <= i)%Z /\ (Z.to_nat i < List.length l)%nat.
Proof.
  unfold at_index. destruct (Z.ltb_spec i 0) as [Hneg|Hpos]; [discriminate|].
  intros Hx. split; [lia|]. apply nth_error_Some. congruence.
Qed.

Lemma stepInRange_button b s u :
  buttonUpdate b s = Some u -> stepInRange s -> stepInRange (withField u s).
Proof.
  unfold stepInRange. intros H Hs. destruct b; cbn [buttonUpdate] in H.
  - now injection H as <-.
  - destruct (nIdx <? List.length Constants.NOTES)%nat eqn:E; [|discriminate].
    apply Nat.ltb_lt in E. change (List.length Constants.NOTES) with 12%nat in E.
    injection H as <-. cbn. lia.
  - injection H as <-. cbn. destruct (octave s =? 1)%Z; lia.
  - injection H as <-. cbn. destruct (octave s =? -1)%Z; lia.
  - now injection H as <-.
  - now injection H as <-.
Qed.

Lemma good_mountApp now a : mountApp now = Done a -> good a.
Proof.
  unfold mountApp. intros H.
  assert (Hp : initialPattern
                 (pattern (mount Constants.INITIAL_PARAMS
                             Constants.DEFAULT_PATTERN now))
               = Done (map (fun i => {| active := Nat.even i; note := 0; octave := 0;
                                        slide := false; accent := false |})
                           (seq 0 16)))
    by reflexivity.
  rewrite Hp in H. cbn [bind] in H. injection H as <-.
  apply good_setPattern; [reflexivity| |].
  - repeat constructor; cbn; lia.
  - split; [apply ok_mount|]. split; [reflexivity|]. split.
    + repeat constructor; cbn; lia.
    + unfold paramsInRange, Spec.percentages, Spec.percent. cbn. lra.
Qed.

Lemma good_step fuel a a' : Panel.step fuel a a' -> good a -> good a'.
Proof.
  intros Hstep Hgood. pose proof Hgood as (Hok & Hlen & Hsteps & Hpar).
  destruct Hstep.
  - apply (good_same a); try reflexivity; [|exact Hgood].
    apply (ok_step fuel a (Tick dt)); [now apply App.step_tick|exact Hok].
  - destruct (react_runTask _ _ _ _ H1) as [Hp Hq].
    apply (good_same a); try assumption.
    eapply ok_fire; eassumption.
  - apply (good_same a); try reflexivity; [|exact Hgood].
    apply (ok_step fuel a (MidiReady access)); [apply App.step_midi|exact Hok].
  - apply (good_same a); try reflexivity; [|exact Hgood].
    apply (ok_step fuel a (SelectOutput port)); [apply App.step_output|exact Hok].
  - apply key_cases in H as [->|[(u & -> & Hu)|H]]; [exact Hgood| |].
    + apply good_setParams; [|exact Hgood].
      apply paramsInRange_withParam; [now apply Hu|exact Hpar].
    + destruct (react_togglePlay _ _ _ H) as [Hp Hq].
      apply (good_same a); try assumption. eapply ok_togglePlay; eassumption.
  - apply good_setParams; [|exact Hgood]. now apply paramsInRange_withParam.
  - unfold click in H. destruct (at_index (pattern a) index) as [s|] eqn:Hs;
      [|discriminate].
    destruct (buttonUpdate b s) as [u|] eqn:Hu; [|discriminate].
    unfold updateStep in H. rewrite Hs in H. injection H as <-.
    destruct (at_index_lt _ _ _ Hs) as [_ Hlt].
    apply good_setPattern; [| |exact Hgood].
    + now rewrite length_replaceAt.
    + apply Forall_replaceAt; [|exact Hsteps].
      apply (stepInRange_button _ _ _ Hu).
      rewrite Forall_forall in Hsteps. apply Hsteps.
      eapply at_index_In; eassumption.
  - apply good_setPattern; [reflexivity| |exact Hgood].
    repeat constructor; cbn; lia.
  - destruct (react_togglePlay _ _ _ H) as [Hp Hq].
    apply (good_same a); try assumption. eapply ok_togglePlay; eassumption.
Qed.

Lemma good_reachable fuel a : reachable fuel a -> good a.
Proof.
  induction 1 as [now a H|a a' _ IH Hstep].
  - eapply good_mountApp; eassumption.
  - eapply good_step; eassumption.
Qed.

Lemma reachable_pattern_ranges fuel a :
  reachable fuel a ->
  List.length (patternRef a) = 16%nat /\ Forall stepInRange (patternRef a).
Proof.
  intros Hr. destruct (good_reachable _ _ Hr)
    as ((_ & _ & _ & _ & Hq) & Hlen & Hsteps & _).
  rewrite Hq. now split.
Qed.

End PanelRanges.

Section PanelTheorems.

Import App Panel.

(** In every state the mounted panel can reach through its keys, sliders,
    buttons, timers and the MIDI selector, the published pattern has 16 steps
    with notes within 0..11 and octaves within -1..1, the six percentage
    parameters lie within [0,100], the tempo within [60,200], the cursor
    within 0..15, and the refs hold what the panel shows. *)
Theorem panel_keeps_ranges fuel a :
  Panel.reachable fuel a ->
  List.length (App.patternRef a) = 16%nat
  /\ Forall Panel.stepInRange (App.patternRef a)
  /\ Spec.percentages (App.paramsRef a)
  /\ 60 <= tempo (App.paramsRef a) <= 200
  /\ (0 <= App.currentStepRef a <= 15)%Z
  /\ App.paramsRef a = App.params a
  /\ App.patternRef a = App.pattern a.
Proof.
  intros Hr. destruct (good_reachable _ _ Hr)
    as ((Hc & _ & _ & Hp & Hq) & Hlen & Hsteps & Hper & Htempo).
  rewrite Hp, Hq.
  split; [exact Hlen|]. split; [exact Hsteps|]. split; [exact Hper|].
  split; [exact Htempo|]. split; [exact Hc|]. split; reflexivity.
Qed.

(** The panel right after mounting. *)
Lemma panel_keeps_ranges_witness :
  exists a,
    Panel.reachable 0 a
    /\ List.length (App.patternRef a) = 16%nat.
Proof.
  assert (H : exists a, Panel.mountApp 0 = Done a) by (eexists; reflexivity).
  destruct H as (a & H).
  assert (Hr : Panel.reachable 0 a) by (eapply Panel.reach_mount; exact H).
  exists a. split; [exact Hr|].
  exact (proj1 (panel_keeps_ranges 0 a Hr)).
Defined.

Lemma scheduler_total a :
  0 < tempo (paramsRef a) -> List.length (patternRef a) = 16%nat ->
  Inv.cursorOk a -> exists fuel a', scheduler fuel a = Done a'.
Proof.
  intros Ht Hlen Hc.
  destruct (schedulerLoop_terminates a Ht Hlen Hc) as (fuel & a1 & H).
  exists fuel. unfold scheduler. rewrite H. cbn [bind].
  destruct (isPlayingRef a1); eexists; reflexivity.
Qed.

(** In every state the panel can reach, pressing the play button returns
    without throwing, and so does every pending timer callback when the
    browser runs it: for each there is a bound on the scheduler loop that is
    enough. *)
Theorem panel_never_throws fuel a :
  Panel.reachable fuel a ->
  (exists fuel' a', App.togglePlay fuel' a = Done a')
  /\ (forall tm, In tm (App.timers a) ->
        exists fuel' a',
          App.runTask fuel' (App.task tm) (App.clearTimeout (App.id tm) a)
          = Done a').
Proof.
  intros Hr. destruct (good_reachable _ _ Hr)
    as ((Hc & _ & _ & Hp & Hq) & Hlen & Hsteps & Hper & Htempo).
  split.
  - unfold togglePlay, startSequencer.
    destruct (playState a); [|exists 0%nat; eexists; reflexivity].
    set (a3 := set_cursor _ 0%Z _).
    destruct (scheduler_total a3) as (fuel' & a4 & H4).
    + unfold a3. cbn [set_cursor set_loop set_services paramsRef].
      rewrite Hp. lra.
    + unfold a3. cbn [set_cursor set_loop set_services patternRef].
      now rewrite Hq.
    + unfold a3, Inv.cursorOk. cbn [set_cursor currentStepRef]. lia.
    + exists fuel'. rewrite H4. cbn [bind]. eexists. reflexivity.
  - intros tm Hin. destruct (task tm); cbn [runTask];
      try (exists 0%nat; eexists; reflexivity).
    apply scheduler_total.
    + cbn [clearTimeout set_timers paramsRef]. rewrite Hp. lra.
    + cbn [clearTimeout set_timers patternRef]. now rewrite Hq.
    + exact Hc.
Qed.

Lemma panel_never_throws_witness :
  exists a fuel' a',
    Panel.reachable 0 a /\ App.togglePlay fuel' a = Done a'.
Proof.
  assert (H : exists a, Panel.mountApp 0 = Done a) by (eexists; reflexivity).
  destruct H as (a & H).
  assert (Hr : Panel.reachable 0 a) by (eapply Panel.reach_mount; exact H).
  destruct (proj1 (panel_never_throws 0 a Hr)) as (fuel' & a' & Hplay).
  exists a, fuel', a'. split; [exact Hr|exact Hplay].
Defined.

(** In every state the panel can reach, each step of the pattern has its
    MIDI note number [36 + note + octave * 12] within 24..59, so the clamp to
    0..127 of the MIDI service leaves it as it is: the Note On scheduled for
    an active step carries the very note whose frequency the same trigger sets
    on the oscillator. *)
Theorem panel_notes_agree fuel a stepNumber time step :
  Panel.reachable fuel a ->
  App.at_index (App.patternRef a) stepNumber = Some step ->
  active step = true ->
  let n := (36 + note step + octave step * 12)%Z in
  (24 <= n <= 59)%Z
  /\ exists a' tm,
       App.scheduleNote stepNumber time a = Done a'
       /\ In tm (App.timers a')
       /\ In (setValueAtTime (AudioEngine.frequencyOf n) time)
             (AudioEngine.timeline AudioEngine.osc_frequency (App.audioEngine a'))
       /\ forall fuel' b port,
            MidiService.output (App.midiService b) = Some port ->
            exists b',
              App.runTask fuel' (App.task tm) b = Done b'
              /\ MidiService.sent (App.midiService b')
                 = MidiService.sent (App.midiService b)
                   ++ [(port, [144; n; if accent step then 127 else 100]%Z)].
Proof.
  intros Hr Hstep Hact n.
  destruct (reachable_pattern_ranges fuel a Hr) as (Hlen & Hsteps).
  assert (Hrange : stepInRange step).
  { rewrite Forall_forall in Hsteps. apply Hsteps.
    eapply at_index_In; eassumption. }
  assert (Hn : (24 <= n <= 59)%Z) by (unfold stepInRange in Hrange; lia).
  split; [exact Hn|].
  destruct (scheduleNote_done a stepNumber time step Hstep)
    as (a' & Hrun & He & Ht & _).
  rewrite Hact in Ht.
  eexists a', _. split; [exact Hrun|]. split.
  { rewrite Ht. apply in_or_app. right. right. left. reflexivity. }
  split.
  { rewrite He, timeline_osc_frequency by exact Hact.
    apply in_or_app. right. left. reflexivity. }
  intros fuel' b port Hport. eexists. split; [reflexivity|].
  cbn [task midiService set_services setTimeout snd set_timers].
  unfold MidiService.sendNoteOn. rewrite Hport.
  cbn [MidiService.sent MidiService.send]. unfold velocityOf.
  fold n. replace (Z.max 0 (Z.min 127 n)) with n by lia.
  destruct (accent step); reflexivity.
Qed.

End PanelTheorems.

Lemma panel_notes_agree_witness :
  exists a step,
    Panel.mountApp 0 = Done a
    /\ (24 <= 36 + note step + octave step * 12 <= 59)%Z.
Proof.
  eexists. eexists. split; [reflexivity|].
  refine (proj1 (panel_notes_agree 0 _ 0 0 _
                   (Panel.reach_mount 0 0 _ eq_refl) eq_refl eq_refl)).
Defined.

Section Keyboard.

Import App Panel.

Lemma up_then_down x :
  0 <= x <= 100 -> Rmax 0 (Rmin 100 (x + keyStep) - keyStep) = Rmin x 95.
Proof.
  unfold keyStep, Rmax, Rmin. intros H.
  repeat destruct (Rle_dec _ _); lra.
Qed.

Lemma down_then_up x :
  0 <= x <= 100 -> Rmin 100 (Rmax 0 (x - keyStep) + keyStep) = Rmax x 5.
Proof.
  unfold keyStep, Rmax, Rmin. intros H.
  repeat destruct (Rle_dec _ _); lra.
Qed.

(** A key press never changes the tempo, the volume, the accent level or
    the pattern, whatever the key; on an INPUT or SELECT element it changes
    nothing at all. *)
Theorem keys_leave_the_rest fuel tagName key a a' :
  Panel.handleKeyDown fuel tagName key a = Done a' ->
  tempo (App.params a') = tempo (App.params a)
  /\ volume (App.params a') = volume (App.params a)
  /\ accentLevel (App.params a') = accentLevel (App.params a)
  /\ App.pattern a' = App.pattern a
  /\ (tagName = "INPUT"%string \/ tagName = "SELECT"%string -> a' = a).
Proof.
  intros H. split; [|split; [|split; [|split]]].
  5: { intros Htag. unfold handleKeyDown in H.
       destruct Htag as [-> | ->]; cbn [String.eqb orb] in H.
       - now injection H as <-.
       - now injection H as <-. }
  all: unfold handleKeyDown in H;
    destruct (_ || _)%bool; [now injection H as <-|];
    repeat match type of H with
           | (if ?c then _ else _) = _ => destruct c
           end;
    try (apply react_togglePlay in H; destruct H as (Hp & Hq);
         rewrite ?Hp, ?Hq; reflexivity);
    injection H as <-; reflexivity.
Qed.

Lemma keys_leave_the_rest_witness :
  exists a a' : App.t,
    Panel.handleKeyDown 0 "BODY" "q" a = Done a'
    /\ cutoff (App.params a') = 55
    /\ tempo (App.params a') = tempo (App.params a).
Proof.
  exists (App.mount Constants.INITIAL_PARAMS Constants.DEFAULT_PATTERN 0).
  eexists. split; [reflexivity|]. split.
  - cbn [handleKeyDown String.eqb Ascii.eqb Bool.eqb orb setParams params mount
         withParam cutoff Constants.INITIAL_PARAMS].
    unfold keyStep, Rmin. destruct (Rle_dec _ _); lra.
  - exact (proj1 (keys_leave_the_rest 0 "BODY" "q" _ _ eq_refl)).
Defined.

(** Pressing q and then a (cutoff up, then down) brings the cutoff back to
    where it was when it was at most 95, and leaves it at 95 when it was
    above: the upper stop at 100 loses the excess.  Pressing a and then q
    gives the mirror image at the lower stop: back to the old value from 5
    upwards, 5 below.  Nothing else of the parameters changes. *)
Theorem cutoff_keys_round_trip fuel tagName a :
  (String.eqb tagName "INPUT" || String.eqb tagName "SELECT")%bool = false ->
  0 <= cutoff (App.params a) <= 100 ->
  (exists a1 a2,
     Panel.handleKeyDown fuel tagName "q" a = Done a1
     /\ Panel.handleKeyDown fuel tagName "a" a1 = Done a2
     /\ App.params a2
        = Panel.withParam
            (Panel.setCutoff (Rmin (cutoff (App.params a)) 95)) (App.params a))
  /\ (exists a1 a2,
        Panel.handleKeyDown fuel tagName "a" a = Done a1
        /\ Panel.handleKeyDown fuel tagName "q" a1 = Done a2
        /\ App.params a2
           = Panel.withParam
               (Panel.setCutoff (Rmax (cutoff (App.params a)) 5)) (App.params a)).
Proof.
  intros Htag Hc. unfold handleKeyDown. rewrite Htag.
  cbn [String.eqb Ascii.eqb Bool.eqb].
  split; eexists; eexists; (split; [reflexivity|split; [reflexivity|]]);
    cbn [setParams params withParam cutoff resonance envMod decay accentLevel
         tempo waveform volume].
  - now rewrite up_then_down.
  - now rewrite down_then_up.
Qed.

Lemma cutoff_keys_round_trip_witness :
  exists a1 a2,
    Panel.handleKeyDown 0 "BODY" "q"
      (App.mount Constants.INITIAL_PARAMS Constants.DEFAULT_PATTERN 0) = Done a1
    /\ Panel.handleKeyDown 0 "BODY" "a" a1 = Done a2
    /\ cutoff (App.params a2) = 50.
Proof.
  assert (Hc : 0 <= cutoff (App.params
                  (App.mount Constants.INITIAL_PARAMS Constants.DEFAULT_PATTERN 0))
               <= 100).
  { cbn [mount params cutoff Constants.INITIAL_PARAMS]. lra. }
  destruct (proj1 (cutoff_keys_round_trip 0 "BODY"
                     (App.mount Constants.INITIAL_PARAMS Constants.DEFAULT_PATTERN 0)
                     eq_refl Hc))
    as (a1 & a2 & H1 & H2 & H3).
  exists a1, a2. split; [exact H1|]. split; [exact H2|].
  rewrite H3. cbn [withParam cutoff mount params Constants.INITIAL_PARAMS].
  unfold Rmin. destruct (Rle_dec _ _); lra.
Defined.

End Keyboard.

Section StepEditing.

Import App Panel.

Lemma nth_error_replaceAt_same {A} i (x : A) l :
  (i < List.length l)%nat -> nth_error (replaceAt i x l) i = Some x.
Proof.
  intros H. unfold replaceAt.
  rewrite nth_error_app2 by (rewrite length_firstn; lia).
  rewrite length_firstn. replace (i - Nat.min i (List.length l))%nat with O by lia.
  reflexivity.
Qed.

Lemma nth_error_replaceAt_other {A} i j (x : A) l :
  (i < List.length l)%nat -> i <> j ->
  nth_error (replaceAt i x l) j = nth_error l j.
Proof.
  intros Hi Hij. unfold replaceAt.
  destruct (Nat.lt_ge_cases j i) as [Hlt|Hge].
  - rewrite nth_error_app1 by (rewrite length_firstn; lia).
    rewrite nth_error_firstn.
    destruct (Nat.ltb_spec j i); [reflexivity|lia].
  - rewrite nth_error_app2 by (rewrite length_firstn; lia).
    rewrite length_firstn.
    replace (j - Nat.min i (List.length l))%nat with (S (j - S i)) by lia.
    cbn [nth_error]. rewrite nth_error_skipn. f_equal. lia.
Qed.

(** [updateStep] on an existing index changes that one step, by the one
    field, and nothing else: the pattern keeps its length, every other index
    keeps its step, the ref follows the new pattern, and parameters, timers,
    cursor and both services stay as they are.  On an index the pattern does
    not have it is outside what the model covers. *)
Theorem updateStep_changes_one_step index u a a' :
  Panel.updateStep index u a = Some a' ->
  exists s,
    App.at_index (App.pattern a) index = Some s
    /\ App.at_index (App.pattern a') index = Some (Panel.withField u s)
    /\ (forall j, j <> index ->
          App.at_index (App.pattern a') j = App.at_index (App.pattern a) j)
    /\ List.length (App.pattern a') = List.length (App.pattern a)
    /\ App.patternRef a' = App.pattern a'
    /\ App.params a' = App.params a
    /\ App.timers a' = App.timers a
    /\ App.currentStepRef a' = App.currentStepRef a
    /\ App.audioEngine a' = App.audioEngine a
    /\ App.midiService a' = App.midiService a.
Proof.
  unfold updateStep. intros H.
  destruct (at_index (pattern a) index) as [s|] eqn:Hs; [|discriminate].
  injection H as <-. exists s. split; [reflexivity|].
  destruct (at_index_lt _ _ _ Hs) as (Hpos & Hlt).
  cbn [setPattern pattern patternRef params timers currentStepRef audioEngine
       midiService].
  split.
  { unfold at_index. destruct (Z.ltb_spec index 0); [lia|].
    now apply nth_error_replaceAt_same. }
  split.
  { intros j Hj. unfold at_index. destruct (Z.ltb_spec j 0); [reflexivity|].
    apply nth_error_replaceAt_other; [exact Hlt|lia]. }
  split; [now apply length_replaceAt|].
  repeat split.
Qed.

Lemma updateStep_changes_one_step_witness :
  exists a' s,
    Panel.updateStep 3 (Panel.setNote 7)
      (App.mount Constants.INITIAL_PARAMS Constants.DEFAULT_PATTERN 0) = Some a'
    /\ App.at_index (App.pattern a') 3 = Some s
    /\ note s = 7%Z.
Proof.
  eexists. eexists. split; [reflexivity|].
  destruct (updateStep_changes_one_step 3 (Panel.setNote 7)
              (App.mount Constants.INITIAL_PARAMS Constants.DEFAULT_PATTERN 0)
              _ eq_refl) as (s & Hs & Hs' & _).
  split; [reflexivity|reflexivity].
Defined.

(** The log keeps the newest line first and never more than 20 lines: the
    new line is followed by the 19 newest of the lines before. *)
Theorem logMidi_keeps_twenty timeOfDay msg prev :
  exists line,
    Panel.logMidi timeOfDay msg prev = line :: firstn 19 prev
    /\ (List.length (Panel.logMidi timeOfDay msg prev) <= 20)%nat
    /\ (List.length (Panel.logMidi timeOfDay msg prev)
        = Nat.min 20 (S (List.length prev)))%nat.
Proof.
  unfold logMidi. eexists. split; [reflexivity|].
  rewrite length_firstn. cbn [List.length]. lia.
Qed.

End StepEditing.

Section NoteNames.

Import App Panel.

(** For a step within the ranges the panel keeps, the name the log prints
    for its MIDI note is the note name shown on the step's column followed by
    the octave number [octave + 2]: the base note 36 is C2. *)
Theorem note_name_of_step s :
  Panel.stepInRange s ->
  exists name,
    App.at_index Constants.NOTES (note s) = Some name
    /\ Constants.MIDI_NOTE_NAMES (AudioEngine.baseMidi s)
       = (name ++ NilZero.string_of_int (Z.to_int (octave s + 2)))%string.
Proof.
  unfold stepInRange, Constants.MIDI_NOTE_NAMES, AudioEngine.baseMidi.
  intros (Hn & Ho).
  assert (Hrem : Z.rem (36 + note s + octave s * 12) 12 = note s).
  { rewrite Z.rem_mod_nonneg by lia.
    symmetry. apply (Z.mod_unique_pos _ _ (3 + octave s)); lia. }
  assert (Hdiv : (((36 + note s + octave s * 12) / 12) - 1 = octave s + 2)%Z).
  { assert ((36 + note s + octave s * 12) / 12 = 3 + octave s)%Z; [|lia].
    symmetry. apply (Z.div_unique_pos _ _ _ (note s)); lia. }
  cbv zeta. rewrite Hrem, Hdiv.
  destruct (at_index Constants.NOTES (note s)) as [name|] eqn:E.
  - exists name. split; reflexivity.
  - exfalso. unfold at_index in E. destruct (Z.ltb_spec (note s) 0); [lia|].
    apply nth_error_None in E.
    change (List.length Constants.NOTES) with 12%nat in E. lia.
Qed.

Lemma note_name_of_step_witness :
  Constants.MIDI_NOTE_NAMES
    (AudioEngine.baseMidi
       {| active := true; note := 9; octave := -1; slide := false;
          accent := false |}) = "A1"%string.
Proof.
  destruct (note_name_of_step
              {| active := true; note := 9; octave := -1; slide := false;
                 accent := false |}) as (name & Hname & Hprint).
  - unfold stepInRange. cbn [note octave]. lia.
  - rewrite Hprint. injection Hname as <-. reflexivity.
Defined.

End NoteNames.

Section KnobControl.

Import Knob.

(** While dragging, a knob with whole-number bounds [min <= max] reports a
    whole number within the bounds, wherever the mouse is; a drag of 200
    pixels upwards from the lower bound reports the upper bound. *)
Theorem knob_reports_within_bounds props clientY k m M :
  Knob.min props = IZR m -> Knob.max props = IZR M -> (m <= M)%Z ->
  Knob.isDragging k = true ->
  (exists z,
     Knob.handleMouseMove props clientY k = Some (IZR z) /\ (m <= z <= M)%Z)
  /\ (Knob.startValue k = Knob.min props ->
      clientY = Knob.startY k - 200 ->
      Knob.handleMouseMove props clientY k = Some (Knob.max props)).
Proof.
  intros Hmin Hmax HmM Hdrag. unfold handleMouseMove. rewrite Hdrag.
  cbn [negb]. cbv zeta. rewrite Hmin, Hmax.
  assert (HR : IZR m <= IZR M) by now apply IZR_le.
  split.
  - set (x := Rmax _ _).
    assert (Hx : IZR m <= x <= IZR M).
    { unfold x, Rmax, Rmin. repeat destruct (Rle_dec _ _); lra. }
    exists (Int_part (x + 1 / 2)). split; [reflexivity|].
    destruct (base_Int_part (x + 1 / 2)) as (Hlo & Hhi).
    split.
    + assert (H : (m - 1 < Int_part (x + 1 / 2))%Z); [|lia].
      apply lt_IZR. rewrite minus_IZR. lra.
    + assert (H : (Int_part (x + 1 / 2) < M + 1)%Z); [|lia].
      apply lt_IZR. rewrite plus_IZR. lra.
  - intros Hstart Hy. rewrite Hstart, Hy.
    replace (Rmax (IZR m) (Rmin (IZR M)
               (IZR m + (startY k - (startY k - 200)) / 200 * (IZR M - IZR m))))
      with (IZR M).
    2: { unfold Rmax, Rmin. repeat destruct (Rle_dec _ _); lra. }
    unfold Math_round. f_equal.
    destruct (base_Int_part (IZR M + 1 / 2)) as (Hlo & Hhi).
    assert (H1 : (Int_part (IZR M + 1 / 2) < M + 1)%Z).
    { apply lt_IZR. rewrite plus_IZR. lra. }
    assert (H2 : (M - 1 < Int_part (IZR M + 1 / 2))%Z).
    { apply lt_IZR. rewrite minus_IZR. lra. }
    replace (Int_part (IZR M + 1 / 2)) with M by lia. reflexivity.
Qed.

Lemma knob_reports_within_bounds_witness :
  exists z,
    Knob.handleMouseMove {| value := 50; min := 0; max := 100 |} 130
      {| isDragging := true; startY := 150; startValue := 50 |} = Some (IZR z)
    /\ (0 <= z <= 100)%Z.
Proof.
  exact (proj1 (knob_reports_within_bounds
                  {| value := 50; min := 0; max := 100 |} 130
                  {| isDragging := true; startY := 150; startValue := 50 |}
                  0 100 eq_refl eq_refl ltac:(lia) eq_refl)).
Defined.

(** The pointer of a knob whose value lies within its bounds [min < max]
    is turned by between -135 and +135 degrees, by -135 at the lower bound
    and +135 at the upper one, and further for a larger value. *)
Theorem knob_rotation_range props :
  Knob.min props < Knob.max props ->
  (Knob.min props <= Knob.value props <= Knob.max props ->
   -135 <= Knob.rotation props <= 135)
  /\ (Knob.value props = Knob.min props -> Knob.rotation props = -135)
  /\ (Knob.value props = Knob.max props -> Knob.rotation props = 135)
  /\ (forall props',
        Knob.min props' = Knob.min props -> Knob.max props' = Knob.max props ->
        Knob.value props <= Knob.value props' ->
        Knob.rotation props <= Knob.rotation props').
Proof.
  intros Hlt. unfold rotation, percentage.
  remember (max props - min props) as d eqn:Ed.
  assert (Hd : 0 < d) by lra.
  assert (Hinv : 0 < / d) by now apply Rinv_0_lt_compat.
  assert (Hone : d * / d = 1) by (apply Rinv_r; lra).
  split; [|split; [|split]].
  - intros Hv. unfold Rdiv.
    assert (H0 : 0 <= (value props - min props) * / d).
    { apply Rmult_le_pos; lra. }
    assert (H1 : (value props - min props) * / d <= d * / d).
    { apply Rmult_le_compat_r; lra. }
    lra.
  - intros ->. unfold Rdiv. replace (min props - min props) with 0 by lra. lra.
  - intros ->. rewrite <- Ed. unfold Rdiv. lra.
  - intros props' Hmin' Hmax' Hv. rewrite Hmin', Hmax', <- Ed. unfold Rdiv.
    assert (H : (value props - min props) * / d
                <= (value props' - min props) * / d).
    { apply Rmult_le_compat_r; lra. }
    lra.
Qed.

Lemma knob_rotation_range_witness :
  Knob.rotation {| value := 50; min := 0; max := 100 |} <= 135.
Proof.
  apply (proj1 (knob_rotation_range {| value := 50; min := 0; max := 100 |}
                  ltac:(cbn [min max]; lra))).
  cbn [min max value]. lra.
Defined.

End KnobControl.

Section EngineShape.

Import AudioEngine.

(** What the accent of a step does to its trigger, for percentages within
    [0,100]: the gain, the filter Q and the filter peak are never lower than
    without the accent.  The decay of the filter is shorter or equal only
    while the decay parameter is at least 10; below 10 the floor at 0.1 makes
    the accented decay the longer one, 0.3 s whatever the parameter. *)
Theorem accent_effect plain accented params :
  accent plain = false -> accent accented = true ->
  Spec.percentages params ->
  activeVol plain params <= activeVol accented params
  /\ qValue plain params <= qValue accented params
  /\ peakFilter plain params <= peakFilter accented params
  /\ (10 <= decay params ->
      decayTime accented params <= decayTime plain params)
  /\ (decay params < 10 ->
      decayTime plain params < decayTime accented params
      /\ decayTime accented params = 3 / 10).
Proof.
  intros Hp Ha (Hc & Hr & He & Hd & Hl & Hv). unfold Spec.percent in *.
  unfold activeVol, qValue, peakFilter, decayTime, activeDecay, activeEnvMod,
    accentIntensity, resValue, baseCutoff, maxFilterFreq.
  rewrite Hp, Ha. unfold Rmin, Rmax.
  split; [destruct (Rle_dec _ _); lra|].
  split; [lra|].
  split; [repeat destruct (Rle_dec _ _); lra|].
  split; intros H; destruct (Rle_dec _ _); lra.
Qed.

Lemma accent_effect_witness :
  decayTime {| active := true; note := 0; octave := 0; slide := false;
               accent := false |}
            {| cutoff := 50; resonance := 60; envMod := 75; decay := 4;
               accentLevel := 80; tempo := 120; waveform := sawtooth;
               volume := 75 |}
  < decayTime {| active := true; note := 0; octave := 0; slide := false;
                 accent := true |}
              {| cutoff := 50; resonance := 60; envMod := 75; decay := 4;
                 accentLevel := 80; tempo := 120; waveform := sawtooth;
                 volume := 75 |}.
Proof.
  refine (proj1 (proj2 (proj2 (proj2 (proj2
            (accent_effect
               {| active := true; note := 0; octave := 0; slide := false;
                  accent := false |}
               {| active := true; note := 0; octave := 0; slide := false;
                  accent := true |}
               {| cutoff := 50; resonance := 60; envMod := 75; decay := 4;
                  accentLevel := 80; tempo := 120; waveform := sawtooth;
                  volume := 75 |} eq_refl eq_refl _)))) _)).
  - unfold Spec.percentages, Spec.percent.
    cbn [cutoff resonance envMod decay accentLevel volume]. lra.
  - cbn [decay]. lra.
Defined.

(** The pitch of a step: one octave up doubles the frequency, a higher MIDI
    note gives a higher frequency, and MIDI note 69 is 440 Hz. *)
Theorem octave_doubles_frequency lower upper :
  note upper = note lower -> octave upper = (octave lower + 1)%Z ->
  frequencyOf (baseMidi upper) = 2 * frequencyOf (baseMidi lower)
  /\ (forall s s', (baseMidi s < baseMidi s')%Z ->
        frequencyOf (baseMidi s) < frequencyOf (baseMidi s'))
  /\ (forall s, baseMidi s = 69%Z -> frequencyOf (baseMidi s) = 440).
Proof.
  intros Hn Ho. split; [|split].
  - unfold baseMidi. rewrite Hn, Ho. unfold frequencyOf.
    replace ((IZR (36 + note lower + (octave lower + 1) * 12) - 69) / 12)
      with ((IZR (36 + note lower + octave lower * 12) - 69) / 12 + 1).
    2: { rewrite !plus_IZR, !mult_IZR, !plus_IZR. lra. }
    rewrite Rpower_plus, Rpower_1 by lra. lra.
  - intros s s' Hlt. unfold frequencyOf.
    apply Rmult_lt_compat_l; [lra|]. apply Rpower_lt; [lra|].
    apply IZR_lt in Hlt. lra.
  - intros s ->. unfold frequencyOf.
    replace ((69 - 69) / 12) with 0 by lra. rewrite Rpower_O by lra. lra.
Qed.

Lemma octave_doubles_frequency_witness :
  frequencyOf 48 = 2 * frequencyOf 36.
Proof.
  exact (proj1 (octave_doubles_frequency
                  {| active := true; note := 0; octave := 0; slide := false;
                     accent := false |}
                  {| active := true; note := 0; octave := 1; slide := false;
                     accent := false |} eq_refl eq_refl)).
Defined.

End EngineShape.
